(** * Tic-Tac-Toe: board logic (game.c) and minimax opponent (ai.c)

    A shallow embedding of the two core translation units of the program,
    followed by the properties established about them.

    Conventions of the embedding.
    - A C [int] is a [Z].  Entered at depth 0, as every caller does, the
      search computes values far inside the 32-bit range (scores lie in
      [-10,10], the node counter is bounded by the size of the game
      tree), so the arithmetic of the program is that of [Z].
    - [char board[3][3]] is nine contiguous chars in row-major order; it is
      the record [Board].  The cell [board[row][col]] sits at offset
      [3*row + col].
    - The [Game] object is shared by reference between the callers and the
      engine, and the two instrumentation counters are file-level globals:
      both live in one store, [Mem], that every operation threads.
    - The method pointers of [struct Game] are assigned once, by
      [Game_init], and never reassigned; calls through them are calls to
      the functions they are initialised with.
    - [rand()] is an input: the value it returns is an argument. *)

From Stdlib Require Import String ZArith List Ascii Bool Lia Permutation
  Sorted.
Import ListNotations.

Local Open Scope char_scope.
Local Open Scope Z_scope.

(* ================================================================== *)
(** * game.c                                                           *)
(* ================================================================== *)

Module Game.

(** [char board[3][3]]. *)
Record Board : Type := mkBoard {
  b00 : ascii; b01 : ascii; b02 : ascii;
  b10 : ascii; b11 : ascii; b12 : ascii;
  b20 : ascii; b21 : ascii; b22 : ascii
}.

(** [typedef struct { int row; int col; } Move;] *)
Record Move : Type := mkMove { row : Z; col : Z }.

(** Address arithmetic of [board[row][col]] on a [char[3][3]]. *)
Definition offset (row col : Z) : Z := 3 * row + col.

(** Read of the char at an offset from the start of the array.  The
    program reads the board at offsets 0..8 only; the value given here
    for other offsets is never used. *)
Definition load (b : Board) (off : Z) : ascii :=
  match off with
  | 0 => b00 b | 1 => b01 b | 2 => b02 b
  | 3 => b10 b | 4 => b11 b | 5 => b12 b
  | 6 => b20 b | 7 => b21 b | 8 => b22 b
  | _ => " "
  end.

(** Store of one char at an offset from the start of the array.  A store
    at an offset outside 0..8 lands outside the array (in the rest of
    [struct Game] or beyond): the board itself keeps its nine chars, and
    what the store hits is outside this model. *)
Definition store (b : Board) (off : Z) (s : ascii) : Board :=
  match b with
  | mkBoard c0 c1 c2 c3 c4 c5 c6 c7 c8 =>
    match off with
    | 0 => mkBoard s c1 c2 c3 c4 c5 c6 c7 c8
    | 1 => mkBoard c0 s c2 c3 c4 c5 c6 c7 c8
    | 2 => mkBoard c0 c1 s c3 c4 c5 c6 c7 c8
    | 3 => mkBoard c0 c1 c2 s c4 c5 c6 c7 c8
    | 4 => mkBoard c0 c1 c2 c3 s c5 c6 c7 c8
    | 5 => mkBoard c0 c1 c2 c3 c4 s c6 c7 c8
    | 6 => mkBoard c0 c1 c2 c3 c4 c5 s c7 c8
    | 7 => mkBoard c0 c1 c2 c3 c4 c5 c6 s c8
    | 8 => mkBoard c0 c1 c2 c3 c4 c5 c6 c7 s
    | _ => b
    end
  end.

(** [board[i][j]] *)
Definition cell (b : Board) (i j : Z) : ascii := load b (offset i j).

(** The index pairs visited by [for i in 0..2, for j in 0..2], in order. *)
Definition cells : list (Z * Z) :=
  [(0,0); (0,1); (0,2); (1,0); (1,1); (1,2); (2,0); (2,1); (2,2)].

(** [Game_isMovesLeft]: 1 at the first blank found, 0 when the scan ends. *)
Fixpoint scan_blank (b : Board) (ps : list (Z * Z)) : Z :=
  match ps with
  | [] => 0
  | (i, j) :: ps' => if (cell b i j =? " ")%char then 1 else scan_blank b ps'
  end.

Definition Game_isMovesLeft (b : Board) : Z := scan_blank b cells.

(** [x != ' ' && x == y && y == z] *)
Definition three (x y z : ascii) : bool :=
  negb (x =? " ")%char && (x =? y)%char && (y =? z)%char.

(** [(x == 'X') ? 1 : -1] *)
Definition winner (x : ascii) : Z := if (x =? "X")%char then 1 else -1.

(** The row loop of [Game_checkWin]; [None] when it runs to its end. *)
Fixpoint check_rows (b : Board) (rows : list Z) : option Z :=
  match rows with
  | [] => None
  | i :: is' =>
      if three (cell b i 0) (cell b i 1) (cell b i 2)
      then Some (winner (cell b i 0))
      else check_rows b is'
  end.

(** The column loop of [Game_checkWin]. *)
Fixpoint check_cols (b : Board) (cols : list Z) : option Z :=
  match cols with
  | [] => None
  | j :: js' =>
      if three (cell b 0 j) (cell b 1 j) (cell b 2 j)
      then Some (winner (cell b 0 j))
      else check_cols b js'
  end.

(** [Game_checkWin]: 1 = X wins, -1 = O wins, 0 = draw, 2 = ongoing. *)
Definition Game_checkWin (b : Board) : Z :=
  match check_rows b [0; 1; 2] with
  | Some r => r
  | None =>
    match check_cols b [0; 1; 2] with
    | Some r => r
    | None =>
      if three (cell b 0 0) (cell b 1 1) (cell b 2 2)
      then winner (cell b 0 0)
      else if three (cell b 0 2) (cell b 1 1) (cell b 2 0)
      then winner (cell b 0 2)
      else if Game_isMovesLeft b =? 0 then 0 else 2
    end
  end.

(** [Game_makeMove]: [self->board[row][col] = symbol;] and nothing else:
    no test of the coordinates, no test of the cell, no result. *)
Definition Game_makeMove (b : Board) (row col : Z) (symbol : ascii) : Board :=
  store b (offset row col) symbol.

(** [Game_init]: [memset(g->board, ' ', sizeof(g->board))]. *)
Definition Game_init : Board :=
  mkBoard " " " " " " " " " " " " " " " " " ".

End Game.

(* ================================================================== *)
(** * ai.c                                                             *)
(* ================================================================== *)

Module AI.
Import Game.

Definition INT_MAX : Z := 2147483647.

(** What the engine writes to standard output, one entry per [printf]. *)
Inductive Printed : Type :=
| PrintScore (i j moveVal : Z)       (* "AI score for move (%d,%d) = %d" *)
| PrintWin (bestVal : Z)             (* "AI prediction: AI (O) will win" *)
| PrintLoss (bestVal : Z)            (* "AI prediction: Player (X) will win" *)
| PrintDraw.                         (* "AI prediction: Game will be a draw" *)

(** One call of [makeMove] through the method pointer: row, column and
    symbol. *)
Definition Call : Type := (Z * Z * ascii)%type.

(** The store: the [Game] the engine points to, the two globals
    [g_nodesSearched] and [g_maxDepthReached], and standard output
    (most recent line first).  The last field is not program state: it
    is the history of the calls of [makeMove] (most recent first), kept
    so that statements can speak about the writes made to the board. *)
Record Mem : Type := mkMem {
  board : Board;
  g_nodesSearched : Z;
  g_maxDepthReached : Z;
  stdout : list Printed;
  calls : list Call
}.

(** The store when a match starts on board [b]. *)
Definition start (b : Board) : Mem := mkMem b 0 0 [] [].

(** [struct AI]: its [game] pointer designates [board] of the store. *)
Record AI : Type := mkAI { difficulty : Z; verbose : Z }.

(** Computations on the store that may run out of fuel. *)
Definition M (A : Type) : Type := Mem -> option (A * Mem).

Definition ret {A} (a : A) : M A := fun m => Some (a, m).

Definition bind {A B} (c : M A) (k : A -> M B) : M B :=
  fun m => match c m with
           | Some (a, m') => k a m'
           | None => None
           end.

Notation "x <- c ;; k" := (bind c (fun x => k))
  (at level 61, c at next level, right associativity).
Notation "c ;;; k" := (bind c (fun _ => k))
  (at level 61, right associativity).

Definition out_of_fuel {A} : M A := fun _ => None.

Definition read_cell (i j : Z) : M ascii := fun m => Some (cell (board m) i j, m).

Definition makeMove (i j : Z) (s : ascii) : M unit :=
  fun m => Some (tt, mkMem (Game_makeMove (board m) i j s)
                           (g_nodesSearched m) (g_maxDepthReached m) (stdout m)
                           ((i, j, s) :: calls m)).

Definition checkWin : M Z := fun m => Some (Game_checkWin (board m), m).
Definition isMovesLeft : M Z := fun m => Some (Game_isMovesLeft (board m), m).

Definition printf (p : Printed) : M unit :=
  fun m => Some (tt, mkMem (board m) (g_nodesSearched m) (g_maxDepthReached m)
                           (p :: stdout m) (calls m)).

(** [g_nodesSearched = 0; g_maxDepthReached = 0;] *)
Definition reset_counters : M unit :=
  fun m => Some (tt, mkMem (board m) 0 0 (stdout m) (calls m)).

(** [if (depth > g_maxDepthReached) g_maxDepthReached = depth;
     g_nodesSearched++;]  The counters are [int]s; the increment is
    written without wrap-around, which is what the code does while the
    node counter is below [INT_MAX]. *)
Definition count_node (depth : Z) : M unit :=
  fun m => Some (tt, mkMem (board m) (g_nodesSearched m + 1)
                           (if depth >? g_maxDepthReached m then depth
                            else g_maxDepthReached m)
                           (stdout m) (calls m)).

(** A loop over a list of indices with loop-carried variables [S]. *)
Fixpoint for_each {A S} (body : S -> A -> M S) (l : list A) (s : S) : M S :=
  match l with
  | [] => ret s
  | a :: l' => s' <- body s a ;; for_each body l' s'
  end.

(** [AI_evaluate] *)
Definition AI_evaluate : M Z :=
  s <- checkWin ;;
  if s =? -1 then ret 10
  else if s =? 1 then ret (-10)
  else ret 0.

(** [AI_minimax].  The recursion depth of the C function is bounded by the
    number of blank cells; [fuel] bounds it here, and [None] is returned
    only when the fuel is exhausted.  [depth] and the scores are [int]s;
    [score - depth], [score + depth] and [depth + 1] are written without
    wrap-around, which is what the code computes for every depth from
    -[INT_MAX] + 10 up to [INT_MAX] minus the number of blank cells, the
    depths 0 to 9 of its callers among them. *)
Fixpoint AI_minimax_fuel (fuel : nat) (depth isMax : Z) {struct fuel} : M Z :=
  match fuel with
  | O => out_of_fuel
  | S fuel' =>
    count_node depth ;;;
    score <- AI_evaluate ;;
    if score =? 10 then ret (score - depth)
    else if score =? -10 then ret (score + depth)
    else
      left <- isMovesLeft ;;
      if left =? 0 then ret 0
      else if negb (isMax =? 0) then
        for_each (fun best '(i, j) =>
          c <- read_cell i j ;;
          if (c =? " ")%char then
            makeMove i j "O" ;;;
            val <- AI_minimax_fuel fuel' (depth + 1) 0 ;;
            makeMove i j " " ;;;
            ret (if val >? best then val else best)
          else ret best) cells (- INT_MAX)
      else
        for_each (fun best '(i, j) =>
          c <- read_cell i j ;;
          if (c =? " ")%char then
            makeMove i j "X" ;;;
            val <- AI_minimax_fuel fuel' (depth + 1) 1 ;;
            makeMove i j " " ;;;
            ret (if val <? best then val else best)
          else ret best) cells INT_MAX
  end.

(** One level of recursion per blank cell, plus the leaf. *)
Definition AI_minimax : Z -> Z -> M Z := AI_minimax_fuel 10.

(** [typedef struct { int r, c; int score; } Candidate;] *)
Record Candidate : Type := mkCand { r : Z; c : Z; score : Z }.

(** [cand[k]] for [k] below the number of stored candidates. *)
Definition cand_at (cand : list Candidate) (k : Z) : Candidate :=
  nth (Z.to_nat k) cand (mkCand 0 0 0).

(** Loop-carried variables of the scan in [AI_findBestMove_impl];
    [cand] holds [cand[0..n-1]], so [n] is its length. *)
Record Scan : Type := mkScan {
  bestVal : Z;
  bestMove : Move;
  cand : list Candidate
}.

(** The scan of all blank cells in [AI_findBestMove_impl]. *)
Definition scan_moves (self : AI) : M Scan :=
  for_each (fun st '(i, j) =>
    c <- read_cell i j ;;
    if (c =? " ")%char then
      makeMove i j "O" ;;;
      moveVal <- AI_minimax 0 0 ;;
      makeMove i j " " ;;;
      (if verbose self >=? 2 then printf (PrintScore i j moveVal) else ret tt) ;;;
      ret (mkScan (if moveVal >? bestVal st then moveVal else bestVal st)
                  (if moveVal >? bestVal st then mkMove i j else bestMove st)
                  (cand st ++ [mkCand i j moveVal]))
    else ret st) cells (mkScan (- INT_MAX) (mkMove (-1) (-1)) []).

(** [for (k = 0; k < n; ++k) if (cand[k].score >= threshold) pool[pn++] = k;] *)
Fixpoint build_pool (threshold : Z) (cand : list Candidate) (k : Z) : list Z :=
  match cand with
  | [] => []
  | x :: cand' =>
      if score x >=? threshold then k :: build_pool threshold cand' (k + 1)
      else build_pool threshold cand' (k + 1)
  end.

(** [for (k = 0; k < n; ++k) pool[pn++] = k;] *)
Fixpoint all_pool (cand : list Candidate) (k : Z) : list Z :=
  match cand with
  | [] => []
  | _ :: cand' => k :: all_pool cand' (k + 1)
  end.

(** [pool[rnd % pn]], with C's truncating [%]. *)
Definition pick_from (pool : list Z) (rnd : Z) : Z :=
  nth (Z.to_nat (Z.rem rnd (Z.of_nat (length pool)))) pool 0.

(** The difficulty policy of [AI_findBestMove_impl], applied to the
    outcome of the scan: the move and the [bestVal] it leaves. *)
Definition select (self : AI) (rnd : Z) (st : Scan) : Move * Z :=
  if difficulty self =? 2 then (bestMove st, bestVal st)
  else if difficulty self =? 1 then
    let threshold := if bestVal st - 2 <? -10 then -10 else bestVal st - 2 in
    let pool := build_pool threshold (cand st) 0 in
    if Z.of_nat (length pool) >? 0 then
      let pick := pick_from pool rnd in
      (mkMove (r (cand_at (cand st) pick)) (c (cand_at (cand st) pick)),
       score (cand_at (cand st) pick))
    else (bestMove st, bestVal st)
  else
    let pool := all_pool (cand st) 0 in
    let pick := pick_from pool rnd in
    (mkMove (r (cand_at (cand st) pick)) (c (cand_at (cand st) pick)),
     score (cand_at (cand st) pick)).

(** [AI_findBestMove_impl]; [rnd] is what [rand()] returns if called. *)
Definition AI_findBestMove_impl (self : AI) (rnd : Z) : M Move :=
  reset_counters ;;;
  st <- scan_moves self ;;
  if Z.of_nat (length (cand st)) =? 0 then ret (bestMove st)
  else
    let '(mv, bv) := select self rnd st in
    (if verbose self >=? 1 then
       if bv >? 0 then printf (PrintWin bv)
       else if bv <? 0 then printf (PrintLoss bv)
       else printf PrintDraw
     else ret tt) ;;;
    ret mv.

(** [AI_init]: difficulty 2 (hard), verbosity 0. *)
Definition AI_init : AI := mkAI 2 0.

(** [AI_findBestMove]: the call through [ai->findBestMove], which
    [AI_init] sets to [AI_findBestMove_impl]. *)
Definition AI_findBestMove : AI -> Z -> M Move := AI_findBestMove_impl.

(** [AI_setVerbose] *)
Definition AI_setVerbose (ai : AI) (v : Z) : AI :=
  let v := if v <? 0 then 0 else v in
  let v := if v >? 2 then 2 else v in
  mkAI (difficulty ai) v.

(** [AI_setDifficulty] *)
Definition AI_setDifficulty (ai : AI) (level : Z) : AI :=
  let level := if level <? 0 then 0 else level in
  let level := if level >? 2 then 2 else level in
  mkAI level (verbose ai).

(** [AI_getPrediction] *)
Definition AI_getPrediction (ai : AI) : M Z :=
  bestVal <- for_each (fun bestVal '(i, j) =>
    c <- read_cell i j ;;
    if (c =? " ")%char then
      makeMove i j "O" ;;;
      mv <- AI_minimax 0 0 ;;
      makeMove i j " " ;;;
      ret (if mv >? bestVal then mv else bestVal)
    else ret bestVal) cells (- INT_MAX) ;;
  if bestVal >? 0 then ret (-1)
  else if bestVal <? 0 then ret 1
  else ret 0.

(** [typedef struct { int row; int col; int score; } AICandidate;] is
    [Candidate] again.  [AI_explain] returns [n]; of the caller's array
    [out] it writes the entries below [maxOut], returned here as a list.
    The loop carries the pair of [n] and of what has been written. *)
Definition AI_explain (ai : AI) (maxOut : Z) : M (Z * list Candidate) :=
  reset_counters ;;;
  for_each (fun no '(i, j) =>
    c <- read_cell i j ;;
    if (c =? " ")%char then
      makeMove i j "O" ;;;
      mv <- AI_minimax 0 0 ;;
      makeMove i j " " ;;;
      ret (fst no + 1,
           if fst no <? maxOut then snd no ++ [mkCand i j mv] else snd no)
    else ret no) cells (0, []).

(** [AI_getStats] *)
Definition AI_getStats (ai : AI) : M (Z * Z) :=
  fun m => Some ((g_nodesSearched m, g_maxDepthReached m), m).

(** [AI_resetStats] *)
Definition AI_resetStats (ai : AI) : M unit := reset_counters.

End AI.

(* ================================================================== *)
(** * main.c: the automated match                                      *)
(* ================================================================== *)

Module Main.
Import Game AI.

(** The game loop of [playAIVsAI], without its display and its pauses.
    Both engines point to the same [Game].  [turn] is 0 when the first
    engine moves (it places 'X') and 1 when the second one moves (it
    places 'O'); [rnd k] is what [rand()] returns in round [k].  The
    loop runs until [checkWin] reports 1, -1 or 0, which it returns;
    each round fills one cell, so ten rounds of fuel suffice from any
    board. *)
Fixpoint match_loop (fuel : nat) (ai1 ai2 : AI) (rnd : nat -> Z) (turn : Z)
  : M Z :=
  match fuel with
  | O => out_of_fuel
  | S fuel' =>
    state <- checkWin ;;
    if state =? 1 then ret 1
    else if state =? -1 then ret (-1)
    else if state =? 0 then ret 0
    else
      let currentAI := if turn =? 0 then ai1 else ai2 in
      m <- AI_findBestMove currentAI (rnd fuel') ;;
      makeMove (row m) (col m) (if turn =? 0 then "X" else "O") ;;;
      match_loop fuel' ai1 ai2 rnd (1 - turn)
  end.

(** [playAIVsAI]: a fresh board, two engines with the given difficulties
    and verbosity 2, the first engine to move. *)
Definition playAIVsAI (aiDifficulty1 aiDifficulty2 : Z) (rnd : nat -> Z) : M Z :=
  fun m =>
    let ai1 := AI_setVerbose (AI_setDifficulty AI_init aiDifficulty1) 2 in
    let ai2 := AI_setVerbose (AI_setDifficulty AI_init aiDifficulty2) 2 in
    match_loop 10 ai1 ai2 rnd 0
      (mkMem Game_init (g_nodesSearched m) (g_maxDepthReached m) (stdout m)
             (calls m)).

End Main.

Import Game AI Main.

(* ================================================================== *)
(** * Vocabulary of the statements                                     *)
(* ================================================================== *)

(** Everything below this point up to the first lemma is definition:
    the counting of blank cells, the value of the search as a function
    of the board, the classification of a board as the specification
    words it, and the boards used as worked examples. *)

(** Number of blank cells: one indicator per cell. *)
Definition ind (x : ascii) : nat := if (x =? " ")%char then 1%nat else 0%nat.

Definition blanks (b : Board) : nat :=
  (ind (b00 b) + ind (b01 b) + ind (b02 b) +
   ind (b10 b) + ind (b11 b) + ind (b12 b) +
   ind (b20 b) + ind (b21 b) + ind (b22 b))%nat.

(** [board[i][j] == ' '] *)
Definition blank (b : Board) (p : Z * Z) : bool :=
  (cell b (fst p) (snd p) =? " ")%char.

(** The legal moves of a board: its blank cells, in row-major order. *)
Definition legalMoves (b : Board) : list (Z * Z) := filter (blank b) cells.

(** [if (val > best) best = val;] and [if (val < best) best = val;] *)
Definition keep_max (val best : Z) : Z := if val >? best then val else best.
Definition keep_min (val best : Z) : Z := if val <? best then val else best.

(** The score [AI_evaluate] returns on a board. *)
Definition evaluate (b : Board) : Z :=
  let s := Game_checkWin b in
  if s =? -1 then 10
  else if s =? 1 then -10
  else 0.

(** The value [AI_minimax_fuel] computes, as a function of the board
    alone: same case analysis, the loops read as folds over [cells]. *)
Fixpoint minimax_val (fuel : nat) (depth isMax : Z) (b : Board) : Z :=
  match fuel with
  | O => 0
  | S fuel' =>
    let score := evaluate b in
    if score =? 10 then score - depth
    else if score =? -10 then score + depth
    else if Game_isMovesLeft b =? 0 then 0
    else if negb (isMax =? 0) then
      fold_left (fun best p =>
        if blank b p
        then keep_max (minimax_val fuel' (depth + 1) 0
                         (Game_makeMove b (fst p) (snd p) "O")) best
        else best) cells (- INT_MAX)
    else
      fold_left (fun best p =>
        if blank b p
        then keep_min (minimax_val fuel' (depth + 1) 1
                         (Game_makeMove b (fst p) (snd p) "X")) best
        else best) cells INT_MAX
  end.

(** Call histories (most recent call first) in which every placement
    of a symbol is answered, after a history of the same kind, by a blank
    written to the same cell, and in which nothing else occurs. *)
Inductive paired : list Call -> Prop :=
| paired_nil : paired []
| paired_undo i j sym inner before :
    sym <> " " -> paired inner -> paired before ->
    paired ((i, j, " ") :: inner ++ (i, j, sym) :: before).

(** A computation returns [a] from [m], leaves the board as it was, and
    the calls of [makeMove] it has made are paired. *)
Definition returns {A} (c : M A) (m : Mem) (a : A) : Prop :=
  exists m', c m = Some (a, m') /\ board m' = board m /\
             exists tr, calls m' = tr ++ calls m /\ paired tr.

(** The common shape of the engine's loops over the cells: on a blank
    cell, place [sym], run [visit], blank the cell again, then let [k]
    update the loop-carried variables. *)
Definition try_cell {S} (sym : ascii) (visit : M Z)
    (k : S -> Z -> Z -> Z -> M S) (s : S) (p : Z * Z) : M S :=
  let '(i, j) := p in
  c <- read_cell i j ;;
  if (c =? " ")%char then
    makeMove i j sym ;;;
    v <- visit ;;
    makeMove i j " " ;;;
    k s i j v
  else ret s.

(** The store after [Game_makeMove] through the method pointer. *)
Definition moved (m : Mem) (i j : Z) (s : ascii) : Mem :=
  mkMem (Game_makeMove (board m) i j s)
        (g_nodesSearched m) (g_maxDepthReached m) (stdout m)
        ((i, j, s) :: calls m).

(** The store after the instrumentation prologue of [AI_minimax]. *)
Definition counted (m : Mem) (depth : Z) : Mem :=
  mkMem (board m) (g_nodesSearched m + 1)
        (if depth >? g_maxDepthReached m then depth else g_maxDepthReached m)
        (stdout m) (calls m).

(** A score found at [depth] on a board with [k] blank cells is 0, a win
    met between [depth] and [depth + k], or a loss met there. *)
Definition in_range (depth k v : Z) : Prop :=
  v = 0 \/ 10 - depth - k <= v <= 10 - depth \/
  -10 + depth <= v <= -10 + depth + k.

Inductive TerminalResult : Type := WinX | WinO | Draw | Ongoing.

(** The return codes documented for [Game_checkWin]. *)
Definition code_of (t : TerminalResult) : Z :=
  match t with WinX => 1 | WinO => -1 | Draw => 0 | Ongoing => 2 end.

Definition Line : Type := (Z * Z) * (Z * Z) * (Z * Z).

(** The eight lines, in the order of the scan: rows, columns, the main
    diagonal, the anti-diagonal. *)
Definition lines : list Line :=
  [ ((0,0), (0,1), (0,2)); ((1,0), (1,1), (1,2)); ((2,0), (2,1), (2,2));
    ((0,0), (1,0), (2,0)); ((0,1), (1,1), (2,1)); ((0,2), (1,2), (2,2));
    ((0,0), (1,1), (2,2)); ((0,2), (1,1), (2,0)) ].

Definition at_pos (b : Board) (p : Z * Z) : ascii := cell b (fst p) (snd p).

(** The three cells of line [l] all hold [s]. *)
Definition line_of (b : Board) (l : Line) (s : ascii) : Prop :=
  let '(p, q, r) := l in at_pos b p = s /\ at_pos b q = s /\ at_pos b r = s.

(** Mark [s] has a completed line. *)
Definition has_line (b : Board) (s : ascii) : Prop :=
  exists l, In l lines /\ line_of b l s.

(** The mark on line [l] when its three cells are identical and not
    blank. *)
Definition full_line (b : Board) (l : Line) : option ascii :=
  let '(p, q, r) := l in
  if ((at_pos b p =? at_pos b q)%char && (at_pos b q =? at_pos b r)%char
      && negb (at_pos b p =? " ")%char)%bool
  then Some (at_pos b p) else None.

(** The mark of the first completed line of a list. *)
Fixpoint first_full (b : Board) (ls : list Line) : option ascii :=
  match ls with
  | [] => None
  | l :: ls' =>
      match full_line b l with
      | Some s => Some s
      | None => first_full b ls'
      end
  end.

(** Terminal classification as the specification words it: the first
    completed line decides the winner; without one, the board is a draw
    when no cell is blank and ongoing otherwise. *)
Definition terminalResult (b : Board) : TerminalResult :=
  match first_full b lines with
  | Some s => if (s =? "X")%char then WinX else WinO
  | None => match legalMoves b with [] => Draw | _ :: _ => Ongoing end
  end.

(** A witness: the middle column held by 'O', nothing else complete. *)
Definition column_board : Board :=
  mkBoard "X" "O" " "
          " " "O" "X"
          "X" "O" " ".

(** What the specification asks of [apply]: an error for coordinates
    outside [0,2], the write otherwise. *)
Inductive ApplyResult : Type :=
| OutOfRange
| Applied (b : Board).

Definition apply_spec (b : Board) (row col : Z) (s : ascii) : ApplyResult :=
  if ((0 <=? row) && (row <=? 2) && (0 <=? col) && (col <=? 2))%bool
  then Applied (Game_makeMove b row col s)
  else OutOfRange.

(** The engines a caller can hold: [AI_init], then any setter calls. *)
Inductive configured : AI -> Prop :=
| conf_init : configured AI_init
| conf_difficulty ai level :
    configured ai -> configured (AI_setDifficulty ai level)
| conf_verbose ai v :
    configured ai -> configured (AI_setVerbose ai v).

Definition win_in_one_board : Board :=
  mkBoard "O" "O" " "
          "X" " " " "
          "X" " " " ".

(** The score the top-level entries give a move: place 'O', call
    [AI_minimax(g, 0, 0)]. *)
Definition move_score (b : Board) (p : Z * Z) : option Z :=
  option_map fst
    ((makeMove (fst p) (snd p) "O" ;;; AI_minimax 0 0) (start b)).

Definition top_val (b : Board) (p : Z * Z) : Z :=
  minimax_val 10 0 0 (Game_makeMove b (fst p) (snd p) "O").

(** One round of the scan of [AI_findBestMove_impl] on a blank cell. *)
Definition scan_step (st : Scan) (p : Z * Z) (v : Z) : Scan :=
  mkScan (if v >? bestVal st then v else bestVal st)
         (if v >? bestVal st then mkMove (fst p) (snd p) else bestMove st)
         (cand st ++ [mkCand (fst p) (snd p) v]).

Definition scan0 : Scan := mkScan (- INT_MAX) (mkMove (-1) (-1)) [].

(** The rounds of the scan over a list of moves scored by [f]. *)
Definition scan_fold (f : Z * Z -> Z) (l : list (Z * Z)) (st : Scan) : Scan :=
  fold_left (fun st p => scan_step st p (f p)) l st.

(** The outcome of the scan, as a function of the board. *)
Definition scan_val (b : Board) : Scan :=
  scan_fold (top_val b) (legalMoves b) scan0.

(** What [AI_findBestMove_impl] returns after the scan. *)
Definition chosen (self : AI) (rnd : Z) (st : Scan) : Move :=
  if Z.of_nat (length (cand st)) =? 0 then bestMove st
  else fst (select self rnd st).

(** [if (bestVal > 0) return -1; if (bestVal < 0) return 1; return 0;] *)
Definition verdict (bestVal : Z) : Z :=
  if bestVal >? 0 then -1 else if bestVal <? 0 then 1 else 0.

(** The running maximum [AI_getPrediction] ends its scan with. *)
Definition pred_val (b : Board) : Z :=
  fold_left (fun best p => if blank b p then keep_max (top_val b p) best
                           else best) cells (- INT_MAX).

(** The pair [AI_explain] ends its scan with. *)
Definition explain_val (maxOut : Z) (b : Board) : Z * list Candidate :=
  fold_left (fun no p =>
      if blank b p
      then (fst no + 1,
            if fst no <? maxOut
            then snd no ++ [mkCand (fst p) (snd p) (top_val b p)]
            else snd no)
      else no) cells (0, []).

(** An ongoing board with one blank cell, (2,2). *)
Definition last_cell_board : Board :=
  mkBoard "X" "O" "X"
          "X" "O" "O"
          "O" "X" " ".

(** The course of [match_loop] between two engines of difficulty 2, as a
    function of the board: the result and the final board. *)
Fixpoint match_val (fuel : nat) (turn : Z) (b : Board) : option (Z * Board) :=
  match fuel with
  | O => None
  | S fuel' =>
    let state := Game_checkWin b in
    if state =? 1 then Some (1, b)
    else if state =? -1 then Some (-1, b)
    else if state =? 0 then Some (0, b)
    else
      let m := bestMove (scan_val b) in
      match_val fuel' (1 - turn)
        (Game_makeMove b (row m) (col m) (if turn =? 0 then "X" else "O"))
  end.


(** A full board without a line. *)
Definition full_board : Board :=
  mkBoard "X" "O" "X"
          "X" "O" "O"
          "O" "X" "X".

(* ================================================================== *)
(** * utils.h, ui.h: the records the matches fill                      *)
(* ================================================================== *)

Module Utils.

(** [MAX_USERNAME] *)
Definition MAX_USERNAME : nat := 50.

(** [GameStats]; the two names are C strings, kept without their
    terminator. *)
Record GameStats : Type := mkGameStats {
  player1 : String.string;
  player2 : String.string;
  totalMoves : Z;
  player1Moves : Z;
  player2Moves : Z;
  aiNodesExplored : Z;
  maxDepth : Z;
  winner : ascii
}.

(** [strncpy(dst, src, MAX_USERNAME - 1); dst[MAX_USERNAME - 1] = 0]: the
    first 49 chars of the source. *)
Definition copy_name (src : String.string) : String.string :=
  String.substring 0 (MAX_USERNAME - 1) src.

(** [getAIName] *)
Definition getAIName (difficulty : Z) : String.string :=
  match difficulty with
  | 0 => "Kitty"
  | 1 => "Cop"
  | 2 => "Sera"
  | _ => "Unknown"
  end%string.

End Utils.

Module UI.

(** [UIGameState], its numbers: the character buffers of the struct
    ([aiName], [username], [aiThought], [lastAIComment],
    [statusMessage]) hold text for the screen only and are left out, as is
    what the drawing functions print.  [candidates] is the array of nine
    entries. *)
Record UIGameState : Type := mkUI {
  aiDifficulty : Z;
  candidates : list Candidate;
  candidateCount : Z;
  aiNodesExplored : Z;
  aiMaxDepth : Z
}.

(** [for (i = 0; i < candN; i++) candidates[i] = cand[i];] where [cand]
    holds the entries [AI_explain] wrote. *)
Definition copy_candidates (candN : Z) (cand old : list Candidate)
  : list Candidate :=
  firstn (Z.to_nat candN) cand ++ skipn (Z.to_nat candN) old.

End UI.

(* ================================================================== *)
(** * main.c: the matches with players at the keyboard                 *)
(* ================================================================== *)

Module Play.
Import Game AI.

(** The local variables of [playGame] and [playPlayerVsPlayer]. *)
Record Locals : Type := mkLocals {
  matchStats : Utils.GameStats;
  uiState : UI.UIGameState;
  turn : Z;
  nodes : Z;
  maxDepth : Z
}.

(** What one call of [UI_getPlayerInput] yields when it returns: [None]
    when [scanf] does not read two integers, the two integers otherwise.
    The list holds the answers of the calls that return.  After them
    [UI_getPlayerInput] does not return any more: it waits for a line, and
    at the end of the input it runs for ever in
    [while (getchar() != '\n')], since [getchar] then yields [EOF] every
    time.  The match does not return either; the loops below say so with
    the result [None]. *)
Definition Inputs : Type := list (option (Z * Z)).

(** The analysis at the head of the loop of [playGame]. *)
Definition analysed (l : Locals) (candN : Z) (cand : list Candidate)
    (n d : Z) : Locals :=
  mkLocals (matchStats l)
    (UI.mkUI (UI.aiDifficulty (uiState l))
             (UI.copy_candidates candN cand (UI.candidates (uiState l)))
             candN n d)
    (turn l) n d.

(** Its [else] branch: the first turn. *)
Definition not_analysed (l : Locals) : Locals :=
  mkLocals (matchStats l)
    (UI.mkUI (UI.aiDifficulty (uiState l)) (UI.candidates (uiState l)) 0 0 0)
    (turn l) (nodes l) (maxDepth l).

(** [matchStats.winner = w;] *)
Definition with_winner (l : Locals) (w : ascii) : Locals :=
  let s := matchStats l in
  mkLocals
    (Utils.mkGameStats (Utils.player1 s) (Utils.player2 s)
       (Utils.totalMoves s) (Utils.player1Moves s) (Utils.player2Moves s)
       (Utils.aiNodesExplored s) (Utils.maxDepth s) w)
    (uiState l) (turn l) (nodes l) (maxDepth l).

(** [matchStats.player1Moves++; matchStats.totalMoves++; turn = t;] *)
Definition player1_moved (l : Locals) (t : Z) : Locals :=
  let s := matchStats l in
  mkLocals
    (Utils.mkGameStats (Utils.player1 s) (Utils.player2 s)
       (Utils.totalMoves s + 1) (Utils.player1Moves s + 1)
       (Utils.player2Moves s)
       (Utils.aiNodesExplored s) (Utils.maxDepth s) (Utils.winner s))
    (uiState l) t (nodes l) (maxDepth l).

(** [matchStats.player2Moves++; matchStats.totalMoves++; turn = t;] *)
Definition player2_moved (l : Locals) (t : Z) : Locals :=
  let s := matchStats l in
  mkLocals
    (Utils.mkGameStats (Utils.player1 s) (Utils.player2 s)
       (Utils.totalMoves s + 1) (Utils.player1Moves s)
       (Utils.player2Moves s + 1)
       (Utils.aiNodesExplored s) (Utils.maxDepth s) (Utils.winner s))
    (uiState l) t (nodes l) (maxDepth l).

(** The end of the engine's turn in [playGame]: the move is counted, the
    statistics of the search are copied, the turn goes to the player. *)
Definition ai_moved (l : Locals) (n d : Z) : Locals :=
  let s := matchStats l in
  mkLocals
    (Utils.mkGameStats (Utils.player1 s) (Utils.player2 s)
       (Utils.totalMoves s + 1) (Utils.player1Moves s)
       (Utils.player2Moves s + 1) n d (Utils.winner s))
    (uiState l) 0 n d.

(** [r < 0 || r > 2 || c < 0 || c > 2] *)
Definition off_board (r c : Z) : bool :=
  (r <? 0) || (r >? 2) || (c <? 0) || (c >? 2).

(** The loop of [playGame], without the screen and the pauses.  The
    result is [None] when the player's answers run out before the match
    ends: [playGame] then does not return, the call of
    [UI_getPlayerInput] it is in does not.  The engine's [k]-th move uses
    [rnd k] for [rand()]. *)
Fixpoint playGame_loop (fuel : nat) (ai : AI) (rnd : nat -> Z)
    (inputs : Inputs) (l : Locals) : M (option Locals) :=
  match fuel with
  | O => out_of_fuel
  | S fuel' =>
    l <- (if Utils.totalMoves (matchStats l) >? 0 then
            res <- AI_explain ai 9 ;;
            st <- AI_getStats ai ;;
            ret (analysed l (fst res) (snd res) (fst st) (snd st))
          else ret (not_analysed l)) ;;
    state <- checkWin ;;
    if state =? 1 then ret (Some (with_winner l "X"))
    else if state =? -1 then ret (Some (with_winner l "O"))
    else if state =? 0 then ret (Some (with_winner l "D"))
    else if turn l =? 0 then
      match inputs with
      | [] => ret None
      | None :: inputs' => playGame_loop fuel' ai rnd inputs' l
      | Some (r, c) :: inputs' =>
          if off_board r c then playGame_loop fuel' ai rnd inputs' l
          else
            x <- read_cell r c ;;
            if negb (x =? " ")%char then playGame_loop fuel' ai rnd inputs' l
            else
              makeMove r c "X" ;;;
              playGame_loop fuel' ai rnd inputs' (player1_moved l 1)
      end
    else
      m <- AI_findBestMove ai
             (rnd (Z.to_nat (Utils.player2Moves (matchStats l)))) ;;
      makeMove (row m) (col m) "O" ;;;
      st <- AI_getStats ai ;;
      playGame_loop fuel' ai rnd inputs (ai_moved l (fst st) (snd st))
  end.

(** The statistics a match starts with. *)
Definition fresh_stats (p1 p2 : String.string) : Utils.GameStats :=
  Utils.mkGameStats (Utils.copy_name p1) (Utils.copy_name p2) 0 0 0 0 0 "D".

(** The array [uiState.candidates] is not initialised; [garbage] stands
    for what it holds. *)
Definition fresh_ui (aiDifficulty : Z) (garbage : list Candidate)
  : UI.UIGameState :=
  UI.mkUI aiDifficulty garbage 0 0 0.

(** [playGame], up to the end of its loop: the statistics of the match,
    which the function then hands to [saveGameStats] and
    [updateLeaderboard].  Every round of the loop consumes an answer,
    fills a cell or ends the match, hence the fuel. *)
Definition playGame (playerStarts aiVerbose aiDifficulty : Z)
    (username : String.string) (garbage : list Candidate)
    (rnd : nat -> Z) (inputs : Inputs) : M (option Utils.GameStats) :=
  fun m =>
    let ai := AI_setVerbose (AI_setDifficulty AI_init aiDifficulty) aiVerbose in
    let l := mkLocals
               (fresh_stats username (Utils.getAIName aiDifficulty))
               (fresh_ui aiDifficulty garbage)
               (if playerStarts =? 0 then 1 else 0) 0 0 in
    (r <- playGame_loop (length inputs + 11) ai rnd inputs l ;;
     ret (option_map matchStats r))
      (mkMem Game_init (g_nodesSearched m) (g_maxDepthReached m) (stdout m)
             (calls m)).

(** The loop of [playPlayerVsPlayer]: both sides at the keyboard, the
    engine analysing only. *)
Fixpoint playPlayerVsPlayer_loop (fuel : nat) (ai : AI) (inputs : Inputs)
    (l : Locals) : M (option Locals) :=
  match fuel with
  | O => out_of_fuel
  | S fuel' =>
    l <- (if Utils.totalMoves (matchStats l) >? 0 then
            res <- AI_explain ai 9 ;;
            st <- AI_getStats ai ;;
            ret (analysed l (fst res) (snd res) (fst st) (snd st))
          else ret l) ;;
    state <- checkWin ;;
    if state =? 1 then ret (Some (with_winner l "X"))
    else if state =? -1 then ret (Some (with_winner l "O"))
    else if state =? 0 then ret (Some (with_winner l "D"))
    else
      match inputs with
      | [] => ret None
      | None :: inputs' => playPlayerVsPlayer_loop fuel' ai inputs' l
      | Some (r, c) :: inputs' =>
          if off_board r c then playPlayerVsPlayer_loop fuel' ai inputs' l
          else
            x <- read_cell r c ;;
            if negb (x =? " ")%char
            then playPlayerVsPlayer_loop fuel' ai inputs' l
            else
              makeMove r c (if turn l =? 0 then "X" else "O") ;;;
              playPlayerVsPlayer_loop fuel' ai inputs'
                (if turn l =? 0 then player1_moved l (1 - turn l)
                 else player2_moved l (1 - turn l))
      end
  end.

(** [playPlayerVsPlayer], up to the end of its loop. *)
Definition playPlayerVsPlayer (player1 player2 : String.string)
    (aiDifficulty : Z) (garbage : list Candidate) (inputs : Inputs)
  : M (option Utils.GameStats) :=
  fun m =>
    let ai := AI_setVerbose (AI_setDifficulty AI_init aiDifficulty) 2 in
    let l := mkLocals (fresh_stats player1 player2)
                      (fresh_ui aiDifficulty garbage) 0 0 0 in
    (r <- playPlayerVsPlayer_loop (length inputs + 1) ai inputs l ;;
     ret (option_map matchStats r))
      (mkMem Game_init (g_nodesSearched m) (g_maxDepthReached m) (stdout m)
             (calls m)).

End Play.

(** Number of cells that hold the symbol [s]. *)
Definition is_mark (s x : ascii) : Z := if (x =? s)%char then 1 else 0.

Definition marks (s : ascii) (b : Board) : Z :=
  is_mark s (b00 b) + is_mark s (b01 b) + is_mark s (b02 b) +
  is_mark s (b10 b) + is_mark s (b11 b) + is_mark s (b12 b) +
  is_mark s (b20 b) + is_mark s (b21 b) + is_mark s (b22 b).

(** What the statistics of a match say about its board: [t0] is the
    side that moved first (0 for 'X'), [n1] and [n2] the recorded names. *)
Definition stats_inv (t0 : Z) (n1 n2 : String.string) (b : Board)
    (l : Play.Locals) : Prop :=
  let s := Play.matchStats l in
  Utils.player1 s = n1 /\ Utils.player2 s = n2 /\
  marks "X" b = Utils.player1Moves s /\
  marks "O" b = Utils.player2Moves s /\
  Utils.totalMoves s = Utils.player1Moves s + Utils.player2Moves s /\
  Z.of_nat (blanks b) + Utils.totalMoves s = 9 /\
  Utils.player1Moves s - Utils.player2Moves s = Play.turn l - t0 /\
  (Play.turn l = 0 \/ Play.turn l = 1).

(** The winner recorded for a classification of the final board. *)
Definition winner_of_code (code : Z) : ascii :=
  if code =? 1 then "X" else if code =? -1 then "O" else "D".

(** Whether the engine of difficulty 2 avoids defeat from a position
    whatever cells the player of 'X' chooses: every legal answer of the
    player is tried, the engine answers with its best move. *)
Fixpoint safe (fuel : nat) (turn : Z) (b : Board) : bool :=
  match fuel with
  | O => false
  | S fuel' =>
    let state := Game_checkWin b in
    if state =? 1 then false
    else if state =? -1 then true
    else if state =? 0 then true
    else if turn =? 0 then
      forallb (fun p => safe fuel' 1 (Game_makeMove b (fst p) (snd p) "X"))
              (legalMoves b)
    else
      let m := bestMove (scan_val b) in
      safe fuel' 0 (Game_makeMove b (row m) (col m) "O")
  end.

(** A match of nine accepted moves, with answers that are refused on the
    way: one that is not two integers, one off the board, one on an
    occupied cell. *)
Definition sample_inputs : Play.Inputs :=
  [ Some (0, 0); Some (0, 1); Some (2, 0); None; Some (5, 5); Some (0, 0);
    Some (1, 2); Some (2, 1); Some (2, 2) ].

Definition sample_stats : Utils.GameStats :=
  Utils.mkGameStats "ann" "Sera" 9 5 4 4 1 "D".

Definition sample_board : Board :=
  mkBoard "X" "X" "O"
          "O" "O" "X"
          "X" "O" "X".

(** The same for two players: 'X' on the centre first. *)
Definition sample_inputs2 : Play.Inputs :=
  [ Some (1, 1); Some (0, 1); Some (0, 0); Some (2, 2); Some (0, 2);
    Some (2, 0); None; Some (1, 3); Some (1, 1); Some (1, 0); Some (1, 2);
    Some (2, 1) ].

Definition sample_stats2 : Utils.GameStats :=
  Utils.mkGameStats "ann" "bob" 9 5 4 0 0 "D".

Definition sample_board2 : Board :=
  mkBoard "X" "O" "X"
          "X" "X" "O"
          "O" "X" "O".

(** The number of nodes [AI_minimax_fuel] visits on a board, and the
    deepest level it reaches, as functions of the board: the node itself,
    then the nodes under every blank cell unless the board is won or
    full. *)
Fixpoint nodes_val (fuel : nat) (isMax : Z) (b : Board) : Z :=
  match fuel with
  | O => 0
  | S fuel' =>
    if evaluate b =? 10 then 1
    else if evaluate b =? -10 then 1
    else if Game_isMovesLeft b =? 0 then 1
    else if negb (isMax =? 0) then
      fold_left (fun acc p =>
        if blank b p
        then acc + nodes_val fuel' 0 (Game_makeMove b (fst p) (snd p) "O")
        else acc) cells 1
    else
      fold_left (fun acc p =>
        if blank b p
        then acc + nodes_val fuel' 1 (Game_makeMove b (fst p) (snd p) "X")
        else acc) cells 1
  end.

Fixpoint deep_val (fuel : nat) (depth isMax : Z) (b : Board) : Z :=
  match fuel with
  | O => depth
  | S fuel' =>
    if evaluate b =? 10 then depth
    else if evaluate b =? -10 then depth
    else if Game_isMovesLeft b =? 0 then depth
    else if negb (isMax =? 0) then
      fold_left (fun acc p =>
        if blank b p
        then Z.max acc (deep_val fuel' (depth + 1) 0
                          (Game_makeMove b (fst p) (snd p) "O"))
        else acc) cells depth
    else
      fold_left (fun acc p =>
        if blank b p
        then Z.max acc (deep_val fuel' (depth + 1) 1
                          (Game_makeMove b (fst p) (snd p) "X"))
        else acc) cells depth
  end.

(** The same for the scan of the top-level entries, which starts a
    search at depth 0 under every blank cell. *)
Definition search_nodes (b : Board) : Z :=
  fold_left (fun acc p =>
    if blank b p
    then acc + nodes_val 10 0 (Game_makeMove b (fst p) (snd p) "O")
    else acc) cells 0.

Definition search_depth (b : Board) : Z :=
  fold_left (fun acc p =>
    if blank b p
    then Z.max acc (deep_val 10 0 0 (Game_makeMove b (fst p) (snd p) "O"))
    else acc) cells 0.

(** A computation returns [a] from [m], leaves the board as it was, adds
    [n] to the node counter and raises the depth counter to [d] if it was
    below. *)
Definition counts {A} (c : M A) (m : Mem) (a : A) (n d : Z) : Prop :=
  exists m', c m = Some (a, m') /\ board m' = board m /\
             g_nodesSearched m' = g_nodesSearched m + n /\
             g_maxDepthReached m' = Z.max (g_maxDepthReached m) d.

(* ================================================================== *)
(** * utils.c: the leaderboard file                                    *)
(* ================================================================== *)

(** The leaderboard is a text file.  Its content is a string, [fscanf]
    and [fprintf] are modelled on its characters, with the formats the
    source gives them; [None] for the file says that [fopen] for reading
    returns [NULL].  A function returns [None] where the C code has no
    defined behaviour: [fscanf] meets a number outside [int], or an
    [int] at [INT_MAX] is incremented. *)
Module Leaderboard.

(** [PlayerRecord]; [username] is a C string, kept without its
    terminator. *)
Record PlayerRecord : Type := mkRecord {
  username : string;
  wins : Z;
  losses : Z;
  draws : Z;
  totalGames : Z
}.

Definition INT_MIN : Z := -2147483648.

(** [isspace] and [isdigit] of the C locale. *)
Definition isspace (c : ascii) : bool :=
  let n := N_of_ascii c in ((n =? 32) || ((9 <=? n) && (n <=? 13)))%N.

Definition isdigit (c : ascii) : bool :=
  let n := N_of_ascii c in ((48 <=? n) && (n <=? 57))%N.

(** The white space a conversion of [fscanf] skips first. *)
Fixpoint skip_ws (s : string) : string :=
  match s with
  | String c s' => if isspace c then skip_ws s' else s
  | EmptyString => s
  end.

(** [%49s] after the white space: at most [w] characters, up to the next
    white space. *)
Fixpoint scan_word (w : nat) (s : string) : string * string :=
  match w, s with
  | S w', String c s' =>
      if isspace c then (EmptyString, s)
      else let (a, rest) := scan_word w' s' in (String c a, rest)
  | _, _ => (EmptyString, s)
  end.

(** What a buffer holds as a C string: the characters before the first
    zero. *)
Fixpoint c_str (s : string) : string :=
  match s with
  | String c s' => if (c =? zero)%char then EmptyString
                   else String c (c_str s')
  | EmptyString => EmptyString
  end.

(** The digits of a [%d]. *)
Fixpoint scan_digits (s : string) (acc : Z) : Z * string :=
  match s with
  | String c s' =>
      if isdigit c
      then scan_digits s' (10 * acc + (Z.of_N (N_of_ascii c) - 48))
      else (acc, s)
  | EmptyString => (acc, s)
  end.

(** The outcome of a conversion: a value and the rest of the file, a
    failure, which ends the [fscanf] with fewer than five fields, or no
    defined behaviour. *)
Inductive Scanned (A : Type) : Type :=
| Got (a : A) (rest : string)
| Stop
| Undefined.
Arguments Got {A} a rest.
Arguments Stop {A}.
Arguments Undefined {A}.

(** [%d]: white space, a sign, digits; the value has to fit an [int]. *)
Definition scan_int (s : string) : Scanned Z :=
  let s := skip_ws s in
  let '(neg, s) := match s with
                   | String "-" s' => (true, s')
                   | String "+" s' => (false, s')
                   | _ => (false, s)
                   end in
  match s with
  | String c _ =>
      if isdigit c then
        let (v, rest) := scan_digits s 0 in
        let v := if neg : bool then - v else v in
        if (INT_MIN <=? v) && (v <=? INT_MAX) then Got v rest else Undefined
      else Stop
  | EmptyString => Stop
  end.

Definition then_scan {A B} (x : Scanned A) (f : A -> string -> Scanned B)
  : Scanned B :=
  match x with
  | Got a rest => f a rest
  | Stop => Stop
  | Undefined => Undefined
  end.

(** [fscanf(file, "%49s %d %d %d %d", ...) == 5], and the record it
    fills. *)
Definition scan_record (s : string) : Scanned PlayerRecord :=
  let (name, s) := scan_word (Utils.MAX_USERNAME - 1) (skip_ws s) in
  match name with
  | EmptyString => Stop
  | _ =>
      then_scan (scan_int s) (fun w s =>
      then_scan (scan_int s) (fun l s =>
      then_scan (scan_int s) (fun d s =>
      then_scan (scan_int s) (fun t s =>
      Got (mkRecord (c_str name) w l d t) s))))
  end.

(** [%d] of [fprintf], for an [int]. *)
Definition digit_char (d : Z) : ascii := ascii_of_N (Z.to_N (48 + d)).

Fixpoint digits (fuel : nat) (n : Z) (acc : string) : string :=
  match fuel with
  | O => acc
  | S fuel' =>
      let acc := String (digit_char (n mod 10)) acc in
      if n <? 10 then acc else digits fuel' (n / 10) acc
  end.

Definition print_int (v : Z) : string :=
  if v <? 0 then String "-" (digits 10 (- v) EmptyString)
  else digits 10 v EmptyString.

(** [fprintf(file, "%s %d %d %d %d\n", ...)] *)
Definition print_record (r : PlayerRecord) : string :=
  (username r ++ " " ++ print_int (wins r) ++ " " ++ print_int (losses r)
   ++ " " ++ print_int (draws r) ++ " " ++ print_int (totalGames r)
   ++ String "010" EmptyString)%string.

(** [for (i = 0; i < count; i++) fprintf(...)] *)
Fixpoint print_records (records : list PlayerRecord) : string :=
  match records with
  | [] => EmptyString
  | r :: records' => (print_record r ++ print_records records')%string
  end.

(** The reading loop of [savePlayerRecord]; [slots] is [100 - count]. *)
Fixpoint read_for_save (slots : nat) (record : PlayerRecord) (s : string)
    (records : list PlayerRecord) (found : bool)
  : option (list PlayerRecord * bool) :=
  match slots with
  | O => Some (records, found)
  | S slots' =>
      match scan_record s with
      | Got r rest =>
          if (username r =? username record)%string
          then read_for_save slots' record rest (records ++ [record]) true
          else read_for_save slots' record rest (records ++ [r]) found
      | Stop => Some (records, found)
      | Undefined => None
      end
  end.

(** What [savePlayerRecord] does to the file: it writes it anew, or
    prints that it could not. *)
Inductive Saved : Type :=
| Written (content : string)
| CouldNotSave.

(** [savePlayerRecord]; [can_write] says whether [fopen] for writing
    succeeds. *)
Definition savePlayerRecord (record : PlayerRecord) (can_write : bool)
    (file : option string) : option Saved :=
  match match file with
        | Some s => read_for_save 100 record s [] false
        | None => Some ([], false)
        end with
  | None => None
  | Some (records, found) =>
      let records :=
        if negb found && (length records <? 100)%nat
        then records ++ [record] else records in
      if can_write then Some (Written (print_records records))
      else Some CouldNotSave
  end.

(** The file after a save. *)
Definition file_after (file : option string) (res : Saved) : option string :=
  match res with
  | Written content => Some content
  | CouldNotSave => file
  end.

(** The record of a new player. *)
Definition new_player (name : string) : PlayerRecord :=
  mkRecord (Utils.copy_name name) 0 0 0 0.

(** The search loop of [loadPlayerRecord]; every record read takes at
    least one character, [fuel] bounds the records. *)
Fixpoint search_file (fuel : nat) (name : string) (s : string)
  : option (option PlayerRecord) :=
  match fuel with
  | O => None
  | S fuel' =>
      match scan_record s with
      | Got temp rest =>
          if (username temp =? name)%string then Some (Some temp)
          else search_file fuel' name rest
      | Stop => Some None
      | Undefined => None
      end
  end.

(** [loadPlayerRecord]: the value returned and the record filled. *)
Definition loadPlayerRecord (name : string) (file : option string)
  : option (Z * PlayerRecord) :=
  match file with
  | None => Some (0, new_player name)
  | Some s =>
      match search_file (S (String.length s)) name s with
      | Some (Some temp) => Some (1, temp)
      | Some None => Some (0, new_player name)
      | None => None
      end
  end.

(** [x++] on an [int]. *)
Definition incr (x : Z) : option Z :=
  if x <? INT_MAX then Some (x + 1) else None.

(** [updateLeaderboard] *)
Definition updateLeaderboard (name : string) (winner : ascii)
    (can_write : bool) (file : option string) : option Saved :=
  match loadPlayerRecord name file with
  | None => None
  | Some (_, record) =>
      match incr (totalGames record) with
      | None => None
      | Some t =>
          let record := mkRecord (username record) (wins record)
                          (losses record) (draws record) t in
          match
            if (winner =? "X")%char then
              option_map (fun w => mkRecord (username record) w
                            (losses record) (draws record)
                            (totalGames record)) (incr (wins record))
            else if (winner =? "O")%char then
              option_map (fun l => mkRecord (username record) (wins record)
                            l (draws record) (totalGames record))
                         (incr (losses record))
            else
              option_map (fun d => mkRecord (username record) (wins record)
                            (losses record) d (totalGames record))
                         (incr (draws record))
          with
          | None => None
          | Some record => savePlayerRecord record can_write file
          end
      end
  end.

(** The reading loop of [displayLeaderboard]. *)
Fixpoint read_records (slots : nat) (s : string)
    (records : list PlayerRecord) : option (list PlayerRecord) :=
  match slots with
  | O => Some records
  | S slots' =>
      match scan_record s with
      | Got r rest => read_records slots' rest (records ++ [r])
      | Stop => Some records
      | Undefined => None
      end
  end.

(** [records[j] = x] *)
Fixpoint store {A} (j : nat) (x : A) (records : list A) : list A :=
  match records, j with
  | [], _ => []
  | _ :: records', O => x :: records'
  | y :: records', S j' => y :: store j' x records'
  end.

(** The body of the inner loop of the sort: the swap of [records[j]] and
    [records[j + 1]] when the second has more wins. *)
Definition swap_if (records : list PlayerRecord) (j : nat)
  : list PlayerRecord :=
  match nth_error records j, nth_error records (S j) with
  | Some x, Some y =>
      if wins x <? wins y then store (S j) x (store j y records)
      else records
  | _, _ => records
  end.

(** The two loops of the sort, [i] from 0 below [count - 1] and [j] from
    0 below [count - i - 1]. *)
Definition bubble_sort (records : list PlayerRecord) : list PlayerRecord :=
  let count := length records in
  fold_left (fun records i =>
               fold_left swap_if (seq 0 (count - i - 1)) records)
            (seq 0 (count - 1)) records.

(** What [displayLeaderboard] shows: no table, or the rows of the table
    from the top; the win rate it prints beside each row is left out. *)
Inductive Shown : Type :=
| NoGames
| Table (rows : list PlayerRecord).

(** [displayLeaderboard] *)
Definition displayLeaderboard (file : option string) : option Shown :=
  match file with
  | None => Some NoGames
  | Some s =>
      match read_records 100 s [] with
      | Some records => Some (Table (bubble_sort records))
      | None => None
      end
  end.

(** Names and numbers that survive a write and a read: a name is a word
    of at most 49 characters without white space, a number fits an
    [int]. *)
Fixpoint no_space (s : string) : bool :=
  match s with
  | String c s' => negb (isspace c) && negb (c =? zero)%char && no_space s'
  | EmptyString => true
  end.

Definition is_word (s : string) : bool :=
  negb (s =? EmptyString)%string
  && (String.length s <=? Utils.MAX_USERNAME - 1)%nat && no_space s.

Definition is_int (v : Z) : bool := (INT_MIN <=? v) && (v <=? INT_MAX).

Definition well_formed (r : PlayerRecord) : bool :=
  is_word (username r) && is_int (wins r) && is_int (losses r)
  && is_int (draws r) && is_int (totalGames r).

(** A name with white space in it. *)
Fixpoint has_space (s : string) : bool :=
  match s with
  | String c s' => isspace c || has_space s'
  | EmptyString => false
  end.

(** The file holds the records [rs], as [savePlayerRecord] writes them;
    no file, no records. *)
Definition holds (file : option string) (rs : list PlayerRecord) : Prop :=
  match file with
  | Some s => s = print_records rs
  | None => rs = []
  end.

(** The first record of a name. *)
Definition lookup (name : string) (rs : list PlayerRecord)
  : option PlayerRecord :=
  find (fun r => (username r =? name)%string) rs.

(** What [savePlayerRecord] leaves of the records read. *)
Definition put (record : PlayerRecord) (rs : list PlayerRecord)
  : list PlayerRecord :=
  let read := firstn 100 rs in
  let records :=
    map (fun r => if (username r =? username record)%string
                  then record else r) read in
  if negb (existsb (fun r => (username r =? username record)%string) read)
     && (length read <? 100)%nat
  then records ++ [record] else records.

(** The record after one more game. *)
Definition played (winner : ascii) (r : PlayerRecord) : PlayerRecord :=
  mkRecord (username r)
    (if (winner =? "X")%char then wins r + 1 else wins r)
    (if (winner =? "X")%char then losses r
     else if (winner =? "O")%char then losses r + 1 else losses r)
    (if (winner =? "X")%char then draws r
     else if (winner =? "O")%char then draws r else draws r + 1)
    (totalGames r + 1).

(** The games of a record add up. *)
Definition balanced (r : PlayerRecord) : Prop :=
  0 <= wins r /\ 0 <= losses r /\ 0 <= draws r /\
  wins r + losses r + draws r = totalGames r.

(** The inner loop of the sort with [n] comparisons, as a recursion on
    the records from the first one compared. *)
Fixpoint bubble (n : nat) (records : list PlayerRecord) : list PlayerRecord :=
  match n, records with
  | S n', x :: y :: records' =>
      if wins x <? wins y then y :: bubble n' (x :: records')
      else x :: bubble n' (y :: records')
  | _, _ => records
  end.

(** Records for the examples. *)
Definition ann : PlayerRecord := mkRecord "ann" 3 1 0 4.
Definition bob : PlayerRecord := mkRecord "bob" 1 2 2 5.
Definition eve : PlayerRecord := mkRecord "eve" 7 0 0 7.
Definition sample_full : list PlayerRecord := repeat bob 100 ++ [eve].

End Leaderboard.

(* ================================================================== *)
(** * Board facts                                                      *)
(* ================================================================== *)

Lemma in_cells_cases (P : Z -> Z -> Prop) :
  P 0 0 -> P 0 1 -> P 0 2 -> P 1 0 -> P 1 1 -> P 1 2 ->
  P 2 0 -> P 2 1 -> P 2 2 ->
  forall i j, In (i, j) cells -> P i j.
Proof.
  intros ? ? ? ? ? ? ? ? ? i j H.
  unfold cells in H; simpl in H.
  repeat (destruct H as [H | H]; [inversion H; subst; assumption | ]).
  contradiction.
Qed.

Lemma in_cells_range i j : In (i, j) cells <-> 0 <= i <= 2 /\ 0 <= j <= 2.
Proof.
  split.
  - revert i j.
    apply (in_cells_cases (fun i j => 0 <= i <= 2 /\ 0 <= j <= 2)); lia.
  - intros [Hi Hj].
    assert (i = 0 \/ i = 1 \/ i = 2) as Ci by lia.
    assert (j = 0 \/ j = 1 \/ j = 2) as Cj by lia.
    destruct Ci as [-> | [-> | ->]], Cj as [-> | [-> | ->]];
      unfold cells; simpl; tauto.
Qed.

Lemma undo_move b s i j :
  In (i, j) cells -> cell b i j = " " ->
  Game_makeMove (Game_makeMove b i j s) i j " " = b.
Proof.
  intros Hin. revert i j Hin.
  apply (in_cells_cases (fun i j =>
    cell b i j = " " -> Game_makeMove (Game_makeMove b i j s) i j " " = b));
    destruct b; unfold Game_makeMove, cell; simpl; intros ->; reflexivity.
Qed.

Lemma ind_mark s : s <> " " -> ind s = 0%nat.
Proof.
  intros H. unfold ind. destruct (Ascii.eqb_spec s " "); congruence.
Qed.

Lemma blanks_move b s i j :
  In (i, j) cells -> cell b i j = " " -> s <> " " ->
  S (blanks (Game_makeMove b i j s)) = blanks b.
Proof.
  intros Hin Hc Hs. apply ind_mark in Hs. revert i j Hin Hc.
  apply (in_cells_cases (fun i j =>
    cell b i j = " " -> S (blanks (Game_makeMove b i j s)) = blanks b));
    destruct b; unfold Game_makeMove, cell, blanks; simpl;
    intros ->; rewrite Hs; change (ind " ") with 1%nat; lia.
Qed.

Lemma blanks_le_9 b : (blanks b <= 9)%nat.
Proof.
  assert (forall x, (ind x <= 1)%nat) as H
      by (intros x; unfold ind; destruct (x =? " ")%char; lia).
  unfold blanks.
  pose proof (H (b00 b)); pose proof (H (b01 b)); pose proof (H (b02 b)).
  pose proof (H (b10 b)); pose proof (H (b11 b)); pose proof (H (b12 b)).
  pose proof (H (b20 b)); pose proof (H (b21 b)); pose proof (H (b22 b)).
  lia.
Qed.

Lemma scan_blank_0 b l :
  scan_blank b l = 0 <-> forall p, In p l -> blank b p = false.
Proof.
  induction l as [| [i j] l IH]; simpl.
  - split; [intros _ p [] | reflexivity].
  - destruct (cell b i j =? " ")%char eqn:E.
    + split; [discriminate | ].
      intros H. specialize (H (i, j) (or_introl eq_refl)).
      unfold blank in H; simpl in H. congruence.
    + rewrite IH. split.
      * intros H p [<- | Hp]; [unfold blank; simpl; exact E | auto].
      * intros H p Hp. apply H. now right.
Qed.

Lemma scan_blank_01 b l : scan_blank b l = 0 \/ scan_blank b l = 1.
Proof.
  induction l as [| [i j] l IH]; simpl; [now left | ].
  destruct (cell b i j =? " ")%char; [now right | exact IH].
Qed.

Lemma moves_left_legal b :
  Game_isMovesLeft b <> 0 <-> legalMoves b <> [].
Proof.
  unfold Game_isMovesLeft, legalMoves. rewrite scan_blank_0. split.
  - intros H E. apply H. intros p Hp.
    destruct (blank b p) eqn:Bp; [ | reflexivity].
    assert (In p (filter (blank b) cells)) as Hf
        by (apply filter_In; split; assumption).
    rewrite E in Hf. destruct Hf.
  - intros H E. apply H.
    destruct (filter (blank b) cells) as [| p l] eqn:F; [reflexivity | ].
    assert (In p (filter (blank b) cells)) as Hf by (rewrite F; now left).
    apply filter_In in Hf. destruct Hf as [Hp Bp].
    rewrite (E p Hp) in Bp. discriminate.
Qed.

Lemma ongoing_moves_left b : Game_checkWin b = 2 -> Game_isMovesLeft b <> 0.
Proof.
  unfold Game_checkWin, check_rows, check_cols, winner.
  repeat match goal with
         | |- context [if ?c then _ else _] => destruct c eqn:?
         end; intros H; try discriminate.
  now apply Z.eqb_neq.
Qed.

(* ================================================================== *)
(** * The search as a function of the board                            *)
(* ================================================================== *)

Lemma paired_app later earlier :
  paired later -> paired earlier -> paired (later ++ earlier).
Proof.
  intros Hl He. induction Hl as [| i j sym inner before Hs Hi _ Hb IH].
  - exact He.
  - cbn [app]. rewrite <- app_assoc. cbn [app].
    apply paired_undo; assumption.
Qed.

(** A step that makes no call and keeps the board. *)
Lemma returns_still {A} (c : M A) m m' (a : A) :
  c m = Some (a, m') -> board m' = board m -> calls m' = calls m ->
  returns c m a.
Proof.
  intros H Hb Hc. exists m'. split; [exact H | ]. split; [exact Hb | ].
  exists []. split; [exact Hc | constructor].
Qed.

Lemma for_each_cons {A S} (body : S -> A -> M S) a l s m :
  for_each body (a :: l) s m =
  match body s a m with
  | Some (s', m') => for_each body l s' m'
  | None => None
  end.
Proof. reflexivity. Qed.

Lemma try_cell_blank {S} sym visit (k : S -> Z -> Z -> Z -> M S) s i j m :
  cell (board m) i j = " " ->
  try_cell sym visit k s (i, j) m =
  match visit (moved m i j sym) with
  | Some (v, m2) => k s i j v (moved m2 i j " ")
  | None => None
  end.
Proof.
  intros E. unfold try_cell, bind, read_cell, makeMove. rewrite E.
  reflexivity.
Qed.

Lemma try_cell_marked {S} sym visit (k : S -> Z -> Z -> Z -> M S) s i j m :
  cell (board m) i j <> " " ->
  try_cell sym visit k s (i, j) m = Some (s, m).
Proof.
  intros E. unfold try_cell, bind, read_cell.
  destruct (Ascii.eqb_spec (cell (board m) i j) " "); [contradiction | ].
  reflexivity.
Qed.

Section Loops.

Context {S : Type} (sym : ascii) (visit : M Z) (val : Z * Z -> Z).
Context (k : S -> Z -> Z -> Z -> M S) (kp : S -> Z * Z -> Z -> S).
Variable b : Board.

Hypothesis sym_mark : sym <> " ".

Hypothesis visit_ok : forall i j m,
  In (i, j) cells -> cell b i j = " " ->
  board m = Game_makeMove b i j sym ->
  returns visit m (val (i, j)).

Hypothesis k_ok : forall s i j v m, returns (k s i j v) m (kp s (i, j) v).

(** Every loop of that shape folds [kp] over the blank cells it meets
    and hands the board back unchanged. *)
Lemma try_cells_run l :
  incl l cells ->
  forall s m, board m = b ->
  returns (for_each (try_cell sym visit k) l s) m
          (fold_left (fun s p => if blank b p then kp s p (val p) else s) l s).
Proof.
  induction l as [| [i j] l IH]; intros Hl s m Hb.
  - now apply (returns_still _ m m).
  - assert (In (i, j) cells) as Hin by (apply Hl; now left).
    assert (incl l cells) as Hl' by (intros q Hq; apply Hl; now right).
    unfold returns. rewrite for_each_cons. cbn [fold_left].
    unfold blank at 2. cbn [fst snd].
    destruct (Ascii.eqb_spec (cell b i j) " ") as [E | E].
    + rewrite try_cell_blank by (rewrite Hb; exact E).
      destruct (visit_ok i j (moved m i j sym) Hin E)
        as [m2 [Hv [Hb2 [tr1 [Hc1 Hp1]]]]]; [cbn; now rewrite Hb | ].
      rewrite Hv.
      assert (board (moved m2 i j " ") = b) as Hb3.
      { cbn. rewrite Hb2. cbn. rewrite Hb. now apply undo_move. }
      destruct (k_ok s i j (val (i, j)) (moved m2 i j " "))
        as [m4 [Hk [Hb4 [tr2 [Hc2 Hp2]]]]].
      rewrite Hk.
      destruct (IH Hl' (kp s (i, j) (val (i, j))) m4)
        as [m5 [H5 [Hb5 [tr3 [Hc3 Hp3]]]]]; [congruence | ].
      exists m5. split; [exact H5 | ]. split; [congruence | ].
      exists (tr3 ++ tr2 ++ (i, j, " ") :: tr1 ++ [(i, j, sym)]). split.
      * rewrite Hc3, Hc2. cbn [calls moved]. rewrite Hc1. cbn [calls moved].
        rewrite <- !app_assoc. cbn [app]. rewrite <- app_assoc. reflexivity.
      * apply paired_app; [exact Hp3 | ]. apply paired_app; [exact Hp2 | ].
        apply paired_undo; [exact sym_mark | exact Hp1 | constructor].
    + rewrite try_cell_marked by (rewrite Hb; exact E).
      destruct (IH Hl' s m Hb) as [m5 [H5 [Hb5 Htr]]].
      exists m5. split; [exact H5 | ]. split; [congruence | exact Htr].
Qed.

End Loops.

Lemma returns_ret {A} (a : A) m : returns (ret a) m a.
Proof. now apply (returns_still _ m m). Qed.

Lemma returns_bind {A B} (c : M A) (k : A -> M B) m a b :
  returns c m a ->
  (forall m', board m' = board m -> returns (k a) m' b) ->
  returns (x <- c ;; k x) m b.
Proof.
  intros [m1 [H1 [Hb1 [tr1 [Hc1 Hp1]]]]] Hk.
  destruct (Hk m1 Hb1) as [m2 [H2 [Hb2 [tr2 [Hc2 Hp2]]]]].
  exists m2. unfold bind. rewrite H1. split; [exact H2 | ].
  split; [congruence | ].
  exists (tr2 ++ tr1). split; [ | now apply paired_app].
  rewrite Hc2, Hc1. apply app_assoc.
Qed.

Lemma AI_evaluate_run m : AI_evaluate m = Some (evaluate (board m), m).
Proof.
  unfold AI_evaluate, bind, checkWin, evaluate, ret.
  destruct (Game_checkWin (board m) =? -1); [reflexivity | ].
  destruct (Game_checkWin (board m) =? 1); reflexivity.
Qed.

(** One unfolding of [AI_minimax_fuel], its loops in [try_cell] form. *)
Lemma AI_minimax_fuel_S fuel depth isMax m :
  AI_minimax_fuel (S fuel) depth isMax m =
  if evaluate (board m) =? 10
  then Some (evaluate (board m) - depth, counted m depth)
  else if evaluate (board m) =? -10
  then Some (evaluate (board m) + depth, counted m depth)
  else if Game_isMovesLeft (board m) =? 0 then Some (0, counted m depth)
  else if negb (isMax =? 0)
  then for_each (try_cell "O" (AI_minimax_fuel fuel (depth + 1) 0)
                   (fun best _ _ val => ret (keep_max val best)))
                cells (- INT_MAX) (counted m depth)
  else for_each (try_cell "X" (AI_minimax_fuel fuel (depth + 1) 1)
                   (fun best _ _ val => ret (keep_min val best)))
                cells INT_MAX (counted m depth).
Proof.
  cbn [AI_minimax_fuel].
  unfold bind at 1, count_node at 1. fold (counted m depth).
  unfold bind at 1. rewrite AI_evaluate_run.
  change (board (counted m depth)) with (board m).
  destruct (evaluate (board m) =? 10); [reflexivity | ].
  destruct (evaluate (board m) =? -10); [reflexivity | ].
  unfold bind at 1, isMovesLeft at 1.
  change (board (counted m depth)) with (board m).
  destruct (Game_isMovesLeft (board m) =? 0); [reflexivity | ].
  destruct (negb (isMax =? 0)); reflexivity.
Qed.

(** Closes an unfolded [returns] goal whose computation ends in store
    [m'] with the board and the history of the entry store. *)
Ltac stays_at m' :=
  exists m'; split; [reflexivity | ]; split; [reflexivity | ];
  exists []; split; [reflexivity | constructor].

(** With more fuel than blank cells the search returns, its result is
    [minimax_val] of the board, and the board is as before the call. *)
Lemma AI_minimax_fuel_run fuel :
  forall depth isMax m,
    (blanks (board m) < fuel)%nat ->
    returns (AI_minimax_fuel fuel depth isMax) m
            (minimax_val fuel depth isMax (board m)).
Proof.
  induction fuel as [| fuel IH]; intros depth isMax m Hfuel; [lia | ].
  unfold returns. rewrite AI_minimax_fuel_S. cbn [minimax_val].
  destruct (evaluate (board m) =? 10); [stays_at (counted m depth) | ].
  destruct (evaluate (board m) =? -10); [stays_at (counted m depth) | ].
  destruct (Game_isMovesLeft (board m) =? 0); [stays_at (counted m depth) | ].
  assert (forall sym nxt i j m',
    sym <> " " -> In (i, j) cells -> cell (board m) i j = " " ->
    board m' = Game_makeMove (board m) i j sym ->
    returns (AI_minimax_fuel fuel (depth + 1) nxt) m'
      (minimax_val fuel (depth + 1) nxt
         (Game_makeMove (board m) (fst (i, j)) (snd (i, j)) sym))) as Hvisit.
  { intros sym nxt i j m' Hsym Hin Hc Hb'. cbn [fst snd]. rewrite <- Hb'.
    apply IH. rewrite Hb'.
    pose proof (blanks_move (board m) sym i j Hin Hc Hsym). lia. }
  destruct (negb (isMax =? 0)).
  - refine (try_cells_run "O" (AI_minimax_fuel fuel (depth + 1) 0)
             (fun p => minimax_val fuel (depth + 1) 0
                         (Game_makeMove (board m) (fst p) (snd p) "O"))
             (fun best _ _ val => ret (keep_max val best))
             (fun best _ val => keep_max val best) (board m) _ _ _
             cells (incl_refl _) _ (counted m depth) eq_refl).
    + discriminate.
    + intros i j m'. apply Hvisit. discriminate.
    + intros. apply returns_ret.
  - refine (try_cells_run "X" (AI_minimax_fuel fuel (depth + 1) 1)
             (fun p => minimax_val fuel (depth + 1) 1
                         (Game_makeMove (board m) (fst p) (snd p) "X"))
             (fun best _ _ val => ret (keep_min val best))
             (fun best _ val => keep_min val best) (board m) _ _ _
             cells (incl_refl _) _ (counted m depth) eq_refl).
    + discriminate.
    + intros i j m'. apply Hvisit. discriminate.
    + intros. apply returns_ret.
Qed.

Lemma AI_minimax_run depth isMax m :
  returns (AI_minimax depth isMax) m (minimax_val 10 depth isMax (board m)).
Proof.
  apply AI_minimax_fuel_run. pose proof (blanks_le_9 (board m)). lia.
Qed.

(* ================================================================== *)
(** * Folds of the running maximum and minimum                         *)
(* ================================================================== *)

Section Folds.

Context {A : Type} (f : A -> Z) (pr : A -> bool).

Lemma fold_left_filter {S} (g : S -> A -> S) l s :
  fold_left (fun s p => if pr p then g s p else s) l s =
  fold_left g (filter pr l) s.
Proof.
  revert s. induction l as [| a l IH]; intros s; cbn; [reflexivity | ].
  destruct (pr a); cbn; apply IH.
Qed.

Lemma fold_keep_max_spec l init :
  let r := fold_left (fun best p => if pr p then keep_max (f p) best else best)
                     l init in
  init <= r /\
  (forall p, In p l -> pr p = true -> f p <= r) /\
  (r = init \/ exists p, In p l /\ pr p = true /\ r = f p).
Proof.
  revert init. induction l as [| a l IH]; intros init; cbn.
  - repeat split; [lia | intros p [] | now left].
  - destruct (pr a) eqn:Pa.
    + destruct (IH (keep_max (f a) init)) as [H1 [H2 H3]].
      unfold keep_max in *. destruct (Z.gtb_spec (f a) init) as [G | G].
      * repeat split; [lia | | ].
        -- intros p [<- | Hp] Hpr; [exact H1 | now apply H2].
        -- right. destruct H3 as [-> | [p [Hp [Hpr E]]]].
           ++ exists a. repeat split; [now left | exact Pa].
           ++ exists p. repeat split; [now right | exact Hpr | exact E].
      * repeat split; [exact H1 | | ].
        -- intros p [<- | Hp] Hpr; [lia | now apply H2].
        -- destruct H3 as [-> | [p [Hp [Hpr E]]]]; [now left | ].
           right. exists p. repeat split; [now right | exact Hpr | exact E].
    + destruct (IH init) as [H1 [H2 H3]].
      repeat split; [exact H1 | | ].
      * intros p [<- | Hp] Hpr; [congruence | now apply H2].
      * destruct H3 as [-> | [p [Hp [Hpr E]]]]; [now left | ].
        right. exists p. repeat split; [now right | exact Hpr | exact E].
Qed.

Lemma fold_keep_min_spec l init :
  let r := fold_left (fun best p => if pr p then keep_min (f p) best else best)
                     l init in
  r <= init /\
  (forall p, In p l -> pr p = true -> r <= f p) /\
  (r = init \/ exists p, In p l /\ pr p = true /\ r = f p).
Proof.
  revert init. induction l as [| a l IH]; intros init; cbn.
  - repeat split; [lia | intros p [] | now left].
  - destruct (pr a) eqn:Pa.
    + destruct (IH (keep_min (f a) init)) as [H1 [H2 H3]].
      unfold keep_min in *. destruct (Z.ltb_spec (f a) init) as [G | G].
      * repeat split; [lia | | ].
        -- intros p [<- | Hp] Hpr; [exact H1 | now apply H2].
        -- right. destruct H3 as [-> | [p [Hp [Hpr E]]]].
           ++ exists a. repeat split; [now left | exact Pa].
           ++ exists p. repeat split; [now right | exact Hpr | exact E].
      * repeat split; [exact H1 | | ].
        -- intros p [<- | Hp] Hpr; [lia | now apply H2].
        -- destruct H3 as [-> | [p [Hp [Hpr E]]]]; [now left | ].
           right. exists p. repeat split; [now right | exact Hpr | exact E].
    + destruct (IH init) as [H1 [H2 H3]].
      repeat split; [exact H1 | | ].
      * intros p [<- | Hp] Hpr; [congruence | now apply H2].
      * destruct H3 as [-> | [p [Hp [Hpr E]]]]; [now left | ].
        right. exists p. repeat split; [now right | exact Hpr | exact E].
Qed.

End Folds.

(* ================================================================== *)
(** * Range of the scores                                              *)
(* ================================================================== *)

Lemma evaluate_cases b :
  (evaluate b = 10 /\ Game_checkWin b = -1) \/
  (evaluate b = -10 /\ Game_checkWin b = 1) \/
  (evaluate b = 0 /\ Game_checkWin b <> -1 /\ Game_checkWin b <> 1).
Proof.
  unfold evaluate.
  destruct (Z.eqb_spec (Game_checkWin b) (-1)); [now left | ].
  destruct (Z.eqb_spec (Game_checkWin b) 1); [right; now left | ].
  right; right. repeat split; assumption.
Qed.

Lemma legal_move_in b p : In p (legalMoves b) -> In p cells /\ blank b p = true.
Proof. unfold legalMoves. apply filter_In. Qed.

Lemma blank_cell b p : blank b p = true -> cell b (fst p) (snd p) = " ".
Proof. unfold blank. apply Ascii.eqb_eq. Qed.

Lemma minimax_val_range fuel :
  forall depth isMax b,
    0 <= depth -> depth + Z.of_nat fuel <= 1000 ->
    (blanks b < fuel)%nat ->
    in_range depth (Z.of_nat (blanks b)) (minimax_val fuel depth isMax b).
Proof.
  induction fuel as [| fuel IH]; intros depth isMax b Hd Hsum Hfuel; [lia | ].
  cbn [minimax_val].
  destruct (Z.eqb_spec (evaluate b) 10) as [E1 | E1];
    [rewrite E1; unfold in_range; lia | ].
  destruct (Z.eqb_spec (evaluate b) (-10)) as [E2 | E2];
    [rewrite E2; unfold in_range; lia | ].
  destruct (Z.eqb_spec (Game_isMovesLeft b) 0) as [E3 | E3];
    [now left | ].
  apply moves_left_legal in E3.
  destruct (legalMoves b) as [| p0 rest] eqn:L; [congruence | ].
  assert (In p0 cells /\ blank b p0 = true) as [Hp0 Bp0]
      by (apply legal_move_in; rewrite L; now left).
  assert (forall sym nxt p, sym <> " " -> In p cells -> blank b p = true ->
            in_range (depth + 1) (Z.of_nat (blanks b) - 1)
              (minimax_val fuel (depth + 1) nxt
                 (Game_makeMove b (fst p) (snd p) sym))) as Hchild.
  { intros sym nxt [i j] Hsym Hin Hbl. apply blank_cell in Hbl. cbn [fst snd] in *.
    pose proof (blanks_move b sym i j Hin Hbl Hsym) as Hk.
    replace (Z.of_nat (blanks b) - 1)
      with (Z.of_nat (blanks (Game_makeMove b i j sym))) by lia.
    apply IH; lia. }
  pose proof (blanks_le_9 b) as H9.
  destruct (negb (isMax =? 0)).
  - destruct (fold_keep_max_spec
                (fun p => minimax_val fuel (depth + 1) 0
                            (Game_makeMove b (fst p) (snd p) "O"))
                (blank b) cells (- INT_MAX)) as [_ [Hub Hwit]].
    specialize (Hub p0 Hp0 Bp0).
    pose proof (Hchild "O" 0 p0 ltac:(discriminate) Hp0 Bp0) as R0.
    destruct Hwit as [Hinit | [p [Hp [Bp Hr]]]].
    + rewrite Hinit in Hub. unfold in_range, INT_MAX in *. lia.
    + rewrite Hr.
      pose proof (Hchild "O" 0 p ltac:(discriminate) Hp Bp) as R.
      unfold in_range in *. lia.
  - destruct (fold_keep_min_spec
                (fun p => minimax_val fuel (depth + 1) 1
                            (Game_makeMove b (fst p) (snd p) "X"))
                (blank b) cells INT_MAX) as [_ [Hlb Hwit]].
    specialize (Hlb p0 Hp0 Bp0).
    pose proof (Hchild "X" 1 p0 ltac:(discriminate) Hp0 Bp0) as R0.
    destruct Hwit as [Hinit | [p [Hp [Bp Hr]]]].
    + rewrite Hinit in Hlb. unfold in_range, INT_MAX in *. lia.
    + rewrite Hr.
      pose proof (Hchild "X" 1 p ltac:(discriminate) Hp Bp) as R.
      unfold in_range in *. lia.
Qed.

(* ================================================================== *)
(** * Terminal classification                                          *)
(* ================================================================== *)

Lemma full_line_spec b l s :
  full_line b l = Some s <-> s <> " " /\ line_of b l s.
Proof.
  destruct l as [[p q] r]. unfold full_line, line_of.
  destruct (Ascii.eqb_spec (at_pos b p) (at_pos b q)) as [E1 | E1];
  destruct (Ascii.eqb_spec (at_pos b q) (at_pos b r)) as [E2 | E2];
  destruct (Ascii.eqb_spec (at_pos b p) " ") as [E3 | E3]; cbn;
    split; try discriminate;
    try (intros [Hs [H1 [H2 H3]]]; congruence).
  intros H. injection H as <-. repeat split; congruence.
Qed.

Lemma full_line_three b p q r :
  full_line b (p, q, r) =
  if three (at_pos b p) (at_pos b q) (at_pos b r)
  then Some (at_pos b p) else None.
Proof.
  unfold full_line, three.
  destruct (at_pos b p =? at_pos b q)%char,
           (at_pos b q =? at_pos b r)%char,
           (at_pos b p =? " ")%char; reflexivity.
Qed.

Lemma first_full_some b ls s :
  first_full b ls = Some s -> exists l, In l ls /\ full_line b l = Some s.
Proof.
  induction ls as [| l ls IH]; cbn; [discriminate | ].
  destruct (full_line b l) as [s' |] eqn:F.
  - intros H. injection H as <-. exists l. split; [now left | exact F].
  - intros H. destruct (IH H) as [l' [Hl' F']].
    exists l'. split; [now right | exact F'].
Qed.

Lemma first_full_none b ls :
  first_full b ls = None -> forall l, In l ls -> full_line b l = None.
Proof.
  induction ls as [| l ls IH]; cbn; [intros _ l [] | ].
  destruct (full_line b l) as [s' |] eqn:F; [discriminate | ].
  intros H l' [<- | Hl']; [exact F | now apply IH].
Qed.

Lemma isMovesLeft_legal b :
  Game_isMovesLeft b = match legalMoves b with [] => 0 | _ :: _ => 1 end.
Proof.
  pose proof (moves_left_legal b) as H.
  destruct (scan_blank_01 b cells) as [E | E]; fold (Game_isMovesLeft b) in E;
    destruct (legalMoves b); rewrite E in *; try reflexivity.
  - exfalso. apply (proj2 H); [discriminate | reflexivity].
  - exfalso. apply (proj1 H); [discriminate | reflexivity].
Qed.

(** The scan of [Game_checkWin] agrees with the classification. *)
Lemma Game_checkWin_terminalResult b :
  Game_checkWin b = code_of (terminalResult b).
Proof.
  unfold Game_checkWin, terminalResult, lines, check_rows, check_cols.
  cbn [first_full]. rewrite !full_line_three. unfold at_pos. cbn [fst snd].
  rewrite isMovesLeft_legal. unfold winner.
  repeat match goal with
         | |- context [three ?x ?y ?z] => destruct (three x y z)
         end;
    repeat match goal with
           | |- context [(?x =? "X")%char] => destruct (x =? "X")%char
           end;
    try reflexivity.
  destruct (legalMoves b); reflexivity.
Qed.

Lemma winner_X : winner "X" = 1.
Proof. reflexivity. Qed.

Lemma winner_other s : s <> "X" -> winner s = -1.
Proof.
  intros H. unfold winner. destruct (Ascii.eqb_spec s "X"); congruence.
Qed.

(** A board on which the completed lines all carry one mark is
    classified as a win for that mark. *)
Lemma sole_line_checkWin b s :
  s <> " " -> has_line b s ->
  (forall s', s' <> " " -> has_line b s' -> s' = s) ->
  Game_checkWin b = winner s.
Proof.
  intros Hs [l [Hl Hline]] Honly.
  rewrite Game_checkWin_terminalResult. unfold terminalResult.
  destruct (first_full b lines) as [s' |] eqn:F.
  - apply first_full_some in F. destruct F as [l' [Hl' F']].
    apply full_line_spec in F'. destruct F' as [Hs' Hline'].
    assert (s' = s) as -> by (apply Honly; [exact Hs' | now exists l']).
    unfold winner. destruct (s =? "X")%char; reflexivity.
  - pose proof (first_full_none b lines F l Hl) as N.
    assert (full_line b l = Some s) as Y by (apply full_line_spec; now split).
    congruence.
Qed.

(** Without a completed line the result tells whether a cell is blank. *)
Lemma no_line_checkWin b :
  (forall s, s <> " " -> ~ has_line b s) ->
  Game_checkWin b = if Game_isMovesLeft b =? 0 then 0 else 2.
Proof.
  intros Hno.
  rewrite Game_checkWin_terminalResult, isMovesLeft_legal.
  unfold terminalResult.
  destruct (first_full b lines) as [s' |] eqn:F.
  - apply first_full_some in F. destruct F as [l' [Hl' F']].
    apply full_line_spec in F'. destruct F' as [Hs' Hline'].
    exfalso. apply (Hno s' Hs'). now exists l'.
  - destruct (legalMoves b); reflexivity.
Qed.

(** C3.  For every board, [Game_checkWin] returns the code of the
    classification that looks at the rows, then the columns, then the two
    diagonals for three identical marks that are not blank, reports the
    win of the first such line (1 for 'X', -1 otherwise), and, when no line
    is complete, reports a draw (0) exactly when no cell is blank and
    ongoing (2) otherwise.  In particular any one of the eight lines held
    by a mark, when no other mark holds a line, yields the win of that
    mark, and the board of [Game_init] is ongoing. *)
Theorem Game_checkWin_classifies :
  (forall b, Game_checkWin b = code_of (terminalResult b)) /\
  (forall b, first_full b lines = None ->
             (Game_checkWin b = 0 <-> legalMoves b = []) /\
             (Game_checkWin b = 2 <-> legalMoves b <> [])) /\
  (forall b l s, In l lines -> s <> " " -> line_of b l s ->
     (forall s', s' <> " " -> has_line b s' -> s' = s) ->
     (s = "X" -> Game_checkWin b = 1) /\ (s = "O" -> Game_checkWin b = -1)) /\
  (forall b l s, In l lines -> s <> " " -> line_of b l s ->
     Game_checkWin b = 1 \/ Game_checkWin b = -1) /\
  Game_checkWin Game_init = 2.
Proof.
  split; [exact Game_checkWin_terminalResult | ].
  split.
  { intros b F. rewrite Game_checkWin_terminalResult. unfold terminalResult.
    rewrite F.
    destruct (legalMoves b); cbn; split; split;
      intros H; try reflexivity; try discriminate; congruence. }
  split.
  { intros b l s Hl Hs Hline Honly.
    assert (Game_checkWin b = winner s) as E
        by (apply sole_line_checkWin; [exact Hs | now exists l | exact Honly]).
    split; intros ->; exact E. }
  split; [ | reflexivity].
  intros b l s Hl Hs Hline.
  rewrite Game_checkWin_terminalResult. unfold terminalResult.
  destruct (first_full b lines) as [s' |] eqn:F.
  - destruct (s' =? "X")%char; [now left | now right].
  - pose proof (first_full_none b lines F l Hl) as N.
    assert (full_line b l = Some s) as Y by (apply full_line_spec; now split).
    congruence.
Qed.

Lemma column_board_only_O s' :
  s' <> " " -> has_line column_board s' -> s' = "O".
Proof.
  intros Hs [l [Hl Hline]]. unfold lines in Hl. cbn in Hl.
  repeat (destruct Hl as [<- | Hl];
          [cbn in Hline; destruct Hline as [H1 [H2 H3]]; congruence | ]).
  destruct Hl.
Qed.

Lemma Game_checkWin_classifies_witness :
  Game_checkWin column_board = -1.
Proof.
  refine (proj2 (proj1 (proj2 (proj2 Game_checkWin_classifies))
                   column_board ((0,1), (1,1), (2,1)) "O" _ _ _ _) eq_refl).
  - cbn. tauto.
  - discriminate.
  - cbn. repeat split.
  - exact column_board_only_O.
Defined.

(* ================================================================== *)
(** * Placing a symbol                                                 *)
(* ================================================================== *)

Lemma load_store_same b off s : 0 <= off <= 8 -> load (store b off s) off = s.
Proof.
  intros H. destruct b.
  assert (off = 0 \/ off = 1 \/ off = 2 \/ off = 3 \/ off = 4 \/ off = 5 \/
          off = 6 \/ off = 7 \/ off = 8) as C by lia.
  repeat (destruct C as [-> | C]; [reflexivity | ]). subst. reflexivity.
Qed.

Lemma load_store_other b off off' s :
  0 <= off' <= 8 -> off <> off' -> load (store b off s) off' = load b off'.
Proof.
  intros H' Hne. destruct b.
  assert (off' = 0 \/ off' = 1 \/ off' = 2 \/ off' = 3 \/ off' = 4 \/
          off' = 5 \/ off' = 6 \/ off' = 7 \/ off' = 8) as C' by lia.
  destruct off as [| q | q]; [ | | reflexivity].
  - repeat (destruct C' as [-> | C']; [try reflexivity; congruence | ]).
    subst. reflexivity.
  - do 4 (try destruct q as [q | q |]); try reflexivity;
      repeat (destruct C' as [-> | C']; [try reflexivity; congruence | ]);
      subst; try reflexivity; congruence.
Qed.

(** C7 (counterexample).  With column 3, outside [0,2], [Game_makeMove]
    reports nothing and stores the symbol: the char at offset
    3*0 + 3 of the array, which is [board[1][0]], becomes 'X', where the
    specification asks for the error and an untouched board. *)
Lemma Game_makeMove_out_of_range_writes :
  apply_spec Game_init 0 3 "X" = OutOfRange /\
  Game_makeMove Game_init 0 3 "X" <> Game_init /\
  cell (Game_makeMove Game_init 0 3 "X") 1 0 = "X".
Proof.
  split; [reflexivity | ]. split; [discriminate | reflexivity].
Qed.

(** C7 (amended).  For row and col inside [0,2], [Game_makeMove] puts the
    symbol in the addressed cell whatever the cell held, and leaves every
    other cell as it was; it never tests the cell for blank. *)
Theorem Game_makeMove_in_range b row col s :
  0 <= row <= 2 -> 0 <= col <= 2 ->
  cell (Game_makeMove b row col s) row col = s /\
  (forall i j, 0 <= i <= 2 -> 0 <= j <= 2 -> (i, j) <> (row, col) ->
     cell (Game_makeMove b row col s) i j = cell b i j) /\
  apply_spec b row col s = Applied (Game_makeMove b row col s).
Proof.
  intros Hr Hc. unfold Game_makeMove, cell, offset. split; [ | split].
  - apply load_store_same. lia.
  - intros i j Hi Hj Hne. apply load_store_other; [lia | ].
    intros E. apply Hne. f_equal; lia.
  - unfold apply_spec.
    replace (0 <=? row) with true by (symmetry; apply Z.leb_le; lia).
    replace (row <=? 2) with true by (symmetry; apply Z.leb_le; lia).
    replace (0 <=? col) with true by (symmetry; apply Z.leb_le; lia).
    replace (col <=? 2) with true by (symmetry; apply Z.leb_le; lia).
    reflexivity.
Qed.

(** A witness on an occupied cell: the 'O' of the centre is overwritten. *)
Lemma Game_makeMove_in_range_witness :
  cell column_board 1 1 = "O" /\
  cell (Game_makeMove column_board 1 1 "X") 1 1 = "X".
Proof.
  split; [reflexivity | ].
  apply (Game_makeMove_in_range column_board 1 1 "X"); lia.
Defined.

(* ================================================================== *)
(** * Configuration of the engine                                      *)
(* ================================================================== *)

Lemma clamp_min_max x :
  (let x := if x <? 0 then 0 else x in if x >? 2 then 2 else x) =
  Z.min (Z.max x 0) 2.
Proof.
  cbv zeta.
  destruct (Z.ltb_spec x 0); [cbn; lia | ].
  destruct (Z.gtb_spec x 2); lia.
Qed.

(** C10.  For every integer, [AI_setDifficulty] stores
    min(max(level,0),2) and [AI_setVerbose] stores min(max(v,0),2), each
    leaving the other field alone and neither refusing any input; hence
    the two fields of an engine lie in [0,2] after any sequence of calls
    that follows [AI_init]. *)
Theorem setters_clamp :
  (forall ai level,
     difficulty (AI_setDifficulty ai level) = Z.min (Z.max level 0) 2 /\
     0 <= difficulty (AI_setDifficulty ai level) <= 2 /\
     verbose (AI_setDifficulty ai level) = verbose ai) /\
  (forall ai v,
     verbose (AI_setVerbose ai v) = Z.min (Z.max v 0) 2 /\
     0 <= verbose (AI_setVerbose ai v) <= 2 /\
     difficulty (AI_setVerbose ai v) = difficulty ai) /\
  (forall ai, configured ai ->
     0 <= difficulty ai <= 2 /\ 0 <= verbose ai <= 2).
Proof.
  assert (forall ai level,
     difficulty (AI_setDifficulty ai level) = Z.min (Z.max level 0) 2) as HD
    by (intros; unfold AI_setDifficulty; cbn [difficulty];
        apply clamp_min_max).
  assert (forall ai v,
     verbose (AI_setVerbose ai v) = Z.min (Z.max v 0) 2) as HV
    by (intros; unfold AI_setVerbose; cbn [verbose]; apply clamp_min_max).
  split; [ | split].
  - intros ai level. rewrite HD. repeat split; lia.
  - intros ai v. rewrite HV. repeat split; lia.
  - intros ai H.
    induction H as [| ai level H IH | ai v H IH].
    + cbn. lia.
    + rewrite HD. unfold AI_setDifficulty. cbn [verbose]. lia.
    + rewrite HV. unfold AI_setVerbose. cbn [difficulty]. lia.
Qed.

Lemma setters_clamp_witness :
  difficulty (AI_setVerbose (AI_setDifficulty AI_init 7) (-3)) = 2 /\
  verbose (AI_setVerbose (AI_setDifficulty AI_init 7) (-3)) = 0 /\
  0 <= difficulty (AI_setVerbose (AI_setDifficulty AI_init 7) (-3)) <= 2.
Proof.
  split; [reflexivity | ]. split; [reflexivity | ].
  apply (proj2 (proj2 setters_clamp)).
  apply conf_verbose, conf_difficulty, conf_init.
Defined.

(* ================================================================== *)
(** * Depth-biased scores                                              *)
(* ================================================================== *)

Lemma minimax_val_S fuel depth isMax b :
  minimax_val (S fuel) depth isMax b =
  if evaluate b =? 10 then evaluate b - depth
  else if evaluate b =? -10 then evaluate b + depth
  else if Game_isMovesLeft b =? 0 then 0
  else if negb (isMax =? 0) then
    fold_left (fun best p =>
      if blank b p
      then keep_max (minimax_val fuel (depth + 1) 0
                       (Game_makeMove b (fst p) (snd p) "O")) best
      else best) cells (- INT_MAX)
  else
    fold_left (fun best p =>
      if blank b p
      then keep_min (minimax_val fuel (depth + 1) 1
                       (Game_makeMove b (fst p) (snd p) "X")) best
      else best) cells INT_MAX.
Proof. reflexivity. Qed.

Lemma evaluate_O b : Game_checkWin b = -1 -> evaluate b = 10.
Proof. intros H. unfold evaluate. rewrite H. reflexivity. Qed.

Lemma evaluate_X b : Game_checkWin b = 1 -> evaluate b = -10.
Proof. intros H. unfold evaluate. rewrite H. reflexivity. Qed.

Lemma evaluate_none b :
  Game_checkWin b = 0 \/ Game_checkWin b = 2 -> evaluate b = 0.
Proof. intros [H | H]; unfold evaluate; rewrite H; reflexivity. Qed.

Lemma minimax_val_O fuel depth isMax b :
  Game_checkWin b = -1 -> minimax_val (S fuel) depth isMax b = 10 - depth.
Proof.
  intros H. rewrite minimax_val_S, (evaluate_O b H). reflexivity.
Qed.

Lemma minimax_val_X fuel depth isMax b :
  Game_checkWin b = 1 -> minimax_val (S fuel) depth isMax b = -10 + depth.
Proof.
  intros H. rewrite minimax_val_S, (evaluate_X b H). reflexivity.
Qed.

Lemma checkWin_draw_full b : Game_checkWin b = 0 -> Game_isMovesLeft b = 0.
Proof.
  rewrite Game_checkWin_terminalResult, isMovesLeft_legal.
  unfold terminalResult.
  destruct (first_full b lines) as [s |].
  - destruct (s =? "X")%char; discriminate.
  - destruct (legalMoves b); [reflexivity | discriminate].
Qed.

Lemma minimax_val_draw fuel depth isMax b :
  Game_checkWin b = 0 -> minimax_val (S fuel) depth isMax b = 0.
Proof.
  intros H. rewrite minimax_val_S, (evaluate_none b (or_introl H)).
  rewrite (checkWin_draw_full b H). reflexivity.
Qed.

(** 'O' holds a line and 'X' holds none: the scan reports 'O'. *)
Lemma line_O_checkWin b :
  has_line b "O" -> ~ has_line b "X" -> Game_checkWin b = -1.
Proof.
  intros [l [Hl Hline]] HnoX.
  rewrite Game_checkWin_terminalResult. unfold terminalResult.
  destruct (first_full b lines) as [s' |] eqn:F.
  - apply first_full_some in F. destruct F as [l' [Hl' F']].
    apply full_line_spec in F'. destruct F' as [Hs' Hline'].
    destruct (Ascii.eqb_spec s' "X") as [-> | _]; [ | reflexivity].
    exfalso. apply HnoX. now exists l'.
  - pose proof (first_full_none b lines F l Hl) as N.
    assert (full_line b l = Some "O") as Y
        by (apply full_line_spec; split; [discriminate | exact Hline]).
    congruence.
Qed.

Lemma returns_eq {A} (c : M A) m (a a' : A) :
  returns c m a -> a = a' -> returns c m a'.
Proof. intros H <-. exact H. Qed.

(** A position whose mover completes a line at once: the root, searched
    at depth 0, takes the score of that reply, found at depth 1. *)
Lemma minimax_val_win_in_one b isMax :
  isMax <> 0 -> Game_checkWin b = 2 ->
  (exists p, In p (legalMoves b) /\
             Game_checkWin (Game_makeMove b (fst p) (snd p) "O") = -1) ->
  minimax_val 10 0 isMax b = 9.
Proof.
  intros Hmax Hon [p [Hp Hwin]].
  change 10%nat with (S 9). rewrite minimax_val_S.
  rewrite (evaluate_none b (or_intror Hon)). cbn [Z.eqb].
  pose proof (ongoing_moves_left b Hon) as Hleft.
  destruct (Z.eqb_spec (Game_isMovesLeft b) 0) as [E | _]; [contradiction | ].
  destruct (Z.eqb_spec isMax 0) as [E | _]; [contradiction | ]. cbn [negb].
  apply legal_move_in in Hp. destruct Hp as [Hp Bp].
  destruct (fold_keep_max_spec
              (fun p => minimax_val 9 (0 + 1) 0
                          (Game_makeMove b (fst p) (snd p) "O"))
              (blank b) cells (- INT_MAX)) as [_ [Hub Hwit]].
  specialize (Hub p Hp Bp). cbv beta in Hub.
  change 9%nat with (S 8) in Hub at 1.
  rewrite (minimax_val_O 8 _ _ _ Hwin) in Hub.
  destruct Hwit as [Hinit | [q [Hq [Bq Hr]]]].
  - rewrite Hinit in Hub. unfold INT_MAX in Hub. lia.
  - pose proof (blanks_le_9 b) as H9.
    destruct q as [i j]. cbn [fst snd] in Hr.
    pose proof (blanks_move b "O" i j Hq (blank_cell b (i, j) Bq)
                  ltac:(discriminate)) as Hk.
    pose proof (minimax_val_range 9 (0 + 1) 0 (Game_makeMove b i j "O")
                  ltac:(lia) ltac:(lia) ltac:(lia)) as R.
    rewrite <- Hr in R. unfold in_range in R. lia.
Qed.

Lemma minimax_val_loss_in_one b :
  Game_checkWin b = 2 ->
  (exists p, In p (legalMoves b) /\
             Game_checkWin (Game_makeMove b (fst p) (snd p) "X") = 1) ->
  minimax_val 10 0 0 b = -9.
Proof.
  intros Hon [p [Hp Hwin]].
  change 10%nat with (S 9). rewrite minimax_val_S.
  rewrite (evaluate_none b (or_intror Hon)). cbn [Z.eqb].
  pose proof (ongoing_moves_left b Hon) as Hleft.
  destruct (Z.eqb_spec (Game_isMovesLeft b) 0) as [E | _]; [contradiction | ].
  cbn [negb].
  apply legal_move_in in Hp. destruct Hp as [Hp Bp].
  destruct (fold_keep_min_spec
              (fun p => minimax_val 9 (0 + 1) 1
                          (Game_makeMove b (fst p) (snd p) "X"))
              (blank b) cells INT_MAX) as [_ [Hlb Hwit]].
  specialize (Hlb p Hp Bp). cbv beta in Hlb.
  change 9%nat with (S 8) in Hlb at 1.
  rewrite (minimax_val_X 8 _ _ _ Hwin) in Hlb.
  destruct Hwit as [Hinit | [q [Hq [Bq Hr]]]].
  - rewrite Hinit in Hlb. unfold INT_MAX in Hlb. lia.
  - pose proof (blanks_le_9 b) as H9.
    destruct q as [i j]. cbn [fst snd] in Hr.
    pose proof (blanks_move b "X" i j Hq (blank_cell b (i, j) Bq)
                  ltac:(discriminate)) as Hk.
    pose proof (minimax_val_range 9 (0 + 1) 1 (Game_makeMove b i j "X")
                  ltac:(lia) ltac:(lia) ltac:(lia)) as R.
    rewrite <- Hr in R. unfold in_range in R. lia.
Qed.

(** C1.  For every board and every depth for which 10 - depth and
    -10 + depth are values of [int] (depth is an [int], and
    [score - depth] is one only from -[INT_MAX] + 10 on), [AI_minimax]
    returns 10 - depth when the board is won by 'O', the maximizer (the
    scan reports -1; so it is when 'O' holds a line and 'X' none),
    -10 + depth when it is won by 'X' (the scan reports 1; so it is when
    the completed lines are all of 'X'), and 0 when the board is full with
    no line (the scan reports 0).  Consequently an ongoing board on which
    the maximizer, to move, can complete a line scores 10 - 1 = 9 when
    searched from depth 0, and one on which the minimizer, to move, can
    complete a line scores -10 + 1 = -9.  In each case the board is as
    before the call. *)
Theorem AI_minimax_depth_bias (m : Mem) (depth isMax : Z) :
  - INT_MAX + 10 <= depth <= INT_MAX ->
  (Game_checkWin (board m) = -1 ->
     returns (AI_minimax depth isMax) m (10 - depth)) /\
  (Game_checkWin (board m) = 1 ->
     returns (AI_minimax depth isMax) m (-10 + depth)) /\
  (Game_checkWin (board m) = 0 ->
     returns (AI_minimax depth isMax) m 0) /\
  (has_line (board m) "O" -> ~ has_line (board m) "X" ->
     returns (AI_minimax depth isMax) m (10 - depth)) /\
  (has_line (board m) "X" ->
   (forall s, s <> " " -> has_line (board m) s -> s = "X") ->
     returns (AI_minimax depth isMax) m (-10 + depth)) /\
  ((forall s, s <> " " -> ~ has_line (board m) s) ->
   legalMoves (board m) = [] ->
     returns (AI_minimax depth isMax) m 0) /\
  (isMax <> 0 -> Game_checkWin (board m) = 2 ->
   (exists p, In p (legalMoves (board m)) /\
      Game_checkWin (Game_makeMove (board m) (fst p) (snd p) "O") = -1) ->
     returns (AI_minimax 0 isMax) m 9) /\
  (Game_checkWin (board m) = 2 ->
   (exists p, In p (legalMoves (board m)) /\
      Game_checkWin (Game_makeMove (board m) (fst p) (snd p) "X") = 1) ->
     returns (AI_minimax 0 0) m (-9)).
Proof.
  intros _.
  assert (Game_checkWin (board m) = -1 ->
          returns (AI_minimax depth isMax) m (10 - depth)) as HO.
  { intros H. apply (returns_eq _ _ _ _ (AI_minimax_run depth isMax m)).
    now apply minimax_val_O. }
  assert (Game_checkWin (board m) = 1 ->
          returns (AI_minimax depth isMax) m (-10 + depth)) as HX.
  { intros H. apply (returns_eq _ _ _ _ (AI_minimax_run depth isMax m)).
    now apply minimax_val_X. }
  assert (Game_checkWin (board m) = 0 ->
          returns (AI_minimax depth isMax) m 0) as HD.
  { intros H. apply (returns_eq _ _ _ _ (AI_minimax_run depth isMax m)).
    now apply minimax_val_draw. }
  repeat split; try assumption.
  - intros H1 H2. apply HO. now apply line_O_checkWin.
  - intros H1 H2. apply HX.
    rewrite (sole_line_checkWin (board m) "X");
      [reflexivity | discriminate | exact H1 | exact H2].
  - intros H1 H2. apply HD. rewrite (no_line_checkWin _ H1).
    rewrite isMovesLeft_legal, H2. reflexivity.
  - intros H1 H2 H3.
    apply (returns_eq _ _ _ _ (AI_minimax_run 0 isMax m)).
    now apply minimax_val_win_in_one.
  - intros H2 H3.
    apply (returns_eq _ _ _ _ (AI_minimax_run 0 0 m)).
    now apply minimax_val_loss_in_one.
Qed.

Lemma AI_minimax_depth_bias_witness :
  returns (AI_minimax 3 1) (start column_board) (10 - 3) /\
  returns (AI_minimax 0 1) (start win_in_one_board) 9.
Proof.
  split.
  - apply (proj1 (AI_minimax_depth_bias (start column_board) 3 1
                    ltac:(unfold INT_MAX; lia))).
    reflexivity.
  - apply (proj1 (proj2 (proj2 (proj2 (proj2 (proj2 (proj2
             (AI_minimax_depth_bias (start win_in_one_board) 0 1
                ltac:(unfold INT_MAX; lia))))))))).
    + discriminate.
    + reflexivity.
    + exists (0, 2). split; [cbn; tauto | reflexivity].
Defined.

(* ================================================================== *)
(** * The scan of the candidate moves                                  *)
(* ================================================================== *)

Lemma move_score_val b p : move_score b p = Some (top_val b p).
Proof.
  unfold move_score.
  change ((makeMove (fst p) (snd p) "O" ;;; AI_minimax 0 0) (start b))
    with (AI_minimax 0 0 (moved (start b) (fst p) (snd p) "O")).
  destruct (AI_minimax_run 0 0 (moved (start b) (fst p) (snd p) "O"))
    as [m' [H _]].
  rewrite H. reflexivity.
Qed.

Lemma top_visit_ok b i j m :
  In (i, j) cells -> cell b i j = " " ->
  board m = Game_makeMove b i j "O" ->
  returns (AI_minimax 0 0) m (top_val b (i, j)).
Proof.
  intros _ _ Hb. unfold top_val. cbn [fst snd]. rewrite <- Hb.
  apply AI_minimax_run.
Qed.

Lemma scan_moves_run self m : returns (scan_moves self) m (scan_val (board m)).
Proof.
  unfold scan_val, scan_fold, legalMoves. rewrite <- fold_left_filter.
  refine (try_cells_run "O" (AI_minimax 0 0) (top_val (board m))
            (fun st i j moveVal =>
               (if verbose self >=? 2 then printf (PrintScore i j moveVal)
                else ret tt) ;;;
               ret (mkScan
                      (if moveVal >? bestVal st then moveVal else bestVal st)
                      (if moveVal >? bestVal st then mkMove i j else bestMove st)
                      (cand st ++ [mkCand i j moveVal])))
            scan_step (board m) _ _ _ cells (incl_refl _) _ m eq_refl).
  - discriminate.
  - intros i j m'. apply top_visit_ok.
  - intros st i j v m'.
    destruct (verbose self >=? 2);
      eapply returns_still; unfold bind, printf, ret; reflexivity.
Qed.

Lemma AI_findBestMove_run self rnd m :
  returns (AI_findBestMove self rnd) m (chosen self rnd (scan_val (board m))).
Proof.
  unfold AI_findBestMove, AI_findBestMove_impl.
  apply (returns_bind _ _ _ tt);
    [eapply returns_still; unfold reset_counters; reflexivity | ].
  intros m0 Hb0. rewrite <- Hb0.
  apply (returns_bind _ _ _ (scan_val (board m0))); [apply scan_moves_run | ].
  intros m1 _. unfold chosen.
  destruct (Z.of_nat (length (cand (scan_val (board m0)))) =? 0);
    [apply returns_ret | ].
  destruct (select self rnd (scan_val (board m0))) as [mv bv]. cbn [fst].
  apply (returns_bind _ _ _ tt); [ | intros; apply returns_ret].
  destruct (verbose self >=? 1); [ | apply returns_ret].
  destruct (bv >? 0);
    [eapply returns_still; unfold printf; reflexivity | ].
  destruct (bv <? 0); eapply returns_still; unfold printf; reflexivity.
Qed.

Section ScanFold.

Variable f : Z * Z -> Z.

Lemma scan_fold_cand l st :
  cand (scan_fold f l st) =
  cand st ++ map (fun p => mkCand (fst p) (snd p) (f p)) l.
Proof.
  revert st. induction l as [| p l IH]; intros st.
  - cbn. now rewrite app_nil_r.
  - unfold scan_fold in *. cbn [fold_left map]. rewrite IH.
    cbn [cand scan_step]. now rewrite <- app_assoc.
Qed.

(** The running best after the scan: the start values when no score
    exceeds them, else the first move whose score is the largest. *)
Lemma scan_fold_best l st :
  (bestVal (scan_fold f l st) = bestVal st /\
   bestMove (scan_fold f l st) = bestMove st /\
   forall q, In q l -> f q <= bestVal st) \/
  (exists l1 p l2,
     l = l1 ++ p :: l2 /\
     bestMove (scan_fold f l st) = mkMove (fst p) (snd p) /\
     bestVal (scan_fold f l st) = f p /\ bestVal st < f p /\
     (forall q, In q l1 -> f q < f p) /\
     (forall q, In q l2 -> f q <= f p)).
Proof.
  revert st. induction l as [| x l IH]; intros st.
  - left. repeat split. intros q [].
  - change (scan_fold f (x :: l) st)
      with (scan_fold f l (scan_step st x (f x))).
    specialize (IH (scan_step st x (f x))).
    assert (bestVal (scan_step st x (f x)) =
            if f x >? bestVal st then f x else bestVal st) as Hv
        by reflexivity.
    assert (bestMove (scan_step st x (f x)) =
            if f x >? bestVal st then mkMove (fst x) (snd x) else bestMove st)
        as Hm by reflexivity.
    rewrite Hv, Hm in IH. clear Hv Hm.
    destruct (Z.gtb_spec (f x) (bestVal st)) as [G | G].
    + right.
      destruct IH
        as [[E1 [E2 Hall]] | [l1 [p [l2 [E [Em [Ev [Hlt [H1 H2]]]]]]]]].
      * exists [], x, l. repeat split; try assumption; try lia.
        intros q [].
      * exists (x :: l1), p, l2. repeat split; try assumption; try lia.
        -- cbn. now rewrite E.
        -- intros q [<- | Hq]; [lia | now apply H1].
    + destruct IH
        as [[E1 [E2 Hall]] | [l1 [p [l2 [E [Em [Ev [Hlt [H1 H2]]]]]]]]].
      * left. repeat split; try assumption.
        intros q [<- | Hq]; [lia | now apply Hall].
      * right. exists (x :: l1), p, l2. repeat split; try assumption; try lia.
        -- cbn. now rewrite E.
        -- intros q [<- | Hq]; [lia | now apply H1].
Qed.

End ScanFold.

Lemma top_val_bounds b p : -10 <= top_val b p <= 10.
Proof.
  unfold top_val.
  pose proof (blanks_le_9 (Game_makeMove b (fst p) (snd p) "O")) as H9.
  pose proof (minimax_val_range 10 0 0 (Game_makeMove b (fst p) (snd p) "O")
                ltac:(lia) ltac:(lia) ltac:(lia)) as R.
  unfold in_range in R. lia.
Qed.

Lemma chosen_optimal self rnd st :
  difficulty self = 2 -> chosen self rnd st = bestMove st.
Proof.
  intros H. unfold chosen, select. rewrite H. cbn [Z.eqb Pos.eqb fst].
  destruct (Z.of_nat (length (cand st)) =? 0); reflexivity.
Qed.

(** On a board with a legal move the scan ends on the first legal move
    whose score is the largest. *)
Lemma scan_val_best b :
  legalMoves b <> [] ->
  exists l1 p l2,
    legalMoves b = l1 ++ p :: l2 /\
    bestMove (scan_val b) = mkMove (fst p) (snd p) /\
    bestVal (scan_val b) = top_val b p /\
    (forall q, In q l1 -> top_val b q < top_val b p) /\
    (forall q, In q l2 -> top_val b q <= top_val b p).
Proof.
  intros Hne. unfold scan_val.
  destruct (scan_fold_best (top_val b) (legalMoves b) scan0)
    as [[_ [_ Hall]] | [l1 [p [l2 [E [Em [Ev [_ [H1 H2]]]]]]]]].
  - destruct (legalMoves b) as [| q l]; [congruence | ].
    specialize (Hall q (or_introl eq_refl)).
    pose proof (top_val_bounds b q).
    change (bestVal scan0) with (- INT_MAX) in Hall.
    unfold INT_MAX in Hall. lia.
  - exists l1, p, l2. repeat split; assumption.
Qed.

Lemma ongoing_legal b : Game_checkWin b = 2 -> legalMoves b <> [].
Proof. intros H. now apply moves_left_legal, ongoing_moves_left. Qed.

(** C2.  On every ongoing board, with difficulty 2, best-move selection
    returns the first of the legal moves, taken in row-major order, whose
    top-level minimax score is the largest: the legal moves before it score
    strictly less, those after it score no more.  The move depends on the
    board only (not on the counters, the output so far, the verbosity or
    the random draw), and a second call right after the first returns the
    same move. *)
Theorem AI_findBestMove_optimal self rnd m :
  difficulty self = 2 -> Game_checkWin (board m) = 2 ->
  exists mv best l1 l2,
    returns (AI_findBestMove self rnd) m mv /\
    legalMoves (board m) = l1 ++ (row mv, col mv) :: l2 /\
    move_score (board m) (row mv, col mv) = Some best /\
    (forall q, In q l1 ->
       exists v, move_score (board m) q = Some v /\ v < best) /\
    (forall q, In q l2 ->
       exists v, move_score (board m) q = Some v /\ v <= best) /\
    (forall self' rnd' m',
       difficulty self' = 2 -> board m' = board m ->
       returns (AI_findBestMove self' rnd') m' mv) /\
    returns (mv1 <- AI_findBestMove self rnd ;;
             mv2 <- AI_findBestMove self rnd ;;
             ret (mv1, mv2)) m (mv, mv).
Proof.
  intros Hd Hon.
  destruct (scan_val_best (board m) (ongoing_legal _ Hon))
    as [l1 [[i j] [l2 [E [Em [Ev [H1 H2]]]]]]].
  assert (forall self' rnd' m',
            difficulty self' = 2 -> board m' = board m ->
            returns (AI_findBestMove self' rnd') m' (mkMove i j)) as Hpure.
  { intros self' rnd' m' Hd' Hb'.
    apply (returns_eq _ _ _ _ (AI_findBestMove_run self' rnd' m')).
    rewrite (chosen_optimal _ _ _ Hd'), Hb'. exact Em. }
  exists (mkMove i j), (top_val (board m) (i, j)), l1, l2.
  cbn [row col].
  split; [now apply Hpure | ].
  split; [exact E | ].
  split; [apply move_score_val | ].
  split; [intros q Hq; exists (top_val (board m) q); split;
          [apply move_score_val | now apply H1] | ].
  split; [intros q Hq; exists (top_val (board m) q); split;
          [apply move_score_val | now apply H2] | ].
  split; [exact Hpure | ].
  apply (returns_bind _ _ _ (mkMove i j)); [now apply Hpure | ].
  intros m1 Hb1.
  apply (returns_bind _ _ _ (mkMove i j)); [now apply Hpure | ].
  intros m2 Hb2. apply returns_ret.
Qed.

Lemma AI_findBestMove_optimal_witness :
  exists mv best l1 l2,
    returns (AI_findBestMove AI_init 0) (start win_in_one_board) mv /\
    legalMoves win_in_one_board = l1 ++ (row mv, col mv) :: l2 /\
    move_score win_in_one_board (row mv, col mv) = Some best /\
    (forall q, In q l1 ->
       exists v, move_score win_in_one_board q = Some v /\ v < best) /\
    (forall q, In q l2 ->
       exists v, move_score win_in_one_board q = Some v /\ v <= best) /\
    (forall self' rnd' m',
       difficulty self' = 2 -> board m' = win_in_one_board ->
       returns (AI_findBestMove self' rnd') m' mv) /\
    returns (mv1 <- AI_findBestMove AI_init 0 ;;
             mv2 <- AI_findBestMove AI_init 0 ;;
             ret (mv1, mv2)) (start win_in_one_board) (mv, mv).
Proof.
  apply (AI_findBestMove_optimal AI_init 0 (start win_in_one_board));
    reflexivity.
Defined.

(** The scenario of the specification: 'O' on (0,0) and (0,1), 'X' on
    (1,0) and (2,0); the engine completes the top row, a move scored
    10 - 0. *)
Example AI_findBestMove_completes_row :
  option_map fst (AI_findBestMove AI_init 0 (start win_in_one_board))
    = Some (mkMove 0 2) /\
  move_score win_in_one_board (0, 2) = Some 10.
Proof. split; vm_compute; reflexivity. Qed.

(* ================================================================== *)
(** * The bounded tier                                                 *)
(* ================================================================== *)

Lemma build_pool_spec thr cands :
  forall k0 k,
    In k (build_pool thr cands k0) <->
    k0 <= k < k0 + Z.of_nat (length cands) /\
    thr <= score (nth (Z.to_nat (k - k0)) cands (mkCand 0 0 0)).
Proof.
  induction cands as [| x cands IH]; intros k0 k.
  - cbn. split; [intros [] | lia].
  - cbn [build_pool]. cbn [length].
    assert (forall K : Prop,
              (In k (build_pool thr cands (k0 + 1)) \/ K) <->
              ((k0 + 1 <= k < k0 + 1 + Z.of_nat (length cands) /\
                thr <= score (nth (Z.to_nat (k - (k0 + 1))) cands
                                  (mkCand 0 0 0))) \/ K)) as IH'
        by (intros K; rewrite IH; tauto).
    assert (k0 < k ->
            nth (Z.to_nat (k - k0)) (x :: cands) (mkCand 0 0 0) =
            nth (Z.to_nat (k - (k0 + 1))) cands (mkCand 0 0 0)) as Hnth.
    { intros Hlt. replace (Z.to_nat (k - k0))
        with (S (Z.to_nat (k - (k0 + 1)))) by lia. reflexivity. }
    destruct (Z.geb_spec (score x) thr) as [G | G].
    + cbn [In]. rewrite or_comm, IH'. split.
      * intros [[Hr Hs] | <-].
        -- rewrite Hnth by lia. split; [lia | exact Hs].
        -- rewrite Z.sub_diag. cbn. split; [lia | lia].
      * intros [Hr Hs]. destruct (Z.eq_dec k k0) as [-> | Hne];
          [now right | left].
        rewrite Hnth in Hs by lia. split; [lia | exact Hs].
    + rewrite IH. split.
      * intros [Hr Hs]. rewrite Hnth by lia. split; [lia | exact Hs].
      * intros [Hr Hs]. destruct (Z.eq_dec k k0) as [-> | Hne].
        -- rewrite Z.sub_diag in Hs. cbn in Hs. lia.
        -- rewrite Hnth in Hs by lia. split; [lia | exact Hs].
Qed.

Lemma pick_from_in pool rnd :
  pool <> [] -> 0 <= rnd -> In (pick_from pool rnd) pool.
Proof.
  intros Hne Hr. unfold pick_from. apply nth_In.
  assert (0 < Z.of_nat (length pool))
    by (destruct pool; [congruence | cbn [length]; lia]).
  pose proof (Z.rem_bound_pos rnd (Z.of_nat (length pool)) Hr H). lia.
Qed.

Lemma cand_at_in cands k :
  0 <= k < Z.of_nat (length cands) -> In (cand_at cands k) cands.
Proof. intros H. unfold cand_at. apply nth_In. lia. Qed.

Lemma threshold_max bv :
  (if bv - 2 <? -10 then -10 else bv - 2) = Z.max (bv - 2) (-10).
Proof. destruct (Z.ltb_spec (bv - 2) (-10)); lia. Qed.

Lemma scan_val_cand b :
  cand (scan_val b) =
  map (fun p => mkCand (fst p) (snd p) (top_val b p)) (legalMoves b).
Proof. unfold scan_val. now rewrite scan_fold_cand. Qed.

Lemma candidates_of_moves b l :
  Forall2 (fun p x => r x = fst p /\ c x = snd p /\
                      move_score b p = Some (score x))
          l (map (fun p => mkCand (fst p) (snd p) (top_val b p)) l).
Proof.
  induction l as [| p l IH]; cbn [map]; constructor; [ | exact IH].
  cbn [r c score]. repeat split. apply move_score_val.
Qed.

(** The candidate scores against the running best of the scan. *)
Lemma scan_val_max b :
  legalMoves b <> [] ->
  (forall x, In x (cand (scan_val b)) -> score x <= bestVal (scan_val b)) /\
  (exists x, In x (cand (scan_val b)) /\ score x = bestVal (scan_val b)) /\
  -10 <= bestVal (scan_val b).
Proof.
  intros Hne.
  destruct (scan_val_best b Hne) as [l1 [p [l2 [E [_ [Ev [H1 H2]]]]]]].
  rewrite scan_val_cand, Ev, E. split; [ | split].
  - intros x Hx. apply in_map_iff in Hx. destruct Hx as [q [<- Hq]].
    cbn [score]. apply in_app_or in Hq.
    destruct Hq as [Hq | [<- | Hq]];
      [specialize (H1 q Hq); lia | lia | now apply H2].
  - exists (mkCand (fst p) (snd p) (top_val b p)). split; [ | reflexivity].
    apply in_map_iff. exists p. split; [reflexivity | ].
    apply in_or_app. right. now left.
  - apply top_val_bounds.
Qed.

Lemma select_bounded self rnd st :
  difficulty self = 1 ->
  build_pool (Z.max (bestVal st - 2) (-10)) (cand st) 0 <> [] ->
  fst (select self rnd st) =
  let pick := pick_from (build_pool (Z.max (bestVal st - 2) (-10)) (cand st) 0)
                        rnd in
  mkMove (r (cand_at (cand st) pick)) (c (cand_at (cand st) pick)).
Proof.
  intros Hd Hne. unfold select. rewrite Hd. cbn [Z.eqb Pos.eqb].
  rewrite threshold_max. cbv zeta.
  destruct (build_pool (Z.max (bestVal st - 2) (-10)) (cand st) 0) as [| k pool];
    [congruence | ].
  replace (Z.of_nat (length (k :: pool)) >? 0) with true; [reflexivity | ].
  symmetry. apply Z.gtb_lt. cbn [length]. lia.
Qed.

(** C5.  On every ongoing board, with difficulty 1 and whatever [rand()]
    returns, the scan records one candidate per legal move with its
    top-level minimax score; with best the largest of these scores and
    threshold = max(best - 2, -10), the pool holds exactly the indices of
    the candidates whose score is at least the threshold, and the move
    returned is the candidate at an index of the pool, so its score is at
    least the threshold. *)
Theorem AI_findBestMove_bounded self rnd m :
  difficulty self = 1 -> Game_checkWin (board m) = 2 -> 0 <= rnd ->
  exists mv st pool pick,
    returns (AI_findBestMove self rnd) m mv /\
    returns (scan_moves self) m st /\
    Forall2 (fun p x => r x = fst p /\ c x = snd p /\
                        move_score (board m) p = Some (score x))
            (legalMoves (board m)) (cand st) /\
    (forall x, In x (cand st) -> score x <= bestVal st) /\
    (exists x, In x (cand st) /\ score x = bestVal st) /\
    pool = build_pool (Z.max (bestVal st - 2) (-10)) (cand st) 0 /\
    (forall k, In k pool <->
               0 <= k < Z.of_nat (length (cand st)) /\
               Z.max (bestVal st - 2) (-10) <= score (cand_at (cand st) k)) /\
    pick = pick_from pool rnd /\ In pick pool /\
    mv = mkMove (r (cand_at (cand st) pick)) (c (cand_at (cand st) pick)) /\
    Z.max (bestVal st - 2) (-10) <= score (cand_at (cand st) pick) /\
    In (row mv, col mv) (legalMoves (board m)) /\
    move_score (board m) (row mv, col mv) =
      Some (score (cand_at (cand st) pick)).
Proof.
  intros Hd Hon Hrnd.
  pose proof (ongoing_legal _ Hon) as Hne.
  set (st := scan_val (board m)).
  set (thr := Z.max (bestVal st - 2) (-10)).
  set (pool := build_pool thr (cand st) 0).
  destruct (scan_val_max (board m) Hne) as [Hle [[x [Hx Hxs]] Hlow]].
  fold st in Hle, Hx, Hxs, Hlow.
  assert (forall k, In k pool <->
            0 <= k < Z.of_nat (length (cand st)) /\
            thr <= score (cand_at (cand st) k)) as Hpool.
  { intros k. unfold pool. rewrite build_pool_spec.
    rewrite Z.sub_0_r, Z.add_0_l. reflexivity. }
  assert (pool <> []) as Hpne.
  { destruct (In_nth _ _ (mkCand 0 0 0) Hx) as [n [Hn Hnth]].
    assert (In (Z.of_nat n) pool) as Hin.
    { apply Hpool. split; [lia | ].
      unfold cand_at. rewrite Nat2Z.id, Hnth, Hxs. unfold thr. lia. }
    intros E. rewrite E in Hin. destruct Hin. }
  pose proof (pick_from_in pool rnd Hpne Hrnd) as Hpick.
  pose proof (proj1 (Hpool _) Hpick) as [Hrange Hthr].
  pose proof (cand_at_in _ _ Hrange) as Hcin.
  unfold st in Hcin at 2. rewrite scan_val_cand in Hcin.
  apply in_map_iff in Hcin. destruct Hcin as [[i j] [Ep Hp]].
  exists (mkMove (r (cand_at (cand st) (pick_from pool rnd)))
                 (c (cand_at (cand st) (pick_from pool rnd)))),
         st, pool, (pick_from pool rnd).
  split.
  { apply (returns_eq _ _ _ _ (AI_findBestMove_run self rnd m)).
    unfold chosen. fold st.
    replace (Z.of_nat (length (cand st)) =? 0) with false
      by (symmetry; apply Z.eqb_neq; lia).
    now apply select_bounded. }
  split; [apply scan_moves_run | ].
  split; [unfold st; rewrite scan_val_cand; apply candidates_of_moves | ].
  split; [exact Hle | ].
  split; [now exists x | ].
  split; [reflexivity | ].
  split; [exact Hpool | ].
  split; [reflexivity | ].
  split; [exact Hpick | ].
  split; [reflexivity | ].
  split; [exact Hthr | ].
  cbn [row col]. rewrite <- Ep. cbn [r c score fst snd].
  split; [exact Hp | apply move_score_val].
Qed.

Lemma AI_findBestMove_bounded_witness :
  exists mv st pool pick,
    returns (AI_findBestMove (mkAI 1 0) 7) (start win_in_one_board) mv /\
    returns (scan_moves (mkAI 1 0)) (start win_in_one_board) st /\
    Forall2 (fun p x => r x = fst p /\ c x = snd p /\
                        move_score win_in_one_board p = Some (score x))
            (legalMoves win_in_one_board) (cand st) /\
    (forall x, In x (cand st) -> score x <= bestVal st) /\
    (exists x, In x (cand st) /\ score x = bestVal st) /\
    pool = build_pool (Z.max (bestVal st - 2) (-10)) (cand st) 0 /\
    (forall k, In k pool <->
               0 <= k < Z.of_nat (length (cand st)) /\
               Z.max (bestVal st - 2) (-10) <= score (cand_at (cand st) k)) /\
    pick = pick_from pool 7 /\ In pick pool /\
    mv = mkMove (r (cand_at (cand st) pick)) (c (cand_at (cand st) pick)) /\
    Z.max (bestVal st - 2) (-10) <= score (cand_at (cand st) pick) /\
    In (row mv, col mv) (legalMoves win_in_one_board) /\
    move_score win_in_one_board (row mv, col mv) =
      Some (score (cand_at (cand st) pick)).
Proof.
  apply (AI_findBestMove_bounded (mkAI 1 0) 7 (start win_in_one_board));
    [reflexivity | reflexivity | lia].
Defined.

(* ================================================================== *)
(** * Prediction and explanation                                       *)
(* ================================================================== *)

Lemma AI_getPrediction_run ai m :
  returns (AI_getPrediction ai) m (verdict (pred_val (board m))).
Proof.
  unfold AI_getPrediction.
  apply (returns_bind _ _ _ (pred_val (board m))).
  - refine (try_cells_run "O" (AI_minimax 0 0) (top_val (board m))
              (fun bestVal _ _ mv => ret (if mv >? bestVal then mv else bestVal))
              (fun best _ v => keep_max v best)
              (board m) _ _ _ cells (incl_refl _) _ m eq_refl).
    + discriminate.
    + intros i j m'. apply top_visit_ok.
    + intros. apply returns_ret.
  - intros m' _. unfold verdict.
    destruct (pred_val (board m) >? 0); [apply returns_ret | ].
    destruct (pred_val (board m) <? 0); apply returns_ret.
Qed.

Lemma AI_explain_run ai maxOut m :
  returns (AI_explain ai maxOut) m (explain_val maxOut (board m)).
Proof.
  unfold AI_explain, returns. unfold bind at 1, reset_counters at 1.
  refine (try_cells_run "O" (AI_minimax 0 0) (top_val (board m))
            (fun no i j mv =>
               ret (fst no + 1,
                    if fst no <? maxOut then snd no ++ [mkCand i j mv]
                    else snd no))
            (fun no p v =>
               (fst no + 1,
                if fst no <? maxOut then snd no ++ [mkCand (fst p) (snd p) v]
                else snd no))
            (board m) _ _ _ cells (incl_refl _) _
            (mkMem (board m) 0 0 (stdout m) (calls m)) eq_refl).
  - discriminate.
  - intros i j m'. apply top_visit_ok.
  - intros. apply returns_ret.
Qed.

(** C6.  For every board, best-move selection (any difficulty, any random
    draw), prediction, explanation and the search itself return and leave
    the board equal to what it was before the call.  The calls of
    [makeMove] made in between are paired: each placement of a symbol is
    answered, after calls that are paired themselves, by a blank written to
    the same cell, and no other call occurs.  Such a pair, made on a blank
    cell, restores the board. *)
Theorem search_restores_board (self : AI) (rnd maxOut depth isMax : Z) (m : Mem) :
  (exists mv m', AI_findBestMove self rnd m = Some (mv, m') /\
     board m' = board m /\
     exists tr, calls m' = tr ++ calls m /\ paired tr) /\
  (exists v m', AI_getPrediction self m = Some (v, m') /\
     board m' = board m /\
     exists tr, calls m' = tr ++ calls m /\ paired tr) /\
  (exists res m', AI_explain self maxOut m = Some (res, m') /\
     board m' = board m /\
     exists tr, calls m' = tr ++ calls m /\ paired tr) /\
  (exists v m', AI_minimax depth isMax m = Some (v, m') /\
     board m' = board m /\
     exists tr, calls m' = tr ++ calls m /\ paired tr) /\
  (forall i j s, In (i, j) (legalMoves (board m)) ->
     Game_makeMove (Game_makeMove (board m) i j s) i j " " = board m).
Proof.
  split; [ | split; [ | split; [ | split]]].
  - destruct (AI_findBestMove_run self rnd m) as [m' H]. eauto.
  - destruct (AI_getPrediction_run self m) as [m' H]. eauto.
  - destruct (AI_explain_run self maxOut m) as [m' H]. eauto.
  - destruct (AI_minimax_run depth isMax m) as [m' H]. eauto.
  - intros i j s Hin. apply legal_move_in in Hin. destruct Hin as [Hin Hb].
    apply undo_move; [exact Hin | exact (blank_cell _ _ Hb)].
Qed.

Lemma search_restores_board_witness :
  Game_makeMove (Game_makeMove win_in_one_board 0 2 "O") 0 2 " " =
  win_in_one_board.
Proof.
  apply (proj2 (proj2 (proj2 (proj2
           (search_restores_board AI_init 0 9 0 0 (start win_in_one_board)))))
           0 2 "O").
  vm_compute. tauto.
Defined.

Lemma pred_val_max b :
  legalMoves b <> [] ->
  (exists p, In p (legalMoves b) /\ pred_val b = top_val b p) /\
  (forall q, In q (legalMoves b) -> top_val b q <= pred_val b).
Proof.
  intros Hne.
  destruct (fold_keep_max_spec (top_val b) (blank b) cells (- INT_MAX))
    as [_ [Hub Hwit]].
  fold (pred_val b) in Hub, Hwit.
  assert (forall q, In q (legalMoves b) -> top_val b q <= pred_val b) as Hall.
  { intros q Hq. apply legal_move_in in Hq. now apply Hub. }
  split; [ | exact Hall].
  destruct Hwit as [Hinit | [p [Hp [Bp Hr]]]].
  - destruct (legalMoves b) as [| q l]; [congruence | ].
    specialize (Hall q (or_introl eq_refl)).
    pose proof (top_val_bounds b q). rewrite Hinit in Hall.
    unfold INT_MAX in Hall. lia.
  - exists p. split; [ | exact Hr].
    unfold legalMoves. apply filter_In. now split.
Qed.

Lemma verdict_sign v :
  (0 < v /\ verdict v = -1) \/ (v < 0 /\ verdict v = 1) \/
  (v = 0 /\ verdict v = 0).
Proof.
  unfold verdict.
  destruct (Z.gtb_spec v 0); [left; split; [lia | reflexivity] | ].
  destruct (Z.ltb_spec v 0); [right; left; split; [lia | reflexivity] | ].
  right; right. split; [lia | reflexivity].
Qed.

Lemma scan_fold_bestVal f l st :
  bestVal (scan_fold f l st) =
  fold_left (fun best p => keep_max (f p) best) l (bestVal st).
Proof.
  revert st. induction l as [| p l IH]; intros st; [reflexivity | ].
  change (scan_fold f (p :: l) st) with (scan_fold f l (scan_step st p (f p))).
  rewrite IH. reflexivity.
Qed.

(** The prediction reads the running best of the same scan. *)
Lemma pred_val_bestVal b : pred_val b = bestVal (scan_val b).
Proof.
  unfold pred_val, scan_val. rewrite scan_fold_bestVal.
  unfold legalMoves.
  now rewrite <- (fold_left_filter (blank b)
                    (fun best p => keep_max (top_val b p) best)).
Qed.

(** The scan of the blank board: every first move scores 0, and the
    first of them, (0,0), is kept. *)
Lemma scan_val_empty_board :
  scan_val Game_init =
  mkScan 0 (mkMove 0 0)
    [ mkCand 0 0 0; mkCand 0 1 0; mkCand 0 2 0;
      mkCand 1 0 0; mkCand 1 1 0; mkCand 1 2 0;
      mkCand 2 0 0; mkCand 2 1 0; mkCand 2 2 0 ].
Proof.
  vm_cast_no_check
    (eq_refl (mkScan 0 (mkMove 0 0)
                [ mkCand 0 0 0; mkCand 0 1 0; mkCand 0 2 0;
                  mkCand 1 0 0; mkCand 1 1 0; mkCand 1 2 0;
                  mkCand 2 0 0; mkCand 2 1 0; mkCand 2 2 0 ])).
Qed.

Lemma pred_val_empty_board : pred_val Game_init = 0.
Proof. rewrite pred_val_bestVal, scan_val_empty_board. reflexivity. Qed.

(** C9.  On every ongoing board the prediction is decided by the sign of
    the largest top-level minimax score over the legal moves: -1 ('O', the
    maximizer, wins) when it is positive, 1 ('X' wins) when it is negative,
    0 (draw) when it is zero.  The query takes no random input, and its
    result is the same for every engine configuration and every value of
    the counters.  On the blank board it is 0, a draw. *)
Theorem AI_getPrediction_sign :
  (forall self m, Game_checkWin (board m) = 2 ->
     exists best v,
       (exists p, In p (legalMoves (board m)) /\
                  move_score (board m) p = Some best) /\
       (forall q, In q (legalMoves (board m)) ->
                  exists w, move_score (board m) q = Some w /\ w <= best) /\
       returns (AI_getPrediction self) m v /\
       ((0 < best /\ v = -1) \/ (best < 0 /\ v = 1) \/ (best = 0 /\ v = 0)) /\
       (forall self' m', board m' = board m ->
                         returns (AI_getPrediction self') m' v)) /\
  (forall self m, board m = Game_init ->
                  returns (AI_getPrediction self) m 0).
Proof.
  split.
  - intros self m Hon.
    destruct (pred_val_max (board m) (ongoing_legal _ Hon))
      as [[p [Hp Ep]] Hall].
    exists (pred_val (board m)), (verdict (pred_val (board m))).
    split; [exists p; split; [exact Hp | rewrite Ep; apply move_score_val] | ].
    split; [intros q Hq; exists (top_val (board m) q); split;
            [apply move_score_val | now apply Hall] | ].
    split; [apply AI_getPrediction_run | ].
    split; [apply verdict_sign | ].
    intros self' m' Hb. rewrite <- Hb. apply AI_getPrediction_run.
  - intros self m Hb.
    apply (returns_eq _ _ _ _ (AI_getPrediction_run self m)).
    rewrite Hb, pred_val_empty_board. reflexivity.
Qed.

Lemma AI_getPrediction_sign_witness :
  exists best v,
    (exists p, In p (legalMoves win_in_one_board) /\
               move_score win_in_one_board p = Some best) /\
    (forall q, In q (legalMoves win_in_one_board) ->
               exists w, move_score win_in_one_board q = Some w /\ w <= best) /\
    returns (AI_getPrediction AI_init) (start win_in_one_board) v /\
    ((0 < best /\ v = -1) \/ (best < 0 /\ v = 1) \/ (best = 0 /\ v = 0)) /\
    (forall self' m', board m' = win_in_one_board ->
                      returns (AI_getPrediction self') m' v).
Proof.
  apply (proj1 AI_getPrediction_sign AI_init (start win_in_one_board)).
  reflexivity.
Defined.

(* ================================================================== *)
(** * The instrumentation counters                                     *)
(* ================================================================== *)

(** [AI_findBestMove] and [AI_explain] start by zeroing the counters:
    what they compute, counters included, does not depend on the values
    the counters had at entry. *)
Lemma AI_findBestMove_resets self rnd b n d out cs :
  AI_findBestMove self rnd (mkMem b n d out cs) =
  AI_findBestMove self rnd (mkMem b 0 0 out cs).
Proof. reflexivity. Qed.

Lemma AI_explain_resets self maxOut b n d out cs :
  AI_explain self maxOut (mkMem b n d out cs) =
  AI_explain self maxOut (mkMem b 0 0 out cs).
Proof. reflexivity. Qed.

(** [AI_getPrediction] has no such prologue: it visits one node on this
    board, and the counters at exit are the counters at entry plus that
    visit. *)
Lemma AI_getPrediction_keeps_counters self n d out cs :
  AI_getPrediction self (mkMem last_cell_board n d out cs) =
  Some (0, mkMem last_cell_board (n + 1) (if 0 >? d then 0 else d) out
                 ((2, 2, " ") :: (2, 2, "O") :: cs)).
Proof. reflexivity. Qed.

(** C8 (the code against the claim).  On [last_cell_board], a best-move
    call leaves the counters at (1, 0) and so does an explanation, each
    whatever came before; a prediction that follows a best-move call
    leaves them at (2, 0), the total of the two calls, where a reset at
    its start would leave (1, 0). *)
Theorem AI_getPrediction_adds_to_counters :
  option_map fst
    ((AI_findBestMove AI_init 0 ;;; AI_getStats AI_init)
       (start last_cell_board)) = Some (1, 0) /\
  option_map fst
    ((AI_findBestMove AI_init 0 ;;; AI_explain AI_init 9 ;;;
      AI_getStats AI_init) (start last_cell_board)) = Some (1, 0) /\
  option_map fst
    ((AI_findBestMove AI_init 0 ;;; AI_getPrediction AI_init ;;;
      AI_getStats AI_init) (start last_cell_board)) = Some (2, 0).
Proof. repeat split; vm_compute; reflexivity. Qed.

(* ================================================================== *)
(** * The automated match                                              *)
(* ================================================================== *)

Lemma match_loop_run fuel :
  forall ai1 ai2 rnd turn m res b',
    difficulty ai1 = 2 -> difficulty ai2 = 2 ->
    match_val fuel turn (board m) = Some (res, b') ->
    exists m', match_loop fuel ai1 ai2 rnd turn m = Some (res, m') /\
               board m' = b'.
Proof.
  induction fuel as [| fuel IH]; intros ai1 ai2 rnd turn m res b' H1 H2 Hv;
    [discriminate | ].
  cbn [match_loop match_val] in *. cbv zeta in Hv.
  unfold bind at 1, checkWin at 1.
  destruct (Game_checkWin (board m) =? 1);
    [injection Hv as <- <-; exists m; split; reflexivity | ].
  destruct (Game_checkWin (board m) =? -1);
    [injection Hv as <- <-; exists m; split; reflexivity | ].
  destruct (Game_checkWin (board m) =? 0);
    [injection Hv as <- <-; exists m; split; reflexivity | ].
  destruct (AI_findBestMove_run (if turn =? 0 then ai1 else ai2)
              (rnd fuel) m) as [m1 [Hf [Hb1 _]]].
  rewrite chosen_optimal in Hf by (destruct (turn =? 0); assumption).
  unfold bind at 1. rewrite Hf.
  unfold bind at 1, makeMove at 1.
  apply IH; [assumption | assumption | ].
  cbn [board]. rewrite Hb1. exact Hv.
Qed.

Lemma match_val_ongoing fuel turn b :
  Game_checkWin b = 2 ->
  match_val (S fuel) turn b =
  match_val fuel (1 - turn)
    (Game_makeMove b (row (bestMove (scan_val b))) (col (bestMove (scan_val b)))
       (if turn =? 0 then "X" else "O")).
Proof. intros H. cbn [match_val]. rewrite H. reflexivity. Qed.

(** After the opening move on (0,0). *)
Lemma match_val_second_round :
  match_val 9 1 (Game_makeMove Game_init 0 0 "X") =
  Some (0, mkBoard "X" "X" "O"
                   "O" "O" "X"
                   "X" "O" "X").
Proof.
  vm_cast_no_check
    (eq_refl (Some (0, mkBoard "X" "X" "O" "O" "O" "X" "X" "O" "X"))).
Qed.

Lemma match_val_optimal :
  match_val 10 0 Game_init =
  Some (0, mkBoard "X" "X" "O"
                   "O" "O" "X"
                   "X" "O" "X").
Proof.
  rewrite (match_val_ongoing 9 0 Game_init eq_refl).
  rewrite scan_val_empty_board.
  exact match_val_second_round.
Qed.

(** C4.  The automated match of two engines of difficulty 2, played from
    the blank board with every move of both sides taken from best-move
    selection (the first engine places 'X' on the cell its call returns,
    the second places 'O', in turn), runs to its end and ends in a draw:
    the loop stops on the result 0, never on 1 or -1, on the full board
    X X O / O O X / X O X, on which neither mark holds a row, a column or
    a diagonal; its terminal classification is Draw, and so says
    [Game_checkWin].  Difficulty 2 draws no random number and the moves
    do not depend on the counters, so this is the only game. *)
Theorem playAIVsAI_optimal_draw (rnd : nat -> Z) (m : Mem) :
  exists m', playAIVsAI 2 2 rnd m = Some (0, m') /\
             Game_checkWin (board m') = 0 /\
             legalMoves (board m') = [] /\
             terminalResult (board m') = Draw /\
             (forall s, s <> " " -> ~ has_line (board m') s) /\
             board m' = mkBoard "X" "X" "O"
                                "O" "O" "X"
                                "X" "O" "X".
Proof.
  unfold playAIVsAI.
  destruct (match_loop_run 10
              (AI_setVerbose (AI_setDifficulty AI_init 2) 2)
              (AI_setVerbose (AI_setDifficulty AI_init 2) 2) rnd 0
              (mkMem Game_init (g_nodesSearched m) (g_maxDepthReached m)
                     (stdout m) (calls m))
              0 _ eq_refl eq_refl match_val_optimal) as [m' [Hrun Hb]].
  exists m'. split; [exact Hrun | ]. rewrite Hb.
  split; [reflexivity | ]. split; [reflexivity | ].
  split; [reflexivity | ]. split; [ | reflexivity].
  intros s Hs [l [Hl Hline]].
  assert (full_line (mkBoard "X" "X" "O" "O" "O" "X" "X" "O" "X") l
          = Some s) as Hfull by (apply full_line_spec; now split).
  rewrite (first_full_none (mkBoard "X" "X" "O" "O" "O" "X" "X" "O" "X")
             lines eq_refl l Hl) in Hfull.
  discriminate.
Qed.


(* ================================================================== *)
(** * Further properties of the engine                                 *)
(* ================================================================== *)

(** Every candidate of the scan is a legal move with its score. *)
Lemma cand_legal b x :
  In x (cand (scan_val b)) ->
  In (r x, c x) (legalMoves b) /\ move_score b (r x, c x) = Some (score x).
Proof.
  rewrite scan_val_cand. intros H. apply in_map_iff in H.
  destruct H as [[i j] [<- Hp]]. cbn [r c score fst snd].
  split; [exact Hp | apply move_score_val].
Qed.

Lemma cand_length b :
  length (cand (scan_val b)) = length (legalMoves b).
Proof. rewrite scan_val_cand. apply length_map. Qed.

Lemma all_pool_spec cands :
  forall k0 k, In k (all_pool cands k0) <->
               k0 <= k < k0 + Z.of_nat (length cands).
Proof.
  induction cands as [| x cands IH]; intros k0 k; cbn [all_pool length In].
  - lia.
  - rewrite IH. lia.
Qed.

Lemma all_pool_length cands k0 : length (all_pool cands k0) = length cands.
Proof.
  revert k0. induction cands as [| x cands IH]; intros k0; cbn;
    [reflexivity | now rewrite IH].
Qed.

Lemma all_pool_nth cands :
  forall k0 n, (n < length cands)%nat ->
               nth n (all_pool cands k0) 0 = k0 + Z.of_nat n.
Proof.
  induction cands as [| x cands IH]; intros k0 n Hn; cbn in *; [lia | ].
  destruct n as [| n]; [lia | ]. rewrite IH by lia. lia.
Qed.

(** With a legal move on the board the pool of the middle tier is not
    empty: the best candidate is in it. *)
Lemma bounded_pool_nonempty b :
  legalMoves b <> [] ->
  build_pool (Z.max (bestVal (scan_val b) - 2) (-10)) (cand (scan_val b)) 0
    <> [].
Proof.
  intros Hne.
  destruct (scan_val_max b Hne) as [_ [[x [Hx Hxs]] Hlow]].
  destruct (In_nth _ _ (mkCand 0 0 0) Hx) as [n [Hn Hnth]].
  assert (In (Z.of_nat n)
            (build_pool (Z.max (bestVal (scan_val b) - 2) (-10))
                        (cand (scan_val b)) 0)) as Hin.
  { apply build_pool_spec. rewrite Z.sub_0_r, Nat2Z.id, Hnth, Hxs. lia. }
  intros E. rewrite E in Hin. destruct Hin.
Qed.

(** The move of the lowest tier: the candidate numbered [rnd % n]. *)
Lemma select_random self rnd st :
  difficulty self <> 2 -> difficulty self <> 1 ->
  fst (select self rnd st) =
  let pick := pick_from (all_pool (cand st) 0) rnd in
  mkMove (r (cand_at (cand st) pick)) (c (cand_at (cand st) pick)).
Proof.
  intros H2 H1. unfold select.
  destruct (Z.eqb_spec (difficulty self) 2) as [E | _]; [contradiction | ].
  destruct (Z.eqb_spec (difficulty self) 1) as [E | _]; [contradiction | ].
  reflexivity.
Qed.

(** Whatever the tier, the move chosen on a board with a legal move is
    one of the legal moves. *)
Lemma chosen_legal self rnd b :
  legalMoves b <> [] -> 0 <= rnd ->
  In (row (chosen self rnd (scan_val b)), col (chosen self rnd (scan_val b)))
     (legalMoves b).
Proof.
  intros Hne Hrnd. unfold chosen.
  assert (length (cand (scan_val b)) <> 0%nat) as Hlen
      by (rewrite cand_length; destruct (legalMoves b); [congruence | discriminate]).
  destruct (Z.eqb_spec (Z.of_nat (length (cand (scan_val b)))) 0) as [E | _];
    [lia | ].
  destruct (Z.eq_dec (difficulty self) 2) as [D2 | D2].
  - unfold select. rewrite D2. cbn [Z.eqb Pos.eqb fst].
    destruct (scan_val_best b Hne) as [l1 [[i j] [l2 [E [Em _]]]]].
    rewrite Em. cbn [row col fst snd]. rewrite E.
    apply in_or_app. right. now left.
  - destruct (Z.eq_dec (difficulty self) 1) as [D1 | D1].
    + rewrite (select_bounded self rnd _ D1 (bounded_pool_nonempty b Hne)).
      cbv zeta. cbn [row col].
      pose proof (pick_from_in _ rnd (bounded_pool_nonempty b Hne) Hrnd) as Hp.
      apply build_pool_spec in Hp. destruct Hp as [Hr _].
      apply cand_legal, cand_at_in. lia.
    + rewrite (select_random self rnd _ D2 D1). cbv zeta. cbn [row col].
      assert (all_pool (cand (scan_val b)) 0 <> []) as Hpne.
      { intros E. apply (f_equal (@length Z)) in E.
        rewrite all_pool_length in E. change (length (@nil Z)) with 0%nat in E.
        lia. }
      pose proof (pick_from_in _ rnd Hpne Hrnd) as Hp.
      apply all_pool_spec in Hp.
      apply cand_legal, cand_at_in. lia.
Qed.

(** X1.  Whatever the difficulty stored in the engine (the three tiers,
    or any other value), and whatever [rand()] returns, best-move selection
    on a board with a blank cell returns a blank cell of that board: the
    caller's [makeMove] on it never overwrites a mark nor leaves the
    array. *)
Theorem AI_findBestMove_legal self rnd m :
  legalMoves (board m) <> [] -> 0 <= rnd ->
  exists mv,
    returns (AI_findBestMove self rnd) m mv /\
    In (row mv, col mv) (legalMoves (board m)) /\
    0 <= row mv <= 2 /\ 0 <= col mv <= 2 /\
    cell (board m) (row mv) (col mv) = " ".
Proof.
  intros Hne Hrnd.
  exists (chosen self rnd (scan_val (board m))).
  split; [apply AI_findBestMove_run | ].
  pose proof (chosen_legal self rnd (board m) Hne Hrnd) as Hin.
  split; [exact Hin | ].
  apply legal_move_in in Hin. destruct Hin as [Hc Hb].
  apply in_cells_range in Hc. apply blank_cell in Hb. cbn [fst snd] in Hb.
  tauto.
Qed.

Lemma AI_findBestMove_legal_witness :
  exists mv,
    returns (AI_findBestMove (mkAI 0 0) 5) (start win_in_one_board) mv /\
    In (row mv, col mv) (legalMoves win_in_one_board) /\
    0 <= row mv <= 2 /\ 0 <= col mv <= 2 /\
    cell win_in_one_board (row mv) (col mv) = " ".
Proof.
  apply (AI_findBestMove_legal (mkAI 0 0) 5 (start win_in_one_board));
    [discriminate | lia].
Defined.

Lemma scan_val_full b : legalMoves b = [] -> scan_val b = scan0.
Proof. intros H. unfold scan_val. rewrite H. reflexivity. Qed.

(** X2.  On a board without a blank cell best-move selection returns the
    pair (-1,-1) for every difficulty and without looking at [rand()]; it
    is not a cell of the board, so a caller has to test for it (or for a
    finished game) before placing a symbol there. *)
Theorem AI_findBestMove_no_move self rnd m :
  legalMoves (board m) = [] ->
  returns (AI_findBestMove self rnd) m (mkMove (-1) (-1)) /\
  ~ In (-1, -1) cells.
Proof.
  intros H. split.
  - apply (returns_eq _ _ _ _ (AI_findBestMove_run self rnd m)).
    rewrite (scan_val_full _ H). reflexivity.
  - rewrite in_cells_range. lia.
Qed.

Lemma AI_findBestMove_no_move_witness :
  returns (AI_findBestMove (mkAI 0 2) (-7)) (start full_board)
          (mkMove (-1) (-1)).
Proof.
  apply (AI_findBestMove_no_move (mkAI 0 2) (-7) (start full_board)).
  reflexivity.
Defined.

Lemma cand_at_move b n :
  (n < length (legalMoves b))%nat ->
  cand_at (cand (scan_val b)) (Z.of_nat n) =
  mkCand (fst (nth n (legalMoves b) (0, 0)))
         (snd (nth n (legalMoves b) (0, 0)))
         (top_val b (nth n (legalMoves b) (0, 0))).
Proof.
  intros Hn. unfold cand_at. rewrite Nat2Z.id, scan_val_cand.
  rewrite (nth_indep _ _
             ((fun p => mkCand (fst p) (snd p) (top_val b p)) (0, 0)))
    by (now rewrite length_map).
  apply (map_nth (fun p => mkCand (fst p) (snd p) (top_val b p))).
Qed.

Lemma chosen_random self rnd b :
  difficulty self <> 2 -> difficulty self <> 1 ->
  legalMoves b <> [] -> 0 <= rnd ->
  chosen self rnd (scan_val b) =
  let p := nth (Z.to_nat (Z.rem rnd (Z.of_nat (length (legalMoves b)))))
               (legalMoves b) (0, 0) in
  mkMove (fst p) (snd p).
Proof.
  intros D2 D1 Hne Hrnd. unfold chosen.
  assert (0 < Z.of_nat (length (legalMoves b))) as Hpos
      by (destruct (legalMoves b); [congruence | cbn [length]; lia]).
  rewrite cand_length.
  destruct (Z.eqb_spec (Z.of_nat (length (legalMoves b))) 0) as [E | _];
    [lia | ].
  rewrite (select_random self rnd _ D2 D1). cbv zeta.
  unfold pick_from. rewrite all_pool_length, cand_length.
  pose proof (Z.rem_bound_pos rnd _ Hrnd Hpos) as Hrem.
  set (n := Z.to_nat (Z.rem rnd (Z.of_nat (length (legalMoves b))))).
  assert (n < length (legalMoves b))%nat as Hn by (subst n; lia).
  rewrite all_pool_nth by (rewrite cand_length; exact Hn).
  rewrite Z.add_0_l, (cand_at_move b n Hn). reflexivity.
Qed.

(** X3.  In the lowest tier (a difficulty that is neither 1 nor 2; the
    setter leaves 0) the move returned on a board with [n] legal moves is
    the legal move numbered [rand() % n] in row-major order, whatever the
    scores: every legal move is returned for some value of [rand()], the
    losing ones included. *)
Theorem AI_findBestMove_random self m :
  difficulty self <> 2 -> difficulty self <> 1 ->
  legalMoves (board m) <> [] ->
  (forall rnd, 0 <= rnd ->
     returns (AI_findBestMove self rnd) m
       (let p := nth (Z.to_nat
                        (Z.rem rnd (Z.of_nat (length (legalMoves (board m))))))
                     (legalMoves (board m)) (0, 0) in
        mkMove (fst p) (snd p))) /\
  (forall p, In p (legalMoves (board m)) ->
     exists rnd, 0 <= rnd /\
       returns (AI_findBestMove self rnd) m (mkMove (fst p) (snd p))).
Proof.
  intros D2 D1 Hne.
  assert (forall rnd, 0 <= rnd ->
     returns (AI_findBestMove self rnd) m
       (let p := nth (Z.to_nat
                        (Z.rem rnd (Z.of_nat (length (legalMoves (board m))))))
                     (legalMoves (board m)) (0, 0) in
        mkMove (fst p) (snd p))) as Hrun.
  { intros rnd Hrnd.
    apply (returns_eq _ _ _ _ (AI_findBestMove_run self rnd m)).
    now apply chosen_random. }
  split; [exact Hrun | ].
  intros p Hp.
  destruct (In_nth _ _ (0, 0) Hp) as [n [Hn Hnth]].
  exists (Z.of_nat n). split; [lia | ].
  apply (returns_eq _ _ _ _ (Hrun (Z.of_nat n) ltac:(lia))).
  cbv zeta. rewrite Z.rem_small by lia. rewrite Nat2Z.id, Hnth. reflexivity.
Qed.

Lemma AI_findBestMove_random_witness :
  returns (AI_findBestMove (mkAI 0 0) 13) (start win_in_one_board)
          (mkMove 2 1).
Proof.
  exact (proj1 (AI_findBestMove_random (mkAI 0 0) (start win_in_one_board)
                  ltac:(discriminate) ltac:(discriminate)
                  ltac:(discriminate)) 13 ltac:(lia)).
Defined.

Lemma explain_fold maxOut (g : Z * Z -> Candidate) l :
  forall n0 out0,
    fold_left (fun no p =>
        (fst no + 1, if fst no <? maxOut then snd no ++ [g p] else snd no))
      l (n0, out0) =
    (n0 + Z.of_nat (length l),
     out0 ++ map g (firstn (Z.to_nat (maxOut - n0)) l)).
Proof.
  induction l as [| a l IH]; intros n0 out0.
  - cbn. rewrite firstn_nil, app_nil_r. f_equal. lia.
  - cbn [fold_left fst snd]. rewrite IH. cbn [length]. f_equal; [lia | ].
    destruct (Z.ltb_spec n0 maxOut) as [L | L].
    + replace (Z.to_nat (maxOut - n0))
        with (S (Z.to_nat (maxOut - (n0 + 1)))) by lia.
      cbn [firstn map]. now rewrite <- app_assoc.
    + replace (Z.to_nat (maxOut - n0)) with 0%nat by lia.
      replace (Z.to_nat (maxOut - (n0 + 1))) with 0%nat by lia.
      reflexivity.
Qed.

Lemma explain_val_spec maxOut b :
  explain_val maxOut b =
  (Z.of_nat (length (legalMoves b)),
   map (fun p => mkCand (fst p) (snd p) (top_val b p))
       (firstn (Z.to_nat maxOut) (legalMoves b))).
Proof.
  unfold explain_val.
  rewrite (fold_left_filter (blank b)
             (fun no p =>
                (fst no + 1,
                 if fst no <? maxOut
                 then snd no ++ [mkCand (fst p) (snd p) (top_val b p)]
                 else snd no))).
  fold (legalMoves b).
  rewrite (explain_fold maxOut
             (fun p => mkCand (fst p) (snd p) (top_val b p))).
  rewrite Z.sub_0_r. reflexivity.
Qed.

Lemma legalMoves_length b : (length (legalMoves b) <= 9)%nat.
Proof. unfold legalMoves. apply (filter_length_le (blank b) cells). Qed.

(** X4.  [AI_explain] returns the number of legal moves of the board,
    whatever [maxOut] is, and writes the candidates of the first [maxOut]
    legal moves in row-major order, each with its top-level minimax score:
    nothing for [maxOut <= 0], all of them once [maxOut] reaches their
    number (9 always suffices).  The count returned can therefore exceed
    the number of entries written. *)
Theorem AI_explain_lists ai maxOut m :
  exists out,
    returns (AI_explain ai maxOut) m
            (Z.of_nat (length (legalMoves (board m))), out) /\
    Forall2 (fun p x => r x = fst p /\ c x = snd p /\
                        move_score (board m) p = Some (score x))
            (firstn (Z.to_nat maxOut) (legalMoves (board m))) out /\
    Z.of_nat (length out) =
      Z.min (Z.max maxOut 0) (Z.of_nat (length (legalMoves (board m)))) /\
    (9 <= maxOut -> length out = length (legalMoves (board m))).
Proof.
  exists (map (fun p => mkCand (fst p) (snd p) (top_val (board m) p))
              (firstn (Z.to_nat maxOut) (legalMoves (board m)))).
  split.
  { apply (returns_eq _ _ _ _ (AI_explain_run ai maxOut m)).
    apply explain_val_spec. }
  split; [apply candidates_of_moves | ].
  rewrite length_map, length_firstn.
  pose proof (legalMoves_length (board m)).
  split; lia.
Qed.

(** X5.  Entered at a depth between 0 and 990, [AI_minimax] returns 0, or
    a score between 10 - depth - k and 10 - depth, or one between
    -10 + depth and -10 + depth + k, where k is the number of blank cells:
    at depth 0 every score lies in [-10,10], and so do the scores of the
    top-level moves. *)
Theorem AI_minimax_score_range (depth isMax : Z) (m : Mem) :
  0 <= depth <= 990 ->
  exists v,
    returns (AI_minimax depth isMax) m v /\
    (v = 0 \/
     10 - depth - Z.of_nat (blanks (board m)) <= v <= 10 - depth \/
     -10 + depth <= v <= -10 + depth + Z.of_nat (blanks (board m))) /\
    (depth = 0 -> -10 <= v <= 10) /\
    (forall p w, move_score (board m) p = Some w -> -10 <= w <= 10).
Proof.
  intros Hd. exists (minimax_val 10 depth isMax (board m)).
  pose proof (blanks_le_9 (board m)) as H9.
  pose proof (minimax_val_range 10 depth isMax (board m)
                ltac:(lia) ltac:(lia) ltac:(lia)) as R.
  split; [apply AI_minimax_run | ].
  split; [exact R | ].
  split; [unfold in_range in R; lia | ].
  intros p w Hw. rewrite move_score_val in Hw. injection Hw as <-.
  apply top_val_bounds.
Qed.

Lemma AI_minimax_score_range_witness :
  exists v,
    returns (AI_minimax 3 1) (start win_in_one_board) v /\
    (v = 0 \/
     10 - 3 - Z.of_nat (blanks win_in_one_board) <= v <= 10 - 3 \/
     -10 + 3 <= v <= -10 + 3 + Z.of_nat (blanks win_in_one_board)) /\
    (3 = 0 -> -10 <= v <= 10) /\
    (forall p w, move_score win_in_one_board p = Some w -> -10 <= w <= 10).
Proof.
  apply (AI_minimax_score_range 3 1 (start win_in_one_board)). lia.
Defined.

(* ================================================================== *)
(** * Further properties of the automated match                        *)
(* ================================================================== *)

Lemma checkWin_codes b :
  Game_checkWin b = 1 \/ Game_checkWin b = -1 \/
  Game_checkWin b = 0 \/ Game_checkWin b = 2.
Proof.
  rewrite Game_checkWin_terminalResult.
  destruct (terminalResult b); cbn; tauto.
Qed.

(** The match loop returns whenever it has more fuel than the board has
    blank cells, for all engines and all random draws. *)
Lemma match_loop_total fuel :
  forall ai1 ai2 rnd turn m,
    (forall k, 0 <= rnd k) ->
    (blanks (board m) < fuel)%nat ->
    exists res m',
      match_loop fuel ai1 ai2 rnd turn m = Some (res, m') /\
      Game_checkWin (board m') = res /\
      (res = 1 \/ res = -1 \/ res = 0) /\
      (blanks (board m') <= blanks (board m))%nat.
Proof.
  induction fuel as [| fuel IH]; intros ai1 ai2 rnd turn m Hrnd Hfuel; [lia | ].
  cbn [match_loop]. unfold bind at 1, checkWin at 1.
  destruct (Z.eqb_spec (Game_checkWin (board m)) 1) as [E1 | E1];
    [exists 1, m; repeat split; [exact E1 | tauto | lia] | ].
  destruct (Z.eqb_spec (Game_checkWin (board m)) (-1)) as [E2 | E2];
    [exists (-1), m; repeat split; [exact E2 | tauto | lia] | ].
  destruct (Z.eqb_spec (Game_checkWin (board m)) 0) as [E3 | E3];
    [exists 0, m; repeat split; [exact E3 | tauto | lia] | ].
  assert (Game_checkWin (board m) = 2) as Hon
      by (destruct (checkWin_codes (board m)) as [H | [H | [H | H]]]; congruence).
  pose proof (ongoing_legal _ Hon) as Hne.
  set (ai := if turn =? 0 then ai1 else ai2).
  set (sym := if turn =? 0 then "X" else "O").
  destruct (AI_findBestMove_run ai (rnd fuel) m) as [m1 [Hf [Hb1 _]]].
  pose proof (chosen_legal ai (rnd fuel) (board m) Hne (Hrnd fuel)) as Hin.
  set (mv := chosen ai (rnd fuel) (scan_val (board m))) in *.
  unfold bind at 1. rewrite Hf. unfold bind at 1, makeMove at 1.
  apply legal_move_in in Hin. destruct Hin as [Hc Hbl].
  apply blank_cell in Hbl. cbn [fst snd] in Hbl.
  assert (sym <> " ") as Hsym by (subst sym; destruct (turn =? 0); discriminate).
  pose proof (blanks_move (board m) sym (row mv) (col mv) Hc Hbl Hsym) as Hk.
  match goal with
  | |- exists res m', match_loop fuel ai1 ai2 rnd ?t ?m2 = _ /\ _ =>
      assert (blanks (board m2) < fuel)%nat as Hlt
        by (cbn [board]; rewrite Hb1; lia);
      destruct (IH ai1 ai2 rnd t m2 Hrnd Hlt)
        as [res [m' [Hrun [Hres [Hcode Hle]]]]];
      exists res, m'; repeat split; try assumption;
      cbn [board] in Hle; rewrite Hb1 in Hle; lia
  end.
Qed.

(** X6.  The automated match returns for every pair of difficulties, every
    sequence of values of [rand()] and every state of the counters: the
    loop ends within nine moves, on a board that [Game_checkWin] classifies
    as a win of 'X' (1), a win of 'O' (-1) or a draw (0), and the value the
    loop stops on is that classification. *)
Theorem playAIVsAI_terminates (aiDifficulty1 aiDifficulty2 : Z)
    (rnd : nat -> Z) (m : Mem) :
  (forall k, 0 <= rnd k) ->
  exists res m',
    playAIVsAI aiDifficulty1 aiDifficulty2 rnd m = Some (res, m') /\
    Game_checkWin (board m') = res /\
    (res = 1 \/ res = -1 \/ res = 0).
Proof.
  intros Hrnd. unfold playAIVsAI.
  assert (blanks Game_init < 10)%nat as Hlt
      by (change (blanks Game_init) with 9%nat; lia).
  destruct (match_loop_total 10
              (AI_setVerbose (AI_setDifficulty AI_init aiDifficulty1) 2)
              (AI_setVerbose (AI_setDifficulty AI_init aiDifficulty2) 2)
              rnd 0
              (mkMem Game_init (g_nodesSearched m) (g_maxDepthReached m)
                     (stdout m) (calls m))
              Hrnd Hlt) as [res [m' [Hrun [Hres [Hcode _]]]]].
  exists res, m'. split; [exact Hrun | ]. split; assumption.
Qed.

Lemma playAIVsAI_terminates_witness :
  exists res m',
    playAIVsAI 0 1 (fun k => Z.of_nat k) (start Game_init) = Some (res, m') /\
    Game_checkWin (board m') = res /\
    (res = 1 \/ res = -1 \/ res = 0).
Proof.
  apply (playAIVsAI_terminates 0 1 (fun k => Z.of_nat k) (start Game_init)).
  intros k. lia.
Defined.

(* ================================================================== *)
(** * The matches at the keyboard                                      *)
(* ================================================================== *)

Lemma is_mark_same s : is_mark s s = 1.
Proof. unfold is_mark. now rewrite Ascii.eqb_refl. Qed.

Lemma is_mark_other s x : x <> s -> is_mark s x = 0.
Proof.
  intros H. unfold is_mark. destruct (Ascii.eqb_spec x s); congruence.
Qed.

Lemma marks_move b s s' i j :
  In (i, j) cells -> cell b i j = " " -> s <> " " ->
  marks s' (Game_makeMove b i j s) =
  marks s' b + is_mark s' s - is_mark s' " ".
Proof.
  intros Hin Hc Hs. revert i j Hin Hc.
  apply (in_cells_cases (fun i j =>
    cell b i j = " " ->
    marks s' (Game_makeMove b i j s) =
    marks s' b + is_mark s' s - is_mark s' " "));
    destruct b; unfold Game_makeMove, cell, marks; simpl; intros ->; lia.
Qed.

Lemma marks_move_same b s i j :
  In (i, j) cells -> cell b i j = " " -> s <> " " ->
  marks s (Game_makeMove b i j s) = marks s b + 1.
Proof.
  intros Hin Hc Hs. rewrite (marks_move b s s i j Hin Hc Hs).
  rewrite is_mark_same, is_mark_other by congruence. lia.
Qed.

Lemma marks_move_other b s s' i j :
  In (i, j) cells -> cell b i j = " " -> s <> " " -> s' <> " " -> s' <> s ->
  marks s' (Game_makeMove b i j s) = marks s' b.
Proof.
  intros Hin Hc Hs Hs' Hne. rewrite (marks_move b s s' i j Hin Hc Hs).
  rewrite !is_mark_other by congruence. lia.
Qed.

Lemma off_board_false r c :
  Play.off_board r c = false <-> In (r, c) cells.
Proof.
  rewrite in_cells_range. unfold Play.off_board.
  destruct (Z.ltb_spec r 0), (Z.gtb_spec r 2), (Z.ltb_spec c 0),
           (Z.gtb_spec c 2); cbn; split; intros; try discriminate; lia.
Qed.

Lemma legal_intro b r c :
  In (r, c) cells -> cell b r c = " " -> In (r, c) (legalMoves b).
Proof.
  intros Hin Hc. unfold legalMoves. apply filter_In. split; [exact Hin | ].
  unfold blank. cbn [fst snd]. rewrite Hc. reflexivity.
Qed.

(** The analysis at the head of the loops keeps the board, the
    statistics and the turn. *)
Lemma analysis_run ai (l l0 : Play.Locals) m :
  Play.matchStats l0 = Play.matchStats l -> Play.turn l0 = Play.turn l ->
  exists l1 m1,
    (if Utils.totalMoves (Play.matchStats l) >? 0 then
       res <- AI_explain ai 9 ;;
       st <- AI_getStats ai ;;
       ret (Play.analysed l (fst res) (snd res) (fst st) (snd st))
     else ret l0) m = Some (l1, m1) /\
    board m1 = board m /\
    Play.matchStats l1 = Play.matchStats l /\ Play.turn l1 = Play.turn l.
Proof.
  intros Hs Ht.
  destruct (Utils.totalMoves (Play.matchStats l) >? 0).
  - destruct (AI_explain_run ai 9 m) as [m1 [H [Hb _]]].
    unfold bind at 1. rewrite H. unfold bind, AI_getStats, ret.
    eexists. exists m1. repeat split. exact Hb.
  - exists l0, m. repeat split; assumption.
Qed.

Section PlayGameInvariant.

Variables (ai : AI) (rnd : nat -> Z).
Variable J : Board -> Play.Locals -> Prop.

Hypothesis J_ext : forall b l l',
  J b l -> Play.matchStats l' = Play.matchStats l ->
  Play.turn l' = Play.turn l -> J b l'.

Hypothesis J_player : forall b l r c,
  J b l -> Game_checkWin b = 2 -> Play.turn l = 0 ->
  In (r, c) (legalMoves b) ->
  J (Game_makeMove b r c "X") (Play.player1_moved l 1).

Hypothesis J_engine : forall b l n d,
  J b l -> Game_checkWin b = 2 -> Play.turn l <> 0 ->
  J (Game_makeMove b
       (row (chosen ai (rnd (Z.to_nat (Utils.player2Moves (Play.matchStats l))))
                    (scan_val b)))
       (col (chosen ai (rnd (Z.to_nat (Utils.player2Moves (Play.matchStats l))))
                    (scan_val b))) "O")
    (Play.ai_moved l n d).

(** A property of board, statistics and turn that every accepted move
    keeps holds when the match ends, on a board that is won or drawn, and
    the winner recorded is the one of that board. *)
Lemma playGame_loop_inv fuel :
  forall inputs l m lf m',
    J (board m) l ->
    Play.playGame_loop fuel ai rnd inputs l m = Some (Some lf, m') ->
    exists lend,
      J (board m') lend /\
      Game_checkWin (board m') <> 2 /\
      lf = Play.with_winner lend (winner_of_code (Game_checkWin (board m'))).
Proof.
  induction fuel as [| fuel IH]; intros inputs l m lf m' HJ Hrun;
    [discriminate | ].
  cbn [Play.playGame_loop] in Hrun.
  destruct (analysis_run ai l (Play.not_analysed l) m eq_refl eq_refl)
    as [l1 [m1 [Ha [Hb1 [Hs1 Ht1]]]]].
  unfold bind at 1 in Hrun. rewrite Ha in Hrun.
  unfold bind at 1, checkWin at 1 in Hrun.
  assert (J (board m1) l1) as HJ1 by (rewrite Hb1; now apply (J_ext _ l)).
  destruct (Z.eqb_spec (Game_checkWin (board m1)) 1) as [E1 | E1].
  { injection Hrun as <- <-. exists l1. rewrite E1. repeat split;
      [exact HJ1 | discriminate]. }
  destruct (Z.eqb_spec (Game_checkWin (board m1)) (-1)) as [E2 | E2].
  { injection Hrun as <- <-. exists l1. rewrite E2. repeat split;
      [exact HJ1 | discriminate]. }
  destruct (Z.eqb_spec (Game_checkWin (board m1)) 0) as [E3 | E3].
  { injection Hrun as <- <-. exists l1. rewrite E3. repeat split;
      [exact HJ1 | discriminate]. }
  assert (Game_checkWin (board m1) = 2) as Hon
      by (destruct (checkWin_codes (board m1)) as [H | [H | [H | H]]];
          congruence).
  destruct (Z.eqb_spec (Play.turn l1) 0) as [T | T].
  - destruct inputs as [| [[r c0] |] inputs]; [discriminate | | ].
    + destruct (Play.off_board r c0) eqn:Off; [now apply (IH _ _ _ _ _ HJ1 Hrun) | ].
      unfold bind at 1, read_cell at 1 in Hrun.
      destruct (Ascii.eqb_spec (cell (board m1) r c0) " ") as [Ec | Ec];
        cbn [negb] in Hrun; [ | now apply (IH _ _ _ _ _ HJ1 Hrun)].
      unfold bind at 1, makeMove at 1 in Hrun.
      refine (IH _ _ _ _ _ _ Hrun). cbn [board].
      apply (J_player _ _ r c0 HJ1 Hon T).
      apply legal_intro; [now apply off_board_false | exact Ec].
    + now apply (IH _ _ _ _ _ HJ1 Hrun).
  - set (k := rnd (Z.to_nat (Utils.player2Moves (Play.matchStats l1)))) in *.
    destruct (AI_findBestMove_run ai k m1) as [m2 [Hf [Hb2 _]]].
    unfold bind at 1 in Hrun. rewrite Hf in Hrun.
    unfold bind at 1, makeMove at 1 in Hrun.
    unfold bind at 1, AI_getStats at 1 in Hrun.
    refine (IH _ _ _ _ _ _ Hrun).
    cbn [board]. rewrite Hb2. subst k. now apply J_engine.
Qed.

End PlayGameInvariant.

Lemma stats_inv_ext t0 n1 n2 b l l' :
  stats_inv t0 n1 n2 b l ->
  Play.matchStats l' = Play.matchStats l -> Play.turn l' = Play.turn l ->
  stats_inv t0 n1 n2 b l'.
Proof. unfold stats_inv. intros H Hs Ht. rewrite Hs, Ht. exact H. Qed.

Lemma stats_inv_move t0 n1 n2 b l r c :
  stats_inv t0 n1 n2 b l -> In (r, c) (legalMoves b) ->
  (Play.turn l = 0 ->
   stats_inv t0 n1 n2 (Game_makeMove b r c "X") (Play.player1_moved l 1)) /\
  (Play.turn l <> 0 ->
   forall l',
     Utils.player1 (Play.matchStats l') = Utils.player1 (Play.matchStats l) ->
     Utils.player2 (Play.matchStats l') = Utils.player2 (Play.matchStats l) ->
     Utils.totalMoves (Play.matchStats l') =
       Utils.totalMoves (Play.matchStats l) + 1 ->
     Utils.player1Moves (Play.matchStats l') =
       Utils.player1Moves (Play.matchStats l) ->
     Utils.player2Moves (Play.matchStats l') =
       Utils.player2Moves (Play.matchStats l) + 1 ->
     Play.turn l' = 0 ->
     stats_inv t0 n1 n2 (Game_makeMove b r c "O") l').
Proof.
  intros [H1 [H2 [HX [HO [Ht [Hb [Hd Hturn]]]]]]] Hin.
  apply legal_move_in in Hin. destruct Hin as [Hc Hbl].
  apply blank_cell in Hbl. cbn [fst snd] in Hbl.
  split.
  - intros T. unfold stats_inv.
    cbn [Play.matchStats Play.player1_moved Play.turn Utils.player1
         Utils.player2 Utils.totalMoves Utils.player1Moves Utils.player2Moves].
    pose proof (blanks_move b "X" r c Hc Hbl ltac:(discriminate)) as Hk.
    rewrite (marks_move_same b "X" r c Hc Hbl ltac:(discriminate)).
    rewrite (marks_move_other b "X" "O" r c Hc Hbl) by discriminate.
    repeat split; try assumption; try lia.
  - intros T l' E1 E2 E3 E4 E5 Ht'. unfold stats_inv.
    rewrite E1, E2, E3, E4, E5, Ht'.
    pose proof (blanks_move b "O" r c Hc Hbl ltac:(discriminate)) as Hk.
    rewrite (marks_move_same b "O" r c Hc Hbl ltac:(discriminate)).
    rewrite (marks_move_other b "O" "X" r c Hc Hbl) by discriminate.
    repeat split; try assumption; try lia.
Qed.

Lemma stats_inv_start t0 n1 n2 ui n d :
  t0 = 0 \/ t0 = 1 ->
  stats_inv t0 (Utils.copy_name n1) (Utils.copy_name n2) Game_init
    (Play.mkLocals (Play.fresh_stats n1 n2) ui t0 n d).
Proof.
  intros H. unfold stats_inv.
  cbn [Play.matchStats Play.turn Play.fresh_stats Utils.player1 Utils.player2
       Utils.totalMoves Utils.player1Moves Utils.player2Moves].
  change (marks "X" Game_init) with 0. change (marks "O" Game_init) with 0.
  change (blanks Game_init) with 9%nat. repeat split; lia.
Qed.

(** The statistics of a match of [playGame] that has ended. *)
Lemma playGame_loop_stats ai rnd t0 n1 n2 fuel inputs l m lf m' :
  (forall k, 0 <= rnd k) ->
  stats_inv t0 n1 n2 (board m) l ->
  Play.playGame_loop fuel ai rnd inputs l m = Some (Some lf, m') ->
  exists lend,
    stats_inv t0 n1 n2 (board m') lend /\
    Game_checkWin (board m') <> 2 /\
    lf = Play.with_winner lend (winner_of_code (Game_checkWin (board m'))).
Proof.
  intros Hrnd.
  apply (playGame_loop_inv ai rnd (stats_inv t0 n1 n2)).
  - apply stats_inv_ext.
  - intros b l0 r c HJ _ T Hin.
    now apply (proj1 (stats_inv_move _ _ _ _ _ _ _ HJ Hin)).
  - intros b l0 n d HJ Hon T.
    pose proof (chosen_legal ai
                  (rnd (Z.to_nat (Utils.player2Moves (Play.matchStats l0))))
                  b (ongoing_legal _ Hon) (Hrnd _)) as Hin.
    apply (proj2 (stats_inv_move _ _ _ _ _ _ _ HJ Hin) T); reflexivity.
Qed.

Lemma playGame_unfold playerStarts aiVerbose aiDifficulty username garbage
    rnd inputs m stats m' :
  Play.playGame playerStarts aiVerbose aiDifficulty username garbage rnd
    inputs m = Some (Some stats, m') ->
  exists lf,
    Play.matchStats lf = stats /\
    Play.playGame_loop (length inputs + 11)
      (AI_setVerbose (AI_setDifficulty AI_init aiDifficulty) aiVerbose) rnd
      inputs
      (Play.mkLocals
         (Play.fresh_stats username (Utils.getAIName aiDifficulty))
         (Play.fresh_ui aiDifficulty garbage)
         (if playerStarts =? 0 then 1 else 0) 0 0)
      (mkMem Game_init (g_nodesSearched m) (g_maxDepthReached m) (stdout m)
             (calls m)) = Some (Some lf, m').
Proof.
  unfold Play.playGame. cbv zeta. unfold bind at 1.
  match goal with
  | |- match ?run with _ => _ end = _ -> _ => destruct run as [[[lf |] m1] |]
  end; unfold ret; cbn [option_map]; intros H; try discriminate.
  injection H as <- <-. exists lf. split; reflexivity.
Qed.

(** X7.  When a match of [playGame] ends, whatever the difficulty, the
    answers typed and the values of [rand()], its statistics describe the
    final board: the moves counted for each side are the numbers of 'X'
    and of 'O' on it, no cell holds anything else, the side that started
    has made as many moves as the other or one more, the board is won or
    drawn and the winner recorded is the one [Game_checkWin] reports.  No
    accepted move has overwritten a mark. *)
Theorem playGame_stats playerStarts aiVerbose aiDifficulty username garbage
    rnd inputs m stats m' :
  (forall k, 0 <= rnd k) ->
  Play.playGame playerStarts aiVerbose aiDifficulty username garbage rnd
    inputs m = Some (Some stats, m') ->
  Utils.player1 stats = Utils.copy_name username /\
  Utils.player2 stats = Utils.copy_name (Utils.getAIName aiDifficulty) /\
  marks "X" (board m') = Utils.player1Moves stats /\
  marks "O" (board m') = Utils.player2Moves stats /\
  Utils.totalMoves stats = Utils.player1Moves stats + Utils.player2Moves stats /\
  Z.of_nat (blanks (board m')) + Utils.totalMoves stats = 9 /\
  (playerStarts <> 0 ->
   0 <= Utils.player1Moves stats - Utils.player2Moves stats <= 1) /\
  (playerStarts = 0 ->
   0 <= Utils.player2Moves stats - Utils.player1Moves stats <= 1) /\
  Game_checkWin (board m') <> 2 /\
  Utils.winner stats = winner_of_code (Game_checkWin (board m')).
Proof.
  intros Hrnd Hrun.
  destruct (playGame_unfold _ _ _ _ _ _ _ _ _ _ Hrun) as [lf [<- Hloop]].
  eapply (playGame_loop_stats _ rnd (if playerStarts =? 0 then 1 else 0))
    in Hloop; [ | exact Hrnd | apply stats_inv_start;
                  destruct (playerStarts =? 0); tauto].
  destruct Hloop as [lend [[H1 [H2 [HX [HO [Ht [Hb [Hd Hturn]]]]]]] [Hcw ->]]].
  cbn [Play.matchStats Play.with_winner Utils.player1 Utils.player2
       Utils.totalMoves Utils.player1Moves Utils.player2Moves Utils.winner].
  repeat split; try assumption.
  - destruct (Z.eqb_spec playerStarts 0); lia.
  - destruct (Z.eqb_spec playerStarts 0); lia.
  - destruct (Z.eqb_spec playerStarts 0); lia.
  - destruct (Z.eqb_spec playerStarts 0); lia.
Qed.

Lemma safe_player n b :
  Game_checkWin b = 2 ->
  safe (S n) 0 b =
  forallb (fun p => safe n 1 (Game_makeMove b (fst p) (snd p) "X"))
          (legalMoves b).
Proof. intros H. cbn [safe]. rewrite H. reflexivity. Qed.

Lemma safe_engine n turn b :
  Game_checkWin b = 2 -> turn <> 0 ->
  safe (S n) turn b =
  safe n 0 (Game_makeMove b (row (bestMove (scan_val b)))
              (col (bestMove (scan_val b))) "O").
Proof.
  intros H T. cbn [safe]. rewrite H. cbn [Z.eqb].
  destruct (Z.eqb_spec turn 0); [contradiction | reflexivity].
Qed.

Lemma safe_not_lost n turn b : safe n turn b = true -> Game_checkWin b <> 1.
Proof.
  destruct n as [| n]; [discriminate | ]. cbn [safe].
  destruct (Z.eqb_spec (Game_checkWin b) 1); [discriminate | auto].
Qed.

(** From the blank board the engine of difficulty 2 is never beaten,
    whether the player starts ... *)
Lemma safe_player_starts : safe 10 0 Game_init = true.
Proof. vm_cast_no_check (eq_refl true). Qed.

(** ... or the engine does. *)
Lemma safe_engine_starts : safe 10 1 Game_init = true.
Proof.
  rewrite (safe_engine 9 1 Game_init eq_refl ltac:(discriminate)).
  rewrite scan_val_empty_board.
  vm_cast_no_check (eq_refl true).
Qed.

Lemma difficulty_hard aiVerbose aiDifficulty :
  2 <= aiDifficulty ->
  difficulty (AI_setVerbose (AI_setDifficulty AI_init aiDifficulty) aiVerbose)
    = 2.
Proof.
  intros H. unfold AI_setVerbose, AI_setDifficulty. cbn [difficulty].
  destruct (Z.ltb_spec aiDifficulty 0); [lia | ].
  destruct (Z.gtb_spec aiDifficulty 2); lia.
Qed.

(** The result of a match against the engine of the highest tier. *)
Lemma playGame_hard_result playerStarts aiVerbose aiDifficulty username
    garbage rnd inputs m stats m' :
  2 <= aiDifficulty ->
  Play.playGame playerStarts aiVerbose aiDifficulty username garbage rnd
    inputs m = Some (Some stats, m') ->
  (Utils.winner stats = "O" /\ Game_checkWin (board m') = -1) \/
  (Utils.winner stats = "D" /\ Game_checkWin (board m') = 0).
Proof.
  intros Hd Hrun.
  destruct (playGame_unfold _ _ _ _ _ _ _ _ _ _ Hrun) as [lf [<- Hloop]].
  pose proof (difficulty_hard aiVerbose aiDifficulty Hd) as Hhard.
  apply (playGame_loop_inv _ rnd
           (fun b l => exists n, safe n (Play.turn l) b = true)) in Hloop.
  - destruct Hloop as [lend [[n Hsafe] [Hcw ->]]].
    apply safe_not_lost in Hsafe. cbn [Play.matchStats Play.with_winner Utils.winner].
    destruct (checkWin_codes (board m')) as [H | [H | [H | H]]];
      try contradiction; rewrite H; [left | right]; split; reflexivity.
  - intros b l l' [n H] _ Ht. exists n. now rewrite Ht.
  - intros b l r c [n H] Hon T Hin. rewrite T in H.
    destruct n as [| n]; [discriminate | ].
    rewrite (safe_player n b Hon) in H.
    exists n. cbn [Play.turn Play.player1_moved].
    apply (proj1 (forallb_forall _ _) H (r, c) Hin).
  - intros b l n0 d [n H] Hon T.
    destruct n as [| n]; [discriminate | ].
    rewrite (safe_engine n _ b Hon T) in H.
    exists n. cbn [Play.turn Play.ai_moved].
    rewrite (chosen_optimal _ _ _ Hhard). exact H.
  - cbn [board Play.turn].
    exists 10%nat. destruct (playerStarts =? 0);
      [exact safe_engine_starts | exact safe_player_starts].
Qed.

(** X8.  Against the engine of the highest tier (any [aiDifficulty] of 2
    or more, which the setter stores as 2) the player never wins a match
    of [playGame]: whoever starts and whatever is typed, a match that
    ends is recorded as won by 'O' or as drawn, on a board that
    [Game_checkWin] does not classify as a win of 'X'. *)
Theorem playGame_never_lost playerStarts aiVerbose aiDifficulty username
    garbage rnd inputs m stats m' :
  2 <= aiDifficulty ->
  Play.playGame playerStarts aiVerbose aiDifficulty username garbage rnd
    inputs m = Some (Some stats, m') ->
  (Utils.winner stats = "O" /\ Game_checkWin (board m') = -1) \/
  (Utils.winner stats = "D" /\ Game_checkWin (board m') = 0).
Proof.
  intros Hd Hrun.
  exact (playGame_hard_result playerStarts aiVerbose aiDifficulty username
           garbage rnd inputs m stats m' Hd Hrun).
Qed.

(** A run whose value and final board are known has a final store. *)
Lemma run_with_board {A} (c : M A) m (a : A) b :
  option_map (fun x => (fst x, board (snd x))) (c m) = Some (a, b) ->
  exists m', c m = Some (a, m') /\ board m' = b.
Proof.
  destruct (c m) as [[a' m'] |]; cbn; [ | discriminate].
  intros H. injection H as <- <-. now exists m'.
Qed.

Lemma sample_game :
  option_map (fun x => (fst x, board (snd x)))
    (Play.playGame 1 0 2 "ann" [] (fun _ => 0) sample_inputs
       (start Game_init)) = Some (Some sample_stats, sample_board).
Proof. vm_cast_no_check (eq_refl (Some (Some sample_stats, sample_board))). Qed.

Lemma playGame_stats_witness :
  exists m',
    Play.playGame 1 0 2 "ann" [] (fun _ => 0) sample_inputs (start Game_init)
      = Some (Some sample_stats, m') /\
    marks "X" (board m') = 5 /\ marks "O" (board m') = 4 /\
    Game_checkWin (board m') <> 2.
Proof.
  destruct (run_with_board _ _ _ _ sample_game) as [m' [Hrun Hb]].
  exists m'. split; [exact Hrun | ].
  pose proof (playGame_stats 1 0 2 "ann"%string [] (fun _ => 0) sample_inputs
                (start Game_init) sample_stats m'
                ltac:(intros; lia) Hrun) as H.
  cbn [Utils.player1Moves Utils.player2Moves sample_stats] in H. tauto.
Defined.

Lemma playGame_never_lost_witness :
  exists m',
    Play.playGame 1 0 2 "ann" [] (fun _ => 0) sample_inputs (start Game_init)
      = Some (Some sample_stats, m') /\
    Game_checkWin (board m') = 0.
Proof.
  destruct (run_with_board _ _ _ _ sample_game) as [m' [Hrun Hb]].
  exists m'. split; [exact Hrun | ].
  destruct (playGame_never_lost 1 0 2 "ann"%string [] (fun _ => 0)
              sample_inputs (start Game_init) sample_stats m'
              ltac:(lia) Hrun) as [[H _] | [_ H]];
    [discriminate H | exact H].
Defined.

(** The statistics of a match of [playPlayerVsPlayer] that has ended. *)
Lemma playPlayerVsPlayer_loop_stats ai n1 n2 fuel :
  forall inputs l m lf m',
    stats_inv 0 n1 n2 (board m) l ->
    Play.playPlayerVsPlayer_loop fuel ai inputs l m = Some (Some lf, m') ->
    exists lend,
      stats_inv 0 n1 n2 (board m') lend /\
      Game_checkWin (board m') <> 2 /\
      lf = Play.with_winner lend (winner_of_code (Game_checkWin (board m'))).
Proof.
  induction fuel as [| fuel IH]; intros inputs l m lf m' HJ Hrun;
    [discriminate | ].
  cbn [Play.playPlayerVsPlayer_loop] in Hrun.
  destruct (analysis_run ai l l m eq_refl eq_refl)
    as [l1 [m1 [Ha [Hb1 [Hs1 Ht1]]]]].
  unfold bind at 1 in Hrun. rewrite Ha in Hrun.
  unfold bind at 1, checkWin at 1 in Hrun.
  assert (stats_inv 0 n1 n2 (board m1) l1) as HJ1
      by (rewrite Hb1; now apply (stats_inv_ext _ _ _ _ l)).
  destruct (Z.eqb_spec (Game_checkWin (board m1)) 1) as [E1 | E1].
  { injection Hrun as <- <-. exists l1. rewrite E1.
    split; [exact HJ1 | split; [discriminate | reflexivity]]. }
  destruct (Z.eqb_spec (Game_checkWin (board m1)) (-1)) as [E2 | E2].
  { injection Hrun as <- <-. exists l1. rewrite E2.
    split; [exact HJ1 | split; [discriminate | reflexivity]]. }
  destruct (Z.eqb_spec (Game_checkWin (board m1)) 0) as [E3 | E3].
  { injection Hrun as <- <-. exists l1. rewrite E3.
    split; [exact HJ1 | split; [discriminate | reflexivity]]. }
  destruct inputs as [| [[r c0] |] inputs]; [discriminate | | ].
  - destruct (Play.off_board r c0) eqn:Off; [now apply (IH _ _ _ _ _ HJ1 Hrun) | ].
    unfold bind at 1, read_cell at 1 in Hrun.
    destruct (Ascii.eqb_spec (cell (board m1) r c0) " ") as [Ec | Ec];
      cbn [negb] in Hrun; [ | now apply (IH _ _ _ _ _ HJ1 Hrun)].
    unfold bind at 1, makeMove at 1 in Hrun.
    refine (IH _ _ _ _ _ _ Hrun). cbn [board].
    assert (In (r, c0) (legalMoves (board m1))) as Hin
        by (apply legal_intro; [now apply off_board_false | exact Ec]).
    pose proof (stats_inv_move _ _ _ _ _ _ _ HJ1 Hin) as [HX HO].
    assert (Play.turn l1 = 0 \/ Play.turn l1 = 1) as Hturn
        by (destruct HJ1 as [_ [_ [_ [_ [_ [_ [_ H]]]]]]]; exact H).
    destruct (Z.eqb_spec (Play.turn l1) 0) as [T | T].
    + rewrite T. now apply HX.
    + apply (HO T); try reflexivity.
      cbn [Play.turn Play.player2_moved]. lia.
  - now apply (IH _ _ _ _ _ HJ1 Hrun).
Qed.

(** X9.  When a match of [playPlayerVsPlayer] ends, whatever is typed, its
    statistics describe the final board: 'X' has moved as often as 'O' or
    once more, the moves counted are the marks on the board, no accepted
    move has overwritten a mark, the analysis of the engine has left no
    trace on the board, and the winner recorded is the one
    [Game_checkWin] reports for the final board.  The engine's node and
    depth figures of the record stay 0. *)
Theorem playPlayerVsPlayer_stats player1 player2 aiDifficulty garbage inputs
    m stats m' :
  Play.playPlayerVsPlayer player1 player2 aiDifficulty garbage inputs m
    = Some (Some stats, m') ->
  Utils.player1 stats = Utils.copy_name player1 /\
  Utils.player2 stats = Utils.copy_name player2 /\
  marks "X" (board m') = Utils.player1Moves stats /\
  marks "O" (board m') = Utils.player2Moves stats /\
  Utils.totalMoves stats = Utils.player1Moves stats + Utils.player2Moves stats /\
  Z.of_nat (blanks (board m')) + Utils.totalMoves stats = 9 /\
  0 <= Utils.player1Moves stats - Utils.player2Moves stats <= 1 /\
  Game_checkWin (board m') <> 2 /\
  Utils.winner stats = winner_of_code (Game_checkWin (board m')).
Proof.
  unfold Play.playPlayerVsPlayer. cbv zeta. unfold bind at 1.
  match goal with
  | |- match ?run with _ => _ end = _ -> _ =>
      destruct run as [[[lf |] m1] |] eqn:Hloop
  end; unfold ret; cbn [option_map]; intros H; try discriminate.
  injection H as <- <-.
  apply (playPlayerVsPlayer_loop_stats _ (Utils.copy_name player1)
           (Utils.copy_name player2)) in Hloop;
    [ | apply stats_inv_start; now left].
  destruct Hloop as [lend [[H1 [H2 [HX [HO [Ht [Hb [Hd Hturn]]]]]]] [Hcw ->]]].
  cbn [Play.matchStats Play.with_winner Utils.player1 Utils.player2
       Utils.totalMoves Utils.player1Moves Utils.player2Moves Utils.winner].
  repeat split; try assumption; lia.
Qed.

Lemma sample_game2 :
  option_map (fun x => (fst x, board (snd x)))
    (Play.playPlayerVsPlayer "ann" "bob" 2 [] sample_inputs2
       (start Game_init)) = Some (Some sample_stats2, sample_board2).
Proof.
  vm_cast_no_check (eq_refl (Some (Some sample_stats2, sample_board2))).
Qed.

Lemma playPlayerVsPlayer_stats_witness :
  exists m',
    Play.playPlayerVsPlayer "ann" "bob" 2 [] sample_inputs2 (start Game_init)
      = Some (Some sample_stats2, m') /\
    marks "X" (board m') = 5 /\ marks "O" (board m') = 4 /\
    Game_checkWin (board m') <> 2.
Proof.
  destruct (run_with_board _ _ _ _ sample_game2) as [m' [Hrun Hb]].
  exists m'. split; [exact Hrun | ].
  pose proof (playPlayerVsPlayer_stats "ann"%string "bob"%string 2 []
                sample_inputs2 (start Game_init) sample_stats2 m' Hrun) as H.
  cbn [Utils.player1Moves Utils.player2Moves sample_stats2] in H. tauto.
Defined.

(** The loop of [playGame] comes to rest once the fuel exceeds the
    number of answers plus the number of blank cells. *)
Lemma playGame_loop_total ai rnd :
  (forall k, 0 <= rnd k) ->
  forall fuel inputs l m,
    (length inputs + blanks (board m) < fuel)%nat ->
    exists res m', Play.playGame_loop fuel ai rnd inputs l m = Some (res, m').
Proof.
  intros Hrnd.
  induction fuel as [| fuel IH]; intros inputs l m Hfuel; [lia | ].
  cbn [Play.playGame_loop].
  destruct (analysis_run ai l (Play.not_analysed l) m eq_refl eq_refl)
    as [l1 [m1 [Ha [Hb1 [Hs1 Ht1]]]]].
  unfold bind at 1. rewrite Ha. unfold bind at 1, checkWin at 1.
  rewrite <- Hb1 in Hfuel.
  destruct (Z.eqb_spec (Game_checkWin (board m1)) 1); [eexists; eexists; reflexivity | ].
  destruct (Z.eqb_spec (Game_checkWin (board m1)) (-1)); [eexists; eexists; reflexivity | ].
  destruct (Z.eqb_spec (Game_checkWin (board m1)) 0); [eexists; eexists; reflexivity | ].
  assert (Game_checkWin (board m1) = 2) as Hon
      by (destruct (checkWin_codes (board m1)) as [H | [H | [H | H]]];
          congruence).
  destruct (Play.turn l1 =? 0).
  - destruct inputs as [| [[r c0] |] inputs]; [eexists; eexists; reflexivity | | ];
      cbn [length] in Hfuel.
    + destruct (Play.off_board r c0) eqn:Off; [apply IH; lia | ].
      unfold bind at 1, read_cell at 1.
      destruct (Ascii.eqb_spec (cell (board m1) r c0) " ") as [Ec | Ec];
        cbn [negb]; [ | apply IH; lia].
      unfold bind at 1, makeMove at 1. apply IH. cbn [board].
      pose proof (blanks_move (board m1) "X" r c0
                    (proj1 (off_board_false r c0) Off) Ec ltac:(discriminate)).
      lia.
    + apply IH. lia.
  - set (k := rnd (Z.to_nat (Utils.player2Moves (Play.matchStats l1)))).
    destruct (AI_findBestMove_run ai k m1) as [m2 [Hf [Hb2 _]]].
    pose proof (chosen_legal ai k (board m1) (ongoing_legal _ Hon) (Hrnd _))
      as Hin.
    apply legal_move_in in Hin. destruct Hin as [Hc Hbl].
    apply blank_cell in Hbl. cbn [fst snd] in Hbl.
    unfold bind at 1. rewrite Hf. unfold bind at 1, makeMove at 1.
    unfold bind at 1, AI_getStats at 1. apply IH. cbn [board]. rewrite Hb2.
    pose proof (blanks_move (board m1) "O" _ _ Hc Hbl ltac:(discriminate)).
    lia.
Qed.

Lemma playPlayerVsPlayer_loop_total ai :
  forall fuel inputs l m,
    (length inputs < fuel)%nat ->
    exists res m',
      Play.playPlayerVsPlayer_loop fuel ai inputs l m = Some (res, m').
Proof.
  induction fuel as [| fuel IH]; intros inputs l m Hfuel; [lia | ].
  cbn [Play.playPlayerVsPlayer_loop].
  destruct (analysis_run ai l l m eq_refl eq_refl)
    as [l1 [m1 [Ha [Hb1 [Hs1 Ht1]]]]].
  unfold bind at 1. rewrite Ha. unfold bind at 1, checkWin at 1.
  destruct (Game_checkWin (board m1) =? 1); [eexists; eexists; reflexivity | ].
  destruct (Game_checkWin (board m1) =? -1); [eexists; eexists; reflexivity | ].
  destruct (Game_checkWin (board m1) =? 0); [eexists; eexists; reflexivity | ].
  destruct inputs as [| [[r c0] |] inputs]; [eexists; eexists; reflexivity | | ];
    cbn [length] in Hfuel.
  - destruct (Play.off_board r c0); [apply IH; lia | ].
    unfold bind at 1, read_cell at 1.
    destruct (negb (cell (board m1) r c0 =? " ")%char); [apply IH; lia | ].
    unfold bind at 1, makeMove at 1. apply IH. lia.
  - apply IH. lia.
Qed.

(** The fuel of the two matches at the keyboard suffices: neither runs
    out of it.  Every round of their loops ends the match, uses up an
    answer or, on the engine's turn, fills a cell. *)
Lemma keyboard_matches_fuel playerStarts aiVerbose aiDifficulty
    (name1 name2 : String.string) garbage rnd inputs m :
  (forall k, 0 <= rnd k) ->
  (exists res m',
     Play.playGame playerStarts aiVerbose aiDifficulty name1 garbage rnd
       inputs m = Some (res, m')) /\
  (exists res m',
     Play.playPlayerVsPlayer name1 name2 aiDifficulty garbage inputs m
       = Some (res, m')).
Proof.
  intros Hrnd. split.
  - unfold Play.playGame. cbv zeta. unfold bind at 1.
    match goal with
    | |- exists res m', match Play.playGame_loop ?f ?ai rnd inputs ?l ?m0
                        with _ => _ end = _ =>
        destruct (playGame_loop_total ai rnd Hrnd f inputs l m0)
          as [r [m' H]];
          [cbn [board]; change (blanks Game_init) with 9%nat; lia | ];
        rewrite H; eexists; eexists; reflexivity
    end.
  - unfold Play.playPlayerVsPlayer. cbv zeta. unfold bind at 1.
    match goal with
    | |- exists res m', match Play.playPlayerVsPlayer_loop ?f ?ai inputs ?l ?m0
                        with _ => _ end = _ =>
        destruct (playPlayerVsPlayer_loop_total ai f inputs l m0)
          as [r [m' H]]; [lia | ];
        rewrite H; eexists; eexists; reflexivity
    end.
Qed.


(* ================================================================== *)
(** * What the searches add to the counters                            *)
(* ================================================================== *)

Section LoopCounters.

Context {S : Type} (sym : ascii) (visit : M Z) (val nv dv : Z * Z -> Z).
Context (k : S -> Z -> Z -> Z -> M S) (kp : S -> Z * Z -> Z -> S).
Variable b : Board.

Hypothesis visit_counts : forall i j m,
  In (i, j) cells -> cell b i j = " " ->
  board m = Game_makeMove b i j sym ->
  counts visit m (val (i, j)) (nv (i, j)) (dv (i, j)).

Hypothesis k_still : forall s i j v m,
  exists m', k s i j v m = Some (kp s (i, j) v, m') /\
             board m' = board m /\
             g_nodesSearched m' = g_nodesSearched m /\
             g_maxDepthReached m' = g_maxDepthReached m.

(** The counters after a loop over the cells: the sum of the nodes and
    the largest of the depths of the visits made on the blank cells. *)
Lemma try_cells_counts l :
  incl l cells ->
  forall s m, board m = b ->
  exists m',
    for_each (try_cell sym visit k) l s m =
      Some (fold_left (fun s p => if blank b p then kp s p (val p) else s) l s,
            m') /\
    board m' = b /\
    g_nodesSearched m' =
      fold_left (fun acc p => if blank b p then acc + nv p else acc) l
                (g_nodesSearched m) /\
    g_maxDepthReached m' =
      fold_left (fun acc p => if blank b p then Z.max acc (dv p) else acc) l
                (g_maxDepthReached m).
Proof.
  induction l as [| [i j] l IH]; intros Hl s m Hb.
  - exists m. repeat split. exact Hb.
  - assert (In (i, j) cells) as Hin by (apply Hl; now left).
    assert (incl l cells) as Hl' by (intros q Hq; apply Hl; now right).
    rewrite for_each_cons. cbn [fold_left].
    unfold blank at 2 4 6. cbn [fst snd].
    destruct (Ascii.eqb_spec (cell b i j) " ") as [E | E].
    + rewrite try_cell_blank by (rewrite Hb; exact E).
      destruct (visit_counts i j (moved m i j sym) Hin E)
        as [m2 [Hv [Hb2 [Hn2 Hd2]]]]; [cbn; now rewrite Hb | ].
      rewrite Hv.
      assert (board (moved m2 i j " ") = b) as Hb3.
      { cbn. rewrite Hb2. cbn. rewrite Hb. now apply undo_move. }
      destruct (k_still s i j (val (i, j)) (moved m2 i j " "))
        as [m4 [Hk [Hb4 [Hn4 Hd4]]]].
      rewrite Hk.
      destruct (IH Hl' (kp s (i, j) (val (i, j))) m4)
        as [m5 [H5 [Hb5 [Hn5 Hd5]]]]; [congruence | ].
      exists m5. split; [exact H5 | ]. split; [exact Hb5 | ].
      rewrite Hn5, Hd5, Hn4, Hd4. cbn [g_nodesSearched g_maxDepthReached moved].
      rewrite Hn2, Hd2. cbn [g_nodesSearched g_maxDepthReached moved].
      split; reflexivity.
    + rewrite try_cell_marked by (rewrite Hb; exact E).
      apply (IH Hl' s m Hb).
Qed.

End LoopCounters.

Lemma fold_sum_shift {A} (pr : A -> bool) (f : A -> Z) l a :
  fold_left (fun acc p => if pr p then acc + f p else acc) l a =
  a + fold_left (fun acc p => if pr p then acc + f p else acc) l 0.
Proof.
  revert a. induction l as [| x l IH]; intros a; cbn [fold_left]; [lia | ].
  destruct (pr x); [ | apply IH].
  rewrite IH, (IH (0 + f x)). lia.
Qed.

Lemma fold_max_shift {A} (pr : A -> bool) (f : A -> Z) l a d :
  fold_left (fun acc p => if pr p then Z.max acc (f p) else acc) l (Z.max a d) =
  Z.max a (fold_left (fun acc p => if pr p then Z.max acc (f p) else acc) l d).
Proof.
  revert d. induction l as [| x l IH]; intros d; cbn [fold_left];
    [reflexivity | ].
  destruct (pr x); [ | apply IH].
  rewrite <- Z.max_assoc. apply IH.
Qed.

Lemma nodes_val_S fuel isMax b :
  nodes_val (S fuel) isMax b =
  if evaluate b =? 10 then 1
  else if evaluate b =? -10 then 1
  else if Game_isMovesLeft b =? 0 then 1
  else if negb (isMax =? 0) then
    fold_left (fun acc p =>
      if blank b p
      then acc + nodes_val fuel 0 (Game_makeMove b (fst p) (snd p) "O")
      else acc) cells 1
  else
    fold_left (fun acc p =>
      if blank b p
      then acc + nodes_val fuel 1 (Game_makeMove b (fst p) (snd p) "X")
      else acc) cells 1.
Proof. reflexivity. Qed.

Lemma deep_val_S fuel depth isMax b :
  deep_val (S fuel) depth isMax b =
  if evaluate b =? 10 then depth
  else if evaluate b =? -10 then depth
  else if Game_isMovesLeft b =? 0 then depth
  else if negb (isMax =? 0) then
    fold_left (fun acc p =>
      if blank b p
      then Z.max acc (deep_val fuel (depth + 1) 0
                        (Game_makeMove b (fst p) (snd p) "O"))
      else acc) cells depth
  else
    fold_left (fun acc p =>
      if blank b p
      then Z.max acc (deep_val fuel (depth + 1) 1
                        (Game_makeMove b (fst p) (snd p) "X"))
      else acc) cells depth.
Proof. reflexivity. Qed.

Lemma counted_max m depth :
  g_maxDepthReached (counted m depth) = Z.max (g_maxDepthReached m) depth.
Proof.
  cbn [g_maxDepthReached counted].
  destruct (Z.gtb_spec depth (g_maxDepthReached m)); lia.
Qed.

(** The counters after a search. *)
Lemma AI_minimax_fuel_counts fuel :
  forall depth isMax m,
    (blanks (board m) < fuel)%nat ->
    counts (AI_minimax_fuel fuel depth isMax) m
           (minimax_val fuel depth isMax (board m))
           (nodes_val fuel isMax (board m))
           (deep_val fuel depth isMax (board m)).
Proof.
  induction fuel as [| fuel IH]; intros depth isMax m Hfuel; [lia | ].
  unfold counts. rewrite AI_minimax_fuel_S, minimax_val_S, nodes_val_S,
    deep_val_S.
  pose proof (counted_max m depth) as Hmax.
  destruct (evaluate (board m) =? 10);
    [exists (counted m depth); repeat split; exact Hmax | ].
  destruct (evaluate (board m) =? -10);
    [exists (counted m depth); repeat split; exact Hmax | ].
  destruct (Game_isMovesLeft (board m) =? 0);
    [exists (counted m depth); repeat split; exact Hmax | ].
  assert (forall sym nxt i j m',
    sym <> " " -> In (i, j) cells -> cell (board m) i j = " " ->
    board m' = Game_makeMove (board m) i j sym ->
    counts (AI_minimax_fuel fuel (depth + 1) nxt) m'
      (minimax_val fuel (depth + 1) nxt
         (Game_makeMove (board m) (fst (i, j)) (snd (i, j)) sym))
      (nodes_val fuel nxt
         (Game_makeMove (board m) (fst (i, j)) (snd (i, j)) sym))
      (deep_val fuel (depth + 1) nxt
         (Game_makeMove (board m) (fst (i, j)) (snd (i, j)) sym))) as Hvisit.
  { intros sym nxt i j m' Hsym Hin Hc Hb'. cbn [fst snd]. rewrite <- Hb'.
    apply IH. rewrite Hb'.
    pose proof (blanks_move (board m) sym i j Hin Hc Hsym). lia. }
  assert (forall (kp : Z -> Z -> Z) best i j v m0,
    exists m', ret (kp v best) m0 = Some ((fun b0 (_ : Z * Z) v0 => kp v0 b0)
                                            best (i, j) v, m') /\
               board m' = board m0 /\
               g_nodesSearched m' = g_nodesSearched m0 /\
               g_maxDepthReached m' = g_maxDepthReached m0) as Hk
      by (intros; exists m0; repeat split).
  destruct (negb (isMax =? 0)).
  - destruct (try_cells_counts "O" (AI_minimax_fuel fuel (depth + 1) 0)
                (fun p => minimax_val fuel (depth + 1) 0
                            (Game_makeMove (board m) (fst p) (snd p) "O"))
                (fun p => nodes_val fuel 0
                            (Game_makeMove (board m) (fst p) (snd p) "O"))
                (fun p => deep_val fuel (depth + 1) 0
                            (Game_makeMove (board m) (fst p) (snd p) "O"))
                (fun best _ _ val => ret (keep_max val best))
                (fun best _ val => keep_max val best) (board m)
                (fun i j m' => Hvisit "O" 0 i j m' ltac:(discriminate))
                (fun best i j v m0 => Hk keep_max best i j v m0)
                cells (incl_refl _) (- INT_MAX) (counted m depth) eq_refl)
      as [m' [Hrun [Hb [Hn Hd]]]].
    exists m'. split; [exact Hrun | ]. split; [exact Hb | ].
    rewrite Hn, Hd, Hmax. cbn [g_nodesSearched counted].
    split; [ | apply fold_max_shift].
    rewrite fold_sum_shift, (fold_sum_shift _ _ _ 1). lia.
  - destruct (try_cells_counts "X" (AI_minimax_fuel fuel (depth + 1) 1)
                (fun p => minimax_val fuel (depth + 1) 1
                            (Game_makeMove (board m) (fst p) (snd p) "X"))
                (fun p => nodes_val fuel 1
                            (Game_makeMove (board m) (fst p) (snd p) "X"))
                (fun p => deep_val fuel (depth + 1) 1
                            (Game_makeMove (board m) (fst p) (snd p) "X"))
                (fun best _ _ val => ret (keep_min val best))
                (fun best _ val => keep_min val best) (board m)
                (fun i j m' => Hvisit "X" 1 i j m' ltac:(discriminate))
                (fun best i j v m0 => Hk keep_min best i j v m0)
                cells (incl_refl _) INT_MAX (counted m depth) eq_refl)
      as [m' [Hrun [Hb [Hn Hd]]]].
    exists m'. split; [exact Hrun | ]. split; [exact Hb | ].
    rewrite Hn, Hd, Hmax. cbn [g_nodesSearched counted].
    split; [ | apply fold_max_shift].
    rewrite fold_sum_shift, (fold_sum_shift _ _ _ 1). lia.
Qed.

Lemma fold_sum_ge {A} (pr : A -> bool) (f : A -> Z) l a :
  (forall p, In p l -> pr p = true -> 1 <= f p) ->
  a + Z.of_nat (length (filter pr l)) <=
  fold_left (fun acc p => if pr p then acc + f p else acc) l a.
Proof.
  revert a. induction l as [| x l IH]; intros a Hf; cbn [fold_left filter];
    [cbn; lia | ].
  assert (forall p, In p l -> pr p = true -> 1 <= f p) as Hf'
      by (intros p Hp; apply Hf; now right).
  destruct (pr x) eqn:Px.
  - specialize (IH (a + f x) Hf'). specialize (Hf x (or_introl eq_refl) Px).
    cbn [length]. lia.
  - apply IH, Hf'.
Qed.

Lemma fold_max_bounds {A} (pr : A -> bool) (f : A -> Z) l a hi :
  (forall p, In p l -> pr p = true -> f p <= hi) ->
  a <= fold_left (fun acc p => if pr p then Z.max acc (f p) else acc) l a
    <= Z.max a hi.
Proof.
  revert a. induction l as [| x l IH]; intros a Hf; cbn [fold_left]; [lia | ].
  assert (forall p, In p l -> pr p = true -> f p <= hi) as Hf'
      by (intros p Hp; apply Hf; now right).
  destruct (pr x) eqn:Px.
  - specialize (IH (Z.max a (f x)) Hf'). specialize (Hf x (or_introl eq_refl) Px).
    lia.
  - apply IH, Hf'.
Qed.

Lemma fold_sum_mono {A} (pr : A -> bool) (f : A -> Z) l a :
  (forall p, 0 <= f p) ->
  a <= fold_left (fun acc p => if pr p then acc + f p else acc) l a.
Proof.
  intros Hf. revert a. induction l as [| x l IH]; intros a; cbn [fold_left];
    [lia | ].
  destruct (pr x); [ | apply IH].
  specialize (IH (a + f x)). specialize (Hf x). lia.
Qed.

Lemma nodes_val_nonneg fuel : forall isMax b, 0 <= nodes_val fuel isMax b.
Proof.
  induction fuel as [| fuel IH]; intros isMax b; [cbn; lia | ].
  rewrite nodes_val_S.
  destruct (evaluate b =? 10); [lia | ].
  destruct (evaluate b =? -10); [lia | ].
  destruct (Game_isMovesLeft b =? 0); [lia | ].
  destruct (negb (isMax =? 0)).
  - pose proof (fold_sum_mono (blank b)
                  (fun p => nodes_val fuel 0
                              (Game_makeMove b (fst p) (snd p) "O"))
                  cells 1 (fun p => IH 0 _)) as H.
    cbv beta in H. lia.
  - pose proof (fold_sum_mono (blank b)
                  (fun p => nodes_val fuel 1
                              (Game_makeMove b (fst p) (snd p) "X"))
                  cells 1 (fun p => IH 1 _)) as H.
    cbv beta in H. lia.
Qed.

Lemma nodes_val_pos fuel isMax b : 1 <= nodes_val (S fuel) isMax b.
Proof.
  rewrite nodes_val_S.
  destruct (evaluate b =? 10); [lia | ].
  destruct (evaluate b =? -10); [lia | ].
  destruct (Game_isMovesLeft b =? 0); [lia | ].
  destruct (negb (isMax =? 0)).
  - apply (fold_sum_mono (blank b)
             (fun p => nodes_val fuel 0
                         (Game_makeMove b (fst p) (snd p) "O"))
             cells 1 (fun p => nodes_val_nonneg fuel 0 _)).
  - apply (fold_sum_mono (blank b)
             (fun p => nodes_val fuel 1
                         (Game_makeMove b (fst p) (snd p) "X"))
             cells 1 (fun p => nodes_val_nonneg fuel 1 _)).
Qed.

Lemma deep_val_bounds fuel :
  forall depth isMax b,
    depth <= deep_val fuel depth isMax b <= depth + Z.of_nat (blanks b).
Proof.
  induction fuel as [| fuel IH]; intros depth isMax b; [cbn; lia | ].
  rewrite deep_val_S.
  destruct (evaluate b =? 10); [lia | ].
  destruct (evaluate b =? -10); [lia | ].
  destruct (Game_isMovesLeft b =? 0); [lia | ].
  assert (forall sym nxt p, sym <> " " -> In p cells -> blank b p = true ->
            deep_val fuel (depth + 1) nxt
              (Game_makeMove b (fst p) (snd p) sym)
            <= depth + Z.of_nat (blanks b)) as Hchild.
  { intros sym nxt [i j] Hsym Hin Hbl. apply blank_cell in Hbl.
    cbn [fst snd] in *.
    pose proof (blanks_move b sym i j Hin Hbl Hsym) as Hk.
    pose proof (IH (depth + 1) nxt (Game_makeMove b i j sym)). lia. }
  destruct (negb (isMax =? 0)).
  - pose proof (fold_max_bounds (blank b)
                  (fun p => deep_val fuel (depth + 1) 0
                              (Game_makeMove b (fst p) (snd p) "O"))
                  cells depth (depth + Z.of_nat (blanks b))
                  (fun p => Hchild "O" 0 p ltac:(discriminate))) as H.
    cbv beta in H. lia.
  - pose proof (fold_max_bounds (blank b)
                  (fun p => deep_val fuel (depth + 1) 1
                              (Game_makeMove b (fst p) (snd p) "X"))
                  cells depth (depth + Z.of_nat (blanks b))
                  (fun p => Hchild "X" 1 p ltac:(discriminate))) as H.
    cbv beta in H. lia.
Qed.

Lemma top_visit_counts b i j m :
  In (i, j) cells -> cell b i j = " " ->
  board m = Game_makeMove b i j "O" ->
  counts (AI_minimax 0 0) m (top_val b (i, j))
    ((fun p => nodes_val 10 0 (Game_makeMove b (fst p) (snd p) "O")) (i, j))
    ((fun p => deep_val 10 0 0 (Game_makeMove b (fst p) (snd p) "O")) (i, j)).
Proof.
  intros _ _ Hb. unfold top_val. cbn [fst snd]. rewrite <- Hb.
  apply AI_minimax_fuel_counts. pose proof (blanks_le_9 (board m)). lia.
Qed.

(** The counters after [AI_findBestMove]: those of the scan, whatever
    they were before. *)
Lemma AI_findBestMove_counts self rnd m :
  exists mv m',
    AI_findBestMove self rnd m = Some (mv, m') /\
    g_nodesSearched m' = search_nodes (board m) /\
    g_maxDepthReached m' = search_depth (board m).
Proof.
  unfold AI_findBestMove, AI_findBestMove_impl.
  unfold bind at 1, reset_counters at 1.
  destruct (try_cells_counts "O" (AI_minimax 0 0) (top_val (board m))
              (fun p => nodes_val 10 0
                          (Game_makeMove (board m) (fst p) (snd p) "O"))
              (fun p => deep_val 10 0 0
                          (Game_makeMove (board m) (fst p) (snd p) "O"))
              (fun st i j moveVal =>
                 (if verbose self >=? 2 then printf (PrintScore i j moveVal)
                  else ret tt) ;;;
                 ret (mkScan
                        (if moveVal >? bestVal st then moveVal else bestVal st)
                        (if moveVal >? bestVal st then mkMove i j
                         else bestMove st)
                        (cand st ++ [mkCand i j moveVal])))
              scan_step (board m)
              (top_visit_counts (board m))
              (fun st i j v m0 =>
                 ltac:(unfold bind, printf, ret;
                       destruct (verbose self >=? 2); eexists;
                       repeat split))
              cells (incl_refl _) scan0
              (mkMem (board m) 0 0 (stdout m) (calls m)) eq_refl)
    as [m1 [Hrun [Hb [Hn Hd]]]].
  unfold bind at 1.
  change (scan_moves self) with
    (for_each (try_cell "O" (AI_minimax 0 0)
       (fun st i j moveVal =>
          (if verbose self >=? 2 then printf (PrintScore i j moveVal)
           else ret tt) ;;;
          ret (mkScan
                 (if moveVal >? bestVal st then moveVal else bestVal st)
                 (if moveVal >? bestVal st then mkMove i j
                  else bestMove st)
                 (cand st ++ [mkCand i j moveVal])))) cells scan0).
  rewrite Hrun.
  match goal with
  | |- exists mv m', (if ?c then _ else _) _ = _ /\ _ => destruct c
  end; [eexists; exists m1; split; [reflexivity | split; assumption] | ].
  match goal with
  | |- context [select self rnd ?st] =>
      destruct (select self rnd st) as [mv bv]
  end.
  unfold bind, printf, ret.
  destruct (verbose self >=? 1);
    [ | exists mv, m1; split; [reflexivity | split; assumption]].
  destruct (bv >? 0);
    [eexists; eexists; split; [reflexivity | split; assumption] | ].
  destruct (bv <? 0);
    eexists; eexists; (split; [reflexivity | split; assumption]).
Qed.

Lemma AI_explain_counts ai maxOut m :
  exists res m',
    AI_explain ai maxOut m = Some (res, m') /\
    g_nodesSearched m' = search_nodes (board m) /\
    g_maxDepthReached m' = search_depth (board m).
Proof.
  unfold AI_explain. unfold bind at 1, reset_counters at 1.
  destruct (try_cells_counts "O" (AI_minimax 0 0) (top_val (board m))
              (fun p => nodes_val 10 0
                          (Game_makeMove (board m) (fst p) (snd p) "O"))
              (fun p => deep_val 10 0 0
                          (Game_makeMove (board m) (fst p) (snd p) "O"))
              (fun no i j mv =>
                 ret (fst no + 1,
                      if fst no <? maxOut then snd no ++ [mkCand i j mv]
                      else snd no))
              (fun no p v =>
                 (fst no + 1,
                  if fst no <? maxOut
                  then snd no ++ [mkCand (fst p) (snd p) v]
                  else snd no))
              (board m)
              (top_visit_counts (board m))
              (fun no i j v m0 =>
                 ex_intro _ m0 (conj eq_refl (conj eq_refl
                                  (conj eq_refl eq_refl))))
              cells (incl_refl _) (0, [])
              (mkMem (board m) 0 0 (stdout m) (calls m)) eq_refl)
    as [m1 [Hrun [Hb [Hn Hd]]]].
  eexists. exists m1. split; [exact Hrun | split; assumption].
Qed.

Lemma fold_max_from {A} (pr : A -> bool) (f : A -> Z) l a :
  0 <= a ->
  fold_left (fun acc p => if pr p then Z.max acc (f p) else acc) l a =
  Z.max a (fold_left (fun acc p => if pr p then Z.max acc (f p) else acc) l 0).
Proof.
  intros Ha. rewrite <- fold_max_shift. f_equal. lia.
Qed.

(** The counters after [AI_getPrediction]: what they were, plus the
    scan. *)
Lemma AI_getPrediction_counts ai m :
  0 <= g_maxDepthReached m ->
  exists v m',
    AI_getPrediction ai m = Some (v, m') /\
    g_nodesSearched m' = g_nodesSearched m + search_nodes (board m) /\
    g_maxDepthReached m' =
      Z.max (g_maxDepthReached m) (search_depth (board m)).
Proof.
  intros H0. unfold AI_getPrediction.
  destruct (try_cells_counts "O" (AI_minimax 0 0) (top_val (board m))
              (fun p => nodes_val 10 0
                          (Game_makeMove (board m) (fst p) (snd p) "O"))
              (fun p => deep_val 10 0 0
                          (Game_makeMove (board m) (fst p) (snd p) "O"))
              (fun bestVal _ _ mv =>
                 ret (if mv >? bestVal then mv else bestVal))
              (fun best _ v => keep_max v best)
              (board m)
              (top_visit_counts (board m))
              (fun best i j v m0 =>
                 ex_intro _ m0 (conj eq_refl (conj eq_refl
                                  (conj eq_refl eq_refl))))
              cells (incl_refl _) (- INT_MAX) m eq_refl)
    as [m1 [Hrun [Hb [Hn Hd]]]].
  unfold bind at 1.
  change (for_each _ cells (- INT_MAX) m) with
    (for_each (try_cell "O" (AI_minimax 0 0)
       (fun bestVal _ _ mv => ret (if mv >? bestVal then mv else bestVal)))
       cells (- INT_MAX) m).
  rewrite Hrun.
  rewrite fold_sum_shift in Hn. rewrite fold_max_from in Hd by exact H0.
  match goal with
  | |- exists v m', (if ?c then _ else _) _ = _ /\ _ => destruct c
  end; [exists (-1), m1; split; [reflexivity | split; assumption] | ].
  match goal with
  | |- exists v m', (if ?c then _ else _) _ = _ /\ _ => destruct c
  end; [exists 1, m1 | exists 0, m1]; (split; [reflexivity | split; assumption]).
Qed.

Lemma search_nodes_ge b : Z.of_nat (length (legalMoves b)) <= search_nodes b.
Proof.
  unfold search_nodes, legalMoves.
  pose proof (fold_sum_ge (blank b)
                (fun p => nodes_val 10 0
                            (Game_makeMove b (fst p) (snd p) "O"))
                cells 0
                (fun p _ _ => nodes_val_pos 9 0 _)) as H.
  cbv beta in H. lia.
Qed.

Lemma search_depth_bounds b :
  0 <= search_depth b <= Z.max 0 (Z.of_nat (blanks b) - 1).
Proof.
  unfold search_depth.
  apply (fold_max_bounds (blank b)
           (fun p => deep_val 10 0 0 (Game_makeMove b (fst p) (snd p) "O"))).
  intros [i j] Hin Hbl. apply blank_cell in Hbl. cbn [fst snd] in *.
  pose proof (blanks_move b "O" i j Hin Hbl ltac:(discriminate)) as Hk.
  pose proof (deep_val_bounds 10 0 0 (Game_makeMove b i j "O")). lia.
Qed.

(** X11.  After [AI_findBestMove] and after [AI_explain] the two counters
    are a function of the board alone: the same for both entries, for
    every difficulty, verbosity, [maxOut] and value of [rand()], and
    whatever the counters held before.  The node count is at least the
    number of legal moves, and the depth lies between 0 and the number of
    blank cells minus one. *)
Theorem search_statistics self rnd maxOut m :
  exists mv m1 res m2,
    AI_findBestMove self rnd m = Some (mv, m1) /\
    AI_explain self maxOut m = Some (res, m2) /\
    g_nodesSearched m1 = search_nodes (board m) /\
    g_nodesSearched m2 = search_nodes (board m) /\
    g_maxDepthReached m1 = search_depth (board m) /\
    g_maxDepthReached m2 = search_depth (board m) /\
    Z.of_nat (length (legalMoves (board m))) <= search_nodes (board m) /\
    0 <= search_depth (board m) <= Z.max 0 (Z.of_nat (blanks (board m)) - 1).
Proof.
  destruct (AI_findBestMove_counts self rnd m) as [mv [m1 [H1 [Hn1 Hd1]]]].
  destruct (AI_explain_counts self maxOut m) as [res [m2 [H2 [Hn2 Hd2]]]].
  exists mv, m1, res, m2.
  repeat split; try assumption;
    [apply search_nodes_ge | apply search_depth_bounds ..].
Qed.

(** X12.  [AI_getPrediction] adds to the counters instead of replacing
    them.  Entered with a depth counter that is not negative and a node
    counter that the scan of the board does not take beyond [INT_MAX]
    (the counters are [int]s, and [g_nodesSearched++] has a defined value
    only below [INT_MAX]), it leaves the node counter at its former value
    plus the nodes of the scan, and the depth counter at the larger of its
    former value and the depth of that scan.  On a board with a legal move
    the node counter is therefore strictly larger than before, and what
    [AI_getStats] reports then depends on the calls made earlier. *)
Theorem AI_getPrediction_accumulates ai m :
  0 <= g_maxDepthReached m ->
  - INT_MAX - 1 <= g_nodesSearched m ->
  g_nodesSearched m + search_nodes (board m) <= INT_MAX ->
  exists v m',
    AI_getPrediction ai m = Some (v, m') /\
    g_nodesSearched m' = g_nodesSearched m + search_nodes (board m) /\
    g_maxDepthReached m' =
      Z.max (g_maxDepthReached m) (search_depth (board m)) /\
    g_nodesSearched m' <= INT_MAX /\
    (legalMoves (board m) <> [] -> g_nodesSearched m < g_nodesSearched m').
Proof.
  intros H0 _ Hmax.
  destruct (AI_getPrediction_counts ai m H0) as [v [m' [H [Hn Hd]]]].
  exists v, m'. repeat split; try assumption; [lia | ].
  intros Hne. pose proof (search_nodes_ge (board m)).
  destruct (legalMoves (board m)); [congruence | cbn [length] in *; lia].
Qed.

Lemma search_nodes_last_cell : search_nodes last_cell_board = 1.
Proof. vm_compute. reflexivity. Qed.

Lemma AI_getPrediction_accumulates_witness :
  exists v m',
    AI_getPrediction AI_init (mkMem last_cell_board 7 3 [] [])
      = Some (v, m') /\
    g_nodesSearched m' = 7 + search_nodes last_cell_board /\
    g_maxDepthReached m' = Z.max 3 (search_depth last_cell_board) /\
    g_nodesSearched m' <= INT_MAX /\
    (legalMoves last_cell_board <> [] -> 7 < g_nodesSearched m').
Proof.
  apply (AI_getPrediction_accumulates AI_init
           (mkMem last_cell_board 7 3 [] [])).
  - cbn. lia.
  - cbn [g_nodesSearched]. unfold INT_MAX. lia.
  - cbn [g_nodesSearched board]. rewrite search_nodes_last_cell.
    unfold INT_MAX. lia.
Defined.
(* ================================================================== *)
(** * The leaderboard file                                             *)
(* ================================================================== *)

Import Leaderboard.

Lemma append_assoc_s (a b c : string) :
  ((a ++ b) ++ c = a ++ (b ++ c))%string.
Proof. induction a as [| x a IH]; cbn; [reflexivity | now rewrite IH]. Qed.

Lemma length_append_s (a b : string) :
  String.length (a ++ b) = (String.length a + String.length b)%nat.
Proof. induction a as [| x a IH]; cbn; [reflexivity | now rewrite IH]. Qed.

Lemma digit_char_facts d :
  0 <= d < 10 ->
  isdigit (digit_char d) = true /\ isspace (digit_char d) = false /\
  Z.of_N (N_of_ascii (digit_char d)) - 48 = d /\
  digit_char d <> "-" /\ digit_char d <> "+".
Proof.
  intros H.
  assert (d = 0 \/ d = 1 \/ d = 2 \/ d = 3 \/ d = 4 \/ d = 5 \/ d = 6 \/
          d = 7 \/ d = 8 \/ d = 9) as Hd by lia.
  repeat destruct Hd as [Hd | Hd]; subst d;
    (repeat split; [reflexivity .. | discriminate | discriminate]).
Qed.

(** The digits written are read back. *)
Lemma scan_digits_digits fuel :
  forall n acc rest,
    0 <= n < 10 ^ Z.of_nat fuel ->
    scan_digits (digits fuel n acc ++ rest) 0 = scan_digits (acc ++ rest) n.
Proof.
  induction fuel as [| fuel IH]; intros n acc rest Hn.
  - cbn in Hn. assert (n = 0) by lia. subst n. reflexivity.
  - cbn [digits].
    pose proof (Z.mod_pos_bound n 10 ltac:(lia)) as Hm.
    destruct (digit_char_facts (n mod 10) Hm) as [Hd [_ [Hv _]]].
    destruct (Z.ltb_spec n 10) as [Hlt | Hge].
    + cbn [append scan_digits]. rewrite Hd, Hv.
      rewrite Z.mod_small by lia. reflexivity.
    + rewrite IH.
      * cbn [append scan_digits]. rewrite Hd, Hv.
        f_equal. pose proof (Z.div_mod n 10 ltac:(lia)). lia.
      * rewrite Nat2Z.inj_succ, Z.pow_succ_r in Hn by lia.
        split; [apply Z.div_pos; lia | apply Z.div_lt_upper_bound; lia].
Qed.

Lemma digits_head fuel :
  forall n acc,
    exists d s, 0 <= d < 10 /\
                digits (S fuel) n acc = String (digit_char d) s.
Proof.
  induction fuel as [| fuel IH]; intros n acc;
    pose proof (Z.mod_pos_bound n 10 ltac:(lia)) as Hm.
  - cbn [digits]. exists (n mod 10), acc. split; [exact Hm | ].
    destruct (n <? 10); reflexivity.
  - change (digits (S (S fuel)) n acc) with
      (if n <? 10 then String (digit_char (n mod 10)) acc
       else digits (S fuel) (n / 10) (String (digit_char (n mod 10)) acc)).
    destruct (n <? 10); [exists (n mod 10), acc; now split | apply IH].
Qed.

Lemma is_int_range v : is_int v = true <-> INT_MIN <= v <= INT_MAX.
Proof. unfold is_int. rewrite andb_true_iff, !Z.leb_le. reflexivity. Qed.

(** A number written is read back, up to the character that follows
    it. *)
Lemma scan_int_print v c rest :
  is_int v = true -> isdigit c = false ->
  scan_int (print_int v ++ String c rest) = Got v (String c rest).
Proof.
  intros Hv Hc. apply is_int_range in Hv. unfold INT_MIN, INT_MAX in Hv.
  assert (forall n, scan_digits (String c rest) n = (n, String c rest))
    as Hstop by (intros n; cbn [scan_digits]; now rewrite Hc).
  unfold print_int. destruct (Z.ltb_spec v 0) as [Hneg | Hpos].
  - destruct (digits_head 9 (- v) EmptyString) as [d [s [Hd Hs]]].
    destruct (digit_char_facts d Hd) as [Hdig _].
    pose proof (scan_digits_digits 10 (- v) EmptyString (String c rest)
                  ltac:(cbn; lia)) as Hrun.
    unfold scan_int.
    change (skip_ws (String "-" (digits 10 (- v) "") ++ String c rest))
      with (String "-" (digits 10 (- v) "" ++ String c rest)).
    cbv iota beta. rewrite Hs in *. cbn [append] in *. rewrite Hdig, Hrun.
    cbn [append]. rewrite Hstop. rewrite Z.opp_involutive.
    unfold INT_MIN, INT_MAX.
    destruct (Z.leb_spec (-2147483648) v); [ | lia].
    destruct (Z.leb_spec v 2147483647); [reflexivity | lia].
  - destruct (digits_head 9 v EmptyString) as [d [s [Hd Hs]]].
    destruct (digit_char_facts d Hd) as [Hdig [Hsp [_ [Hm Hp]]]].
    pose proof (scan_digits_digits 10 v EmptyString (String c rest)
                  ltac:(cbn; lia)) as Hrun.
    unfold scan_int. rewrite Hs in *. cbn [append] in *.
    cbn [skip_ws]. rewrite Hsp.
    assert (match String (digit_char d) (s ++ String c rest) with
            | String "-" s' => (true, s')
            | String "+" s' => (false, s')
            | _ => (false, String (digit_char d) (s ++ String c rest))
            end = (false, String (digit_char d) (s ++ String c rest)))
      as Hsign.
    { assert (d = 0 \/ d = 1 \/ d = 2 \/ d = 3 \/ d = 4 \/ d = 5 \/ d = 6 \/
              d = 7 \/ d = 8 \/ d = 9) as Hd' by lia.
      repeat destruct Hd' as [Hd' | Hd']; subst d; reflexivity. }
    rewrite Hsign. rewrite Hdig, Hrun. cbn [append]. rewrite Hstop.
    unfold INT_MIN, INT_MAX.
    destruct (Z.leb_spec (-2147483648) v); [ | lia].
    destruct (Z.leb_spec v 2147483647); [reflexivity | lia].
Qed.

Lemma no_space_head c s :
  no_space (String c s) = true ->
  isspace c = false /\ (c =? zero)%char = false /\ no_space s = true.
Proof.
  cbn [no_space]. rewrite !andb_true_iff, !negb_true_iff. tauto.
Qed.

(** A word written is read back, up to the white space that follows
    it. *)
Lemma scan_word_word name :
  forall w c rest,
    no_space name = true -> (String.length name <= w)%nat ->
    isspace c = true ->
    scan_word w (name ++ String c rest) = (name, String c rest).
Proof.
  induction name as [| x name IH]; intros w c rest Hn Hw Hc.
  - cbn [append]. destruct w; cbn [scan_word]; [ | rewrite Hc]; reflexivity.
  - destruct (no_space_head _ _ Hn) as [Hx [_ Hn']].
    destruct w as [| w]; [cbn in Hw; lia | ].
    cbn [append scan_word]. rewrite Hx.
    rewrite IH by (try assumption; cbn in Hw; lia). reflexivity.
Qed.

Lemma c_str_word name : no_space name = true -> c_str name = name.
Proof.
  induction name as [| x name IH]; intros Hn; [reflexivity | ].
  destruct (no_space_head _ _ Hn) as [_ [Hz Hn']].
  cbn [c_str]. rewrite Hz, IH by exact Hn'. reflexivity.
Qed.

Lemma is_word_facts name :
  is_word name = true ->
  name <> EmptyString /\ (String.length name <= 49)%nat /\
  no_space name = true.
Proof.
  unfold is_word. rewrite !andb_true_iff, negb_true_iff.
  intros [[H1 H2] H3]. repeat split; [ | | exact H3].
  - intros ->. discriminate.
  - now apply Nat.leb_le in H2.
Qed.

Lemma skip_ws_word name rest :
  is_word name = true -> skip_ws (name ++ rest) = (name ++ rest)%string.
Proof.
  intros H. destruct (is_word_facts _ H) as [Hne [_ Hn]].
  destruct name as [| x name]; [congruence | ].
  destruct (no_space_head _ _ Hn) as [Hx _].
  cbn [append skip_ws]. now rewrite Hx.
Qed.

Lemma copy_name_word name :
  is_word name = true -> Utils.copy_name name = name.
Proof.
  intros H. destruct (is_word_facts _ H) as [_ [Hl _]]. clear H.
  unfold Utils.copy_name. change (Utils.MAX_USERNAME - 1)%nat with 49%nat.
  revert Hl. generalize 49%nat as n.
  induction name as [| x name IH]; intros n Hl.
  - destruct n; reflexivity.
  - cbn [String.length] in Hl.
    destruct n as [| n]; [lia | ].
    cbn [substring]. rewrite IH by lia. reflexivity.
Qed.

Lemma well_formed_facts r :
  well_formed r = true ->
  is_word (username r) = true /\ is_int (wins r) = true /\
  is_int (losses r) = true /\ is_int (draws r) = true /\
  is_int (totalGames r) = true.
Proof. unfold well_formed. rewrite !andb_true_iff. tauto. Qed.

(** A record written is read back; the newline of its line is left in
    the file. *)
Lemma scan_record_print r s rest :
  well_formed r = true ->
  skip_ws s = (print_record r ++ rest)%string ->
  scan_record s = Got r (String "010" rest).
Proof.
  intros Hr Hs.
  destruct (well_formed_facts _ Hr) as [Hn [Hw [Hl [Hd Ht]]]].
  destruct (is_word_facts _ Hn) as [Hne [Hlen Hns]].
  unfold scan_record. rewrite Hs. unfold print_record.
  rewrite !append_assoc_s. cbn [append].
  change (Utils.MAX_USERNAME - 1)%nat with 49%nat.
  rewrite scan_word_word by (try assumption; reflexivity).
  destruct (username r) as [| x name] eqn:E; [congruence | ].
  rewrite <- E in *.
  assert (forall v c t, is_int v = true -> isdigit c = false ->
            scan_int (String " " (print_int v ++ String c t))
            = Got v (String c t)) as Hint.
  { intros v c t Hv Hc. rewrite <- (scan_int_print v c t Hv Hc).
    reflexivity. }
  unfold then_scan.
  repeat (rewrite Hint by (assumption || reflexivity)).
  rewrite c_str_word by exact Hns.
  destruct r; reflexivity.
Qed.

Lemma print_records_cons r rs :
  print_records (r :: rs) =
  (username r ++
   String " " (print_int (wins r) ++ String " " (print_int (losses r) ++
   String " " (print_int (draws r) ++ String " " (print_int (totalGames r) ++
   String "010" (print_records rs))))))%string.
Proof.
  cbn [print_records]. unfold print_record.
  rewrite !append_assoc_s. reflexivity.
Qed.

(** Between two records the reader stands at the newline, or at the
    start of the file; the white space it skips brings it to the next
    name. *)
Lemma skip_ws_records rs :
  Forall (fun r => well_formed r = true) rs ->
  skip_ws (print_records rs) = print_records rs /\
  skip_ws (String "010" (print_records rs)) = print_records rs.
Proof.
  intros H.
  assert (skip_ws (print_records rs) = print_records rs) as E.
  { destruct H as [| r rs Hr _]; [reflexivity | ].
    rewrite print_records_cons. apply skip_ws_word.
    now destruct (well_formed_facts _ Hr). }
  split; [exact E | ]. exact E.
Qed.

Lemma scan_record_end s : skip_ws s = EmptyString -> scan_record s = Stop.
Proof. intros H. unfold scan_record. now rewrite H. Qed.

Lemma scan_record_next r rs s :
  Forall (fun r => well_formed r = true) (r :: rs) ->
  skip_ws s = print_records (r :: rs) ->
  scan_record s = Got r (String "010" (print_records rs)).
Proof.
  intros H Hs. inversion H; subst.
  apply scan_record_print; assumption.
Qed.

Lemma search_file_records name rs :
  forall s fuel,
    Forall (fun r => well_formed r = true) rs ->
    skip_ws s = print_records rs ->
    (length rs < fuel)%nat ->
    search_file fuel name s = Some (lookup name rs).
Proof.
  induction rs as [| r rs IH]; intros s fuel Hwf Hs Hfuel;
    (destruct fuel as [| fuel]; [cbn in Hfuel; lia | ]); cbn [search_file].
  - rewrite scan_record_end by exact Hs. reflexivity.
  - rewrite (scan_record_next r rs s Hwf Hs).
    unfold lookup. cbn [find].
    destruct (username r =? name)%string; [reflexivity | ].
    apply IH.
    + now inversion Hwf.
    + apply skip_ws_records. now inversion Hwf.
    + cbn in Hfuel. lia.
Qed.

Lemma read_for_save_records record rs :
  forall slots s acc found,
    Forall (fun r => well_formed r = true) rs ->
    skip_ws s = print_records rs ->
    read_for_save slots record s acc found =
    Some (acc ++ map (fun r => if (username r =? username record)%string
                               then record else r) (firstn slots rs),
          found || existsb (fun r => (username r =? username record)%string)
                           (firstn slots rs)).
Proof.
  induction rs as [| r rs IH]; intros slots s acc found Hwf Hs;
    (destruct slots as [| slots];
     [cbn; now rewrite app_nil_r, orb_false_r | ]); cbn [read_for_save].
  - rewrite scan_record_end by exact Hs. cbn.
    now rewrite app_nil_r, orb_false_r.
  - rewrite (scan_record_next r rs s Hwf Hs).
    cbn [firstn map existsb].
    assert (Forall (fun r => well_formed r = true) rs) as Hwf'
      by now inversion Hwf.
    destruct (username r =? username record)%string;
      rewrite IH by (try assumption; now apply skip_ws_records);
      rewrite <- app_assoc; cbn [app orb];
      [now rewrite orb_true_r | reflexivity].
Qed.

Lemma read_records_records rs :
  forall slots s acc,
    Forall (fun r => well_formed r = true) rs ->
    skip_ws s = print_records rs ->
    read_records slots s acc = Some (acc ++ firstn slots rs).
Proof.
  induction rs as [| r rs IH]; intros slots s acc Hwf Hs;
    (destruct slots as [| slots]; [cbn; now rewrite app_nil_r | ]);
    cbn [read_records].
  - rewrite scan_record_end by exact Hs. cbn. now rewrite app_nil_r.
  - rewrite (scan_record_next r rs s Hwf Hs). cbn [firstn].
    rewrite IH; [now rewrite <- app_assoc | now inversion Hwf | ].
    apply skip_ws_records. now inversion Hwf.
Qed.

Lemma print_records_length rs :
  (length rs <= String.length (print_records rs))%nat.
Proof.
  induction rs as [| r rs IH]; [cbn; lia | ].
  cbn [print_records length]. rewrite length_append_s.
  unfold print_record. rewrite !length_append_s. cbn [String.length]. lia.
Qed.

(** [loadPlayerRecord] on a file of well-formed records: the first
    record of the name. *)
Lemma loadPlayerRecord_holds name file rs :
  holds file rs -> Forall (fun r => well_formed r = true) rs ->
  loadPlayerRecord name file =
  Some (match lookup name rs with
        | Some r => (1, r)
        | None => (0, new_player name)
        end).
Proof.
  intros Hf Hwf. unfold loadPlayerRecord.
  destruct file as [s | ]; cbn [holds] in Hf; subst; [ | reflexivity].
  rewrite (search_file_records name rs).
  - destruct (lookup name rs); reflexivity.
  - exact Hwf.
  - now apply skip_ws_records.
  - pose proof (print_records_length rs). lia.
Qed.

(** [savePlayerRecord] on a file of well-formed records. *)
Lemma savePlayerRecord_holds record can_write file rs :
  holds file rs -> Forall (fun r => well_formed r = true) rs ->
  savePlayerRecord record can_write file =
  Some (if can_write then Written (print_records (put record rs))
        else CouldNotSave).
Proof.
  intros Hf Hwf. unfold savePlayerRecord, put.
  destruct file as [s | ]; cbn [holds] in Hf; subst.
  - rewrite (read_for_save_records record rs) by
      (try assumption; now apply skip_ws_records).
    cbn [app orb]. rewrite length_map. now destruct can_write.
  - now destruct can_write.
Qed.

(** ** What a save keeps *)

Lemma firstn_In_s {A} (x : A) n :
  forall l, In x (firstn n l) -> In x l.
Proof.
  induction n as [| n IH]; intros [| y l] H; cbn in *; try contradiction.
  destruct H as [H | H]; [now left | right; now apply IH].
Qed.

Lemma put_Forall (P : PlayerRecord -> Prop) record rs :
  P record -> Forall P rs -> Forall P (put record rs).
Proof.
  intros Hr Hwf. unfold put.
  assert (Forall P
            (map (fun r => if (username r =? username record)%string
                           then record else r) (firstn 100 rs))) as H.
  { apply Forall_forall. intros x Hx. apply in_map_iff in Hx.
    destruct Hx as [y [Hy Hin]]. apply firstn_In_s in Hin.
    rewrite Forall_forall in Hwf.
    destruct (username y =? username record)%string; subst;
      [exact Hr | now apply Hwf]. }
  match goal with |- Forall _ (if ?c then _ else _) => destruct c end;
    [apply Forall_app; split; [exact H | now constructor] | exact H].
Qed.

Lemma put_length record rs : (length (put record rs) <= 100)%nat.
Proof.
  unfold put.
  pose proof (firstn_le_length 100 rs) as H1.
  pose proof (length_firstn 100 rs) as H2.
  destruct (negb _); cbn [andb]; [ | rewrite length_map; lia].
  destruct (Nat.ltb_spec (length (firstn 100 rs)) 100);
    [rewrite length_app | ]; rewrite length_map; cbn [length]; lia.
Qed.

Lemma lookup_app name a b :
  lookup name (a ++ b) =
  match lookup name a with Some r => Some r | None => lookup name b end.
Proof.
  unfold lookup. induction a as [| x a IH]; cbn [app find]; [reflexivity | ].
  destruct (username x =? name)%string; [reflexivity | exact IH].
Qed.

Lemma lookup_replaced_other name record l :
  name <> username record ->
  lookup name (map (fun r => if (username r =? username record)%string
                             then record else r) l) = lookup name l.
Proof.
  intros Hne. unfold lookup.
  induction l as [| x l IH]; cbn [map find]; [reflexivity | ].
  destruct (String.eqb_spec (username x) (username record)) as [E | E].
  - destruct (String.eqb_spec (username record) name) as [E1 | _];
      [congruence | ].
    destruct (String.eqb_spec (username x) name) as [E2 | _];
      [congruence | exact IH].
  - destruct (username x =? name)%string; [reflexivity | exact IH].
Qed.

Lemma lookup_replaced_same record l :
  lookup (username record)
    (map (fun r => if (username r =? username record)%string
                   then record else r) l) =
  if existsb (fun r => (username r =? username record)%string) l
  then Some record else None.
Proof.
  unfold lookup.
  induction l as [| x l IH]; cbn [map find existsb]; [reflexivity | ].
  destruct (String.eqb_spec (username x) (username record)) as [E | E];
    cbn [orb].
  - now rewrite String.eqb_refl.
  - destruct (String.eqb_spec (username x) (username record));
      [contradiction | exact IH].
Qed.

Lemma lookup_exists name l :
  existsb (fun r => (username r =? name)%string) l = true <->
  lookup name l <> None.
Proof.
  unfold lookup. induction l as [| x l IH]; cbn [find existsb].
  - split; [discriminate | congruence].
  - destruct (username x =? name)%string; cbn [orb];
      [split; [discriminate | reflexivity] | exact IH].
Qed.

(** After a save every other name is answered from the first hundred
    records as before. *)
Lemma lookup_put_other name record rs :
  name <> username record ->
  lookup name (put record rs) = lookup name (firstn 100 rs).
Proof.
  intros Hne. unfold put.
  match goal with |- lookup _ (if ?c then _ else _) = _ => destruct c end;
    [rewrite lookup_app | ]; rewrite lookup_replaced_other by exact Hne;
    [ | reflexivity].
  destruct (lookup name (firstn 100 rs)); [reflexivity | ].
  unfold lookup. cbn [find].
  destruct (String.eqb_spec (username record) name); [congruence | ].
  reflexivity.
Qed.

(** After a save the name of the record is answered with the record, if
    it was among the first hundred or there was room for it. *)
Lemma lookup_put_same record rs :
  (length rs < 100)%nat \/ lookup (username record) (firstn 100 rs) <> None ->
  lookup (username record) (put record rs) = Some record.
Proof.
  intros H. unfold put.
  destruct (existsb (fun r => (username r =? username record)%string)
              (firstn 100 rs)) eqn:E; cbn [negb andb].
  - rewrite lookup_replaced_same, E. reflexivity.
  - destruct H as [H | H].
    + pose proof (length_firstn 100 rs).
      destruct (Nat.ltb_spec (length (firstn 100 rs)) 100); [ | lia].
      rewrite lookup_app, lookup_replaced_same, E.
      unfold lookup. cbn [find]. now rewrite String.eqb_refl.
    + apply lookup_exists in H. congruence.
Qed.

(** A save with the file full and the name not in it writes the first
    hundred records back and nothing else. *)
Lemma put_full record rs :
  (100 <= length rs)%nat ->
  lookup (username record) (firstn 100 rs) = None ->
  put record rs = firstn 100 rs.
Proof.
  intros Hlen Hno. unfold put.
  rewrite length_firstn, Nat.min_l by exact Hlen.
  rewrite andb_false_r.
  unfold lookup in Hno.
  induction (firstn 100 rs) as [| x l IH]; [reflexivity | ].
  cbn [find map] in *.
  destruct (username x =? username record)%string; [discriminate | ].
  now rewrite IH.
Qed.

Lemma lookup_found name rs r :
  lookup name rs = Some r -> In r rs /\ username r = name.
Proof.
  intros H. apply find_some in H. destruct H as [H1 H2].
  split; [exact H1 | now apply String.eqb_eq].
Qed.

Lemma firstn_all_s {A} (l : list A) n :
  (length l <= n)%nat -> firstn n l = l.
Proof.
  revert n. induction l as [| x l IH]; intros [| n] H; cbn in *;
    try reflexivity; try lia.
  rewrite IH by lia. reflexivity.
Qed.

(** What a save leaves in the file, and what is loaded from it. *)
Lemma savePlayerRecord_put record file rs :
  holds file rs -> Forall (fun r => well_formed r = true) rs ->
  well_formed record = true ->
  (length rs <= 100)%nat ->
  (length rs < 100)%nat \/ lookup (username record) rs <> None ->
  savePlayerRecord record true file
    = Some (Written (print_records (put record rs))) /\
  Forall (fun r => well_formed r = true) (put record rs) /\
  (length (put record rs) <= 100)%nat /\
  forall name,
    loadPlayerRecord name (Some (print_records (put record rs))) =
    if (name =? username record)%string then Some (1, record)
    else loadPlayerRecord name file.
Proof.
  intros Hf Hwf Hr Hlen Hroom.
  assert (Forall (fun r => well_formed r = true) (put record rs)) as Hwf'
    by now apply put_Forall.
  split; [now rewrite (savePlayerRecord_holds _ _ _ rs) | ].
  split; [exact Hwf' | ]. split; [apply put_length | ].
  intros name.
  rewrite (loadPlayerRecord_holds name (Some (print_records (put record rs)))
             (put record rs) eq_refl Hwf').
  rewrite (loadPlayerRecord_holds name file rs Hf Hwf).
  destruct (String.eqb_spec name (username record)) as [E | E].
  - subst name. rewrite lookup_put_same; [reflexivity | ].
    now rewrite firstn_all_s by exact Hlen.
  - rewrite lookup_put_other by exact E.
    now rewrite firstn_all_s by exact Hlen.
Qed.

(** X13.  A record saved is the record loaded.  On a file of at most a
    hundred well-formed records, with room left or the name in it,
    [savePlayerRecord] writes a file of the same kind; from it
    [loadPlayerRecord] returns 1 and the saved record for the saved name,
    and for every other name what it returned from the file before. *)
Theorem savePlayerRecord_round_trip record file rs :
  holds file rs -> Forall (fun r => well_formed r = true) rs ->
  well_formed record = true ->
  (length rs <= 100)%nat ->
  (length rs < 100)%nat \/ lookup (username record) rs <> None ->
  exists rs',
    savePlayerRecord record true file = Some (Written (print_records rs')) /\
    Forall (fun r => well_formed r = true) rs' /\
    (length rs' <= 100)%nat /\
    forall name,
      loadPlayerRecord name (Some (print_records rs')) =
      if (name =? username record)%string then Some (1, record)
      else loadPlayerRecord name file.
Proof.
  intros Hf Hwf Hr Hlen Hroom. exists (put record rs).
  now apply savePlayerRecord_put.
Qed.

(** X14.  The hundred-first player.  With a hundred records or more in
    the file and the name not among the first hundred,
    [savePlayerRecord] writes the first hundred records back and nothing
    else: every name that is not among them is new to
    [loadPlayerRecord] afterwards, the saved one and those that stood
    further down in the file and were found there before. *)
Theorem savePlayerRecord_full record file rs :
  holds file rs -> Forall (fun r => well_formed r = true) rs ->
  (100 <= length rs)%nat ->
  lookup (username record) (firstn 100 rs) = None ->
  savePlayerRecord record true file
    = Some (Written (print_records (firstn 100 rs))) /\
  forall name,
    lookup name (firstn 100 rs) = None ->
    loadPlayerRecord name (Some (print_records (firstn 100 rs)))
      = Some (0, new_player name) /\
    forall r, lookup name rs = Some r ->
              loadPlayerRecord name file = Some (1, r).
Proof.
  intros Hf Hwf Hlen Hno.
  split.
  - rewrite (savePlayerRecord_holds _ _ _ rs Hf Hwf).
    now rewrite put_full.
  - intros name Hname. split.
    + rewrite (loadPlayerRecord_holds name
                 (Some (print_records (firstn 100 rs)))
                 (firstn 100 rs) eq_refl).
      * now rewrite Hname.
      * apply Forall_forall. intros x Hx. apply firstn_In_s in Hx.
        rewrite Forall_forall in Hwf. now apply Hwf.
    + intros r Hr. rewrite (loadPlayerRecord_holds name file rs Hf Hwf).
      now rewrite Hr.
Qed.

(** ** Names with white space *)

Lemma scan_word_no_space w :
  forall s a rest, scan_word w s = (a, rest) -> has_space a = false.
Proof.
  induction w as [| w IH]; intros s a rest H.
  - cbn in H. now inversion H.
  - destruct s as [| c s]; cbn [scan_word] in H; [now inversion H | ].
    destruct (isspace c) eqn:Ec; [now inversion H | ].
    destruct (scan_word w s) as [a' rest'] eqn:E.
    inversion H; subst. cbn [has_space]. rewrite Ec.
    now apply (IH s a' rest).
Qed.

Lemma c_str_no_space a : has_space a = false -> has_space (c_str a) = false.
Proof.
  induction a as [| c a IH]; intros H; [reflexivity | ].
  cbn [has_space] in H. apply orb_false_iff in H. destruct H as [Hc Ha].
  cbn [c_str]. destruct (c =? zero)%char; [reflexivity | ].
  cbn [has_space]. rewrite Hc. now apply IH.
Qed.

(** No record read has white space in its name. *)
Lemma scan_record_no_space s r rest :
  scan_record s = Got r rest -> has_space (username r) = false.
Proof.
  unfold scan_record.
  destruct (scan_word (Utils.MAX_USERNAME - 1) (skip_ws s)) as [a s1] eqn:E.
  apply scan_word_no_space in E.
  destruct a as [| c a]; [discriminate | ].
  unfold then_scan.
  destruct (scan_int s1) as [w s2 | | ]; try discriminate.
  destruct (scan_int s2) as [l s3 | | ]; try discriminate.
  destruct (scan_int s3) as [d s4 | | ]; try discriminate.
  destruct (scan_int s4) as [t s5 | | ]; try discriminate.
  intros H. inversion H; subst. cbn [username].
  exact (c_str_no_space (String c a) E).
Qed.

Lemma search_file_found fuel name :
  forall s temp,
    search_file fuel name s = Some (Some temp) ->
    username temp = name /\ has_space name = false.
Proof.
  induction fuel as [| fuel IH]; intros s temp H; [discriminate | ].
  cbn [search_file] in H.
  destruct (scan_record s) as [r rest | | ] eqn:E; try discriminate.
  destruct (String.eqb_spec (username r) name) as [En | En].
  - inversion H; subst. split; [reflexivity | ].
    now apply scan_record_no_space in E.
  - now apply (IH rest).
Qed.

(** X15.  A name with white space in it is never found, whatever the
    file holds: [loadPlayerRecord] returns 0 and the record of a new
    player, and [updateLeaderboard] saves the game as a first game. *)
Theorem loadPlayerRecord_name_with_space name file k r :
  has_space name = true ->
  loadPlayerRecord name file = Some (k, r) ->
  k = 0 /\ r = new_player name /\
  forall winner can_write,
    updateLeaderboard name winner can_write file =
    savePlayerRecord (played winner (new_player name)) can_write file.
Proof.
  intros Hsp Hload.
  assert (k = 0 /\ r = new_player name) as [Hk Hr].
  { unfold loadPlayerRecord in Hload.
    destruct file as [s | ]; [ | now inversion Hload].
    destruct (search_file (S (String.length s)) name s) as [[temp | ] | ]
      eqn:E; try discriminate.
    - apply search_file_found in E. destruct E as [_ E]. congruence.
    - now inversion Hload. }
  subst. repeat split.
  intros winner can_write. unfold updateLeaderboard. rewrite Hload.
  cbn [new_player totalGames wins losses draws username incr].
  unfold played, new_player. cbn [totalGames wins losses draws username].
  change (incr 0) with (Some 1). cbn [option_map].
  destruct (winner =? "X")%char; [reflexivity | ].
  destruct (winner =? "O")%char; reflexivity.
Qed.

(** ** One more game *)

Lemma incr_some x : x < INT_MAX -> incr x = Some (x + 1).
Proof.
  intros H. unfold incr. destruct (Z.ltb_spec x INT_MAX); [reflexivity | lia].
Qed.

(** [updateLeaderboard] saves the loaded record with one more game, where
    the numbers it increments are below [INT_MAX]. *)
Lemma updateLeaderboard_saves name winner can_write file k old :
  loadPlayerRecord name file = Some (k, old) ->
  totalGames old < INT_MAX ->
  (winner = "X" -> wins old < INT_MAX) ->
  (winner = "O" -> losses old < INT_MAX) ->
  (winner <> "X" -> winner <> "O" -> draws old < INT_MAX) ->
  updateLeaderboard name winner can_write file =
  savePlayerRecord (played winner old) can_write file.
Proof.
  intros Hload Ht Hw Hl Hd. unfold updateLeaderboard. rewrite Hload.
  rewrite (incr_some _ Ht). cbn [username wins losses draws totalGames].
  unfold played.
  destruct (Ascii.eqb_spec winner "X") as [E | E];
    [rewrite (incr_some _ (Hw E)); reflexivity | ].
  destruct (Ascii.eqb_spec winner "O") as [E' | E'];
    [rewrite (incr_some _ (Hl E')) | rewrite (incr_some _ (Hd E E'))];
    reflexivity.
Qed.

Lemma is_int_succ x : is_int x = true -> x < INT_MAX -> is_int (x + 1) = true.
Proof. rewrite !is_int_range. unfold INT_MIN, INT_MAX. lia. Qed.

Lemma played_well_formed winner r :
  well_formed r = true ->
  totalGames r < INT_MAX ->
  (winner = "X" -> wins r < INT_MAX) ->
  (winner = "O" -> losses r < INT_MAX) ->
  (winner <> "X" -> winner <> "O" -> draws r < INT_MAX) ->
  well_formed (played winner r) = true.
Proof.
  intros Hr Ht Hw Hl Hd.
  destruct (well_formed_facts _ Hr) as [Hn [Hw' [Hl' [Hd' Ht']]]].
  unfold well_formed, played. cbn [username wins losses draws totalGames].
  rewrite Hn, (is_int_succ _ Ht' Ht).
  destruct (Ascii.eqb_spec winner "X") as [E | E];
    [now rewrite (is_int_succ _ Hw' (Hw E)), Hl', Hd' | ].
  destruct (Ascii.eqb_spec winner "O") as [E' | E'];
    [now rewrite Hw', (is_int_succ _ Hl' (Hl E')), Hd'
    | now rewrite Hw', Hl', (is_int_succ _ Hd' (Hd E E'))].
Qed.

Lemma played_balanced winner r : balanced r -> balanced (played winner r).
Proof.
  unfold balanced, played. cbn [wins losses draws totalGames].
  destruct (winner =? "X")%char; [lia | ].
  destruct (winner =? "O")%char; lia.
Qed.

(** The record [loadPlayerRecord] fills from a file of well-formed
    records is well formed and has the name asked for, if that is a
    word. *)
Lemma loaded_record name file rs k old :
  holds file rs -> Forall (fun r => well_formed r = true) rs ->
  is_word name = true ->
  loadPlayerRecord name file = Some (k, old) ->
  well_formed old = true /\ username old = name /\
  (Forall balanced rs -> balanced old) /\
  (k = 1 /\ lookup name rs = Some old \/
   k = 0 /\ lookup name rs = None /\ old = new_player name).
Proof.
  intros Hf Hwf Hn Hload.
  rewrite (loadPlayerRecord_holds name file rs Hf Hwf) in Hload.
  destruct (lookup name rs) as [r | ] eqn:E; inversion Hload; subst.
  - destruct (lookup_found _ _ _ E) as [Hin Hname].
    rewrite Forall_forall in Hwf.
    split; [now apply Hwf | ]. split; [exact Hname | ].
    split; [ | now left].
    intros Hb. rewrite Forall_forall in Hb. now apply Hb.
  - unfold new_player. rewrite (copy_name_word _ Hn).
    split; [unfold well_formed; cbn; now rewrite Hn | ].
    split; [reflexivity | ].
    split; [intros _; unfold balanced; cbn; lia | now right].
Qed.

(** X16.  One more game.  For a name that is a word, on a file of at
    most a hundred well-formed records with room left or the name in it,
    and with no number of the player's record at [INT_MAX],
    [updateLeaderboard] writes a file of the same kind from which
    [loadPlayerRecord] returns, for the name, the record loaded before
    with one game more and one more win, loss or draw as the winner is
    ['X'], ['O'] or anything else, and for every other name what it
    returned before; if wins, losses and draws added up to the games in
    every record, they still do. *)
Theorem updateLeaderboard_played name winner file rs k old :
  holds file rs -> Forall (fun r => well_formed r = true) rs ->
  is_word name = true ->
  (length rs <= 100)%nat ->
  (length rs < 100)%nat \/ lookup name rs <> None ->
  loadPlayerRecord name file = Some (k, old) ->
  totalGames old < INT_MAX -> wins old < INT_MAX ->
  losses old < INT_MAX -> draws old < INT_MAX ->
  exists rs',
    updateLeaderboard name winner true file
      = Some (Written (print_records rs')) /\
    Forall (fun r => well_formed r = true) rs' /\
    (length rs' <= 100)%nat /\
    (forall other,
       loadPlayerRecord other (Some (print_records rs')) =
       if (other =? name)%string then Some (1, played winner old)
       else loadPlayerRecord other file) /\
    (Forall balanced rs -> Forall balanced rs').
Proof.
  intros Hf Hwf Hn Hlen Hroom Hload Ht Hw Hl Hd.
  destruct (loaded_record name file rs k old Hf Hwf Hn Hload)
    as [Hold [Hname [Hbal _]]].
  pose proof (played_well_formed winner old Hold Ht
                (fun _ => Hw) (fun _ => Hl) (fun _ _ => Hd)) as Hnew.
  assert (username (played winner old) = name) as Hname' by exact Hname.
  destruct (savePlayerRecord_put (played winner old) file rs Hf Hwf Hnew Hlen)
    as [Hsave [Hwf' [Hlen' Hloads]]]; [now rewrite Hname' | ].
  exists (put (played winner old) rs).
  rewrite (updateLeaderboard_saves name winner true file k old Hload Ht
             (fun _ => Hw) (fun _ => Hl) (fun _ _ => Hd)).
  split; [exact Hsave | ]. split; [exact Hwf' | ]. split; [exact Hlen' | ].
  split.
  - intros other. rewrite Hloads, Hname'. reflexivity.
  - intros Hb. apply put_Forall; [ | exact Hb].
    apply played_balanced. now apply Hbal.
Qed.

Lemma savePlayerRecord_round_trip_witness :
  exists rs',
    savePlayerRecord (mkRecord "ann" 4 1 0 5) true
      (Some (print_records [bob; ann]))
      = Some (Written (print_records rs')) /\
    Forall (fun r => well_formed r = true) rs' /\
    (length rs' <= 100)%nat /\
    forall name,
      loadPlayerRecord name (Some (print_records rs')) =
      if (name =? "ann")%string then Some (1, mkRecord "ann" 4 1 0 5)
      else loadPlayerRecord name (Some (print_records [bob; ann])).
Proof.
  apply (savePlayerRecord_round_trip (mkRecord "ann" 4 1 0 5)
           (Some (print_records [bob; ann])) [bob; ann]).
  - reflexivity.
  - repeat constructor.
  - reflexivity.
  - cbn. lia.
  - left. cbn. lia.
Defined.

Lemma forallb_Forall_s {A} (p : A -> bool) l :
  forallb p l = true -> Forall (fun x => p x = true) l.
Proof. intros H. apply Forall_forall. now apply forallb_forall. Qed.

Lemma savePlayerRecord_full_witness :
  savePlayerRecord (mkRecord "zed" 1 0 0 1) true
    (Some (print_records sample_full))
    = Some (Written (print_records (firstn 100 sample_full))) /\
  forall name,
    lookup name (firstn 100 sample_full) = None ->
    loadPlayerRecord name (Some (print_records (firstn 100 sample_full)))
      = Some (0, new_player name) /\
    forall r, lookup name sample_full = Some r ->
              loadPlayerRecord name (Some (print_records sample_full))
              = Some (1, r).
Proof.
  apply (savePlayerRecord_full (mkRecord "zed" 1 0 0 1)
           (Some (print_records sample_full)) sample_full).
  - reflexivity.
  - apply forallb_Forall_s. vm_compute. reflexivity.
  - vm_compute. repeat constructor.
  - vm_compute. reflexivity.
Defined.

Lemma loadPlayerRecord_name_with_space_witness :
  has_space "ann smith" = true /\
  loadPlayerRecord "ann smith"
    (Some (print_records [bob; mkRecord "ann smith" 0 1 0 1]))
    = Some (0, new_player "ann smith") /\
  forall winner can_write,
    updateLeaderboard "ann smith" winner can_write
      (Some (print_records [bob; mkRecord "ann smith" 0 1 0 1])) =
    savePlayerRecord (played winner (new_player "ann smith")) can_write
      (Some (print_records [bob; mkRecord "ann smith" 0 1 0 1])).
Proof.
  split; [reflexivity | ]. split; [vm_compute; reflexivity | ].
  apply (loadPlayerRecord_name_with_space "ann smith"
           (Some (print_records [bob; mkRecord "ann smith" 0 1 0 1]))
           0 (new_player "ann smith"));
    vm_compute; reflexivity.
Defined.

Lemma updateLeaderboard_played_witness :
  exists rs',
    updateLeaderboard "ann" "O" true (Some (print_records [bob; ann]))
      = Some (Written (print_records rs')) /\
    Forall (fun r => well_formed r = true) rs' /\
    (length rs' <= 100)%nat /\
    (forall other,
       loadPlayerRecord other (Some (print_records rs')) =
       if (other =? "ann")%string then Some (1, played "O" ann)
       else loadPlayerRecord other (Some (print_records [bob; ann]))) /\
    (Forall balanced [bob; ann] -> Forall balanced rs').
Proof.
  apply (updateLeaderboard_played "ann" "O"
           (Some (print_records [bob; ann])) [bob; ann] 1 ann).
  - reflexivity.
  - repeat constructor.
  - reflexivity.
  - cbn. lia.
  - left. cbn. lia.
  - vm_compute. reflexivity.
  - reflexivity.
  - reflexivity.
  - reflexivity.
  - reflexivity.
Defined.

(** ** The sort of [displayLeaderboard] *)

Lemma swap_if_cons a l j : swap_if (a :: l) (S j) = a :: swap_if l j.
Proof.
  unfold swap_if.
  change (nth_error (a :: l) (S j)) with (nth_error l j).
  change (nth_error (a :: l) (S (S j))) with (nth_error l (S j)).
  destruct (nth_error l j) as [x | ]; [ | reflexivity].
  destruct (nth_error l (S j)) as [y | ]; [ | reflexivity].
  destruct (wins x <? wins y); [ | reflexivity].
  destruct l as [| b l]; reflexivity.
Qed.

Lemma swap_if_at pre x y post :
  swap_if (pre ++ x :: y :: post) (length pre) =
  pre ++ (if wins x <? wins y then y :: x :: post else x :: y :: post).
Proof.
  induction pre as [| a pre IH].
  - unfold swap_if. cbn. destruct (wins x <? wins y); reflexivity.
  - cbn [app length]. rewrite swap_if_cons, IH. reflexivity.
Qed.

(** The inner loop on the array is [bubble] on the records from its
    first index. *)
Lemma inner_loop_bubble n :
  forall pre l,
    (n < length l)%nat ->
    fold_left swap_if (seq (length pre) n) (pre ++ l) = pre ++ bubble n l.
Proof.
  induction n as [| n IH]; intros pre l Hn; [destruct l; reflexivity | ].
  destruct l as [| x [| y l]]; cbn [length] in Hn; try lia.
  cbn [seq fold_left]. rewrite swap_if_at. cbn [bubble].
  destruct (wins x <? wins y).
  - change (pre ++ y :: x :: l) with (pre ++ [y] ++ x :: l).
    rewrite app_assoc.
    replace (S (length pre)) with (length (pre ++ [y]))
      by (rewrite length_app; cbn; lia).
    rewrite IH by (cbn; lia). now rewrite <- app_assoc.
  - change (pre ++ x :: y :: l) with (pre ++ [x] ++ y :: l).
    rewrite app_assoc.
    replace (S (length pre)) with (length (pre ++ [x]))
      by (rewrite length_app; cbn; lia).
    rewrite IH by (cbn; lia). now rewrite <- app_assoc.
Qed.

Lemma inner_loop_whole n a :
  (n < length a)%nat -> fold_left swap_if (seq 0 n) a = bubble n a.
Proof. intros H. exact (inner_loop_bubble n [] a H). Qed.

Lemma bubble_length n : forall l, length (bubble n l) = length l.
Proof.
  induction n as [| n IH]; intros l; [destruct l; reflexivity | ].
  destruct l as [| x [| y l]]; try reflexivity.
  cbn [bubble]. destruct (wins x <? wins y); cbn [length]; rewrite IH;
    reflexivity.
Qed.

Lemma bubble_perm n : forall l, Permutation (bubble n l) l.
Proof.
  induction n as [| n IH]; intros l; [destruct l; reflexivity | ].
  destruct l as [| x [| y l]]; try reflexivity.
  cbn [bubble]. destruct (wins x <? wins y).
  - rewrite IH. apply perm_swap.
  - now rewrite IH.
Qed.

(** Records with the same wins keep their order. *)
Lemma bubble_stable w n :
  forall l, filter (fun r => wins r =? w) (bubble n l)
            = filter (fun r => wins r =? w) l.
Proof.
  induction n as [| n IH]; intros l; [destruct l; reflexivity | ].
  destruct l as [| x [| y l]]; try reflexivity.
  cbn [bubble]. destruct (Z.ltb_spec (wins x) (wins y)) as [Hlt | Hge].
  - cbn [filter]. rewrite IH. cbn [filter].
    destruct (Z.eqb_spec (wins x) w), (Z.eqb_spec (wins y) w);
      try reflexivity; lia.
  - cbn [filter]. rewrite IH. reflexivity.
Qed.

(** The changes of a pass stay within the records it compares. *)
Lemma bubble_front n :
  forall front back,
    (n < length front)%nat ->
    bubble n (front ++ back) = bubble n front ++ back.
Proof.
  induction n as [| n IH]; intros front back Hn;
    [destruct front, back; reflexivity | ].
  destruct front as [| x [| y front]]; cbn [length] in Hn; try lia.
  cbn [app bubble]. destruct (wins x <? wins y); cbn [app]; f_equal.
  - apply (IH (x :: front) back). cbn. lia.
  - apply (IH (y :: front) back). cbn. lia.
Qed.

(** A pass over all of a list brings a record with the fewest wins to
    its end. *)
Lemma bubble_last n :
  forall l,
    S n = length l ->
    exists l' m, bubble n l = l' ++ [m] /\
                 Forall (fun x => wins m <= wins x) l.
Proof.
  induction n as [| n IH]; intros l Hn.
  - destruct l as [| x [| y l]]; cbn in Hn; try lia.
    exists [], x. split; [reflexivity | ]. constructor; [lia | constructor].
  - destruct l as [| x [| y l]]; cbn [length] in Hn; try lia.
    cbn [bubble]. destruct (Z.ltb_spec (wins x) (wins y)) as [Hlt | Hge].
    + destruct (IH (x :: l)) as [l' [m [E Hm]]]; [cbn; lia | ].
      exists (y :: l'), m. rewrite E. split; [reflexivity | ].
      inversion Hm; subst.
      constructor; [assumption | ]. constructor; [lia | assumption].
    + destruct (IH (y :: l)) as [l' [m [E Hm]]]; [cbn; lia | ].
      exists (x :: l'), m. rewrite E. split; [reflexivity | ].
      inversion Hm; subst.
      constructor; [lia | ]. constructor; assumption.
Qed.

(** After [i] passes the last [i] records are in their final place: in
    descending order of wins, and below all the records before them. *)
Lemma outer_loop_sorted count :
  forall k i a front back,
    a = front ++ back -> length a = count -> length back = i ->
    (i + k = count - 1)%nat ->
    StronglySorted (fun x y => wins y <= wins x) back ->
    (forall x y, In x front -> In y back -> wins y <= wins x) ->
    StronglySorted (fun x y => wins y <= wins x)
      (fold_left (fun records i =>
                    fold_left swap_if (seq 0 (count - i - 1)) records)
                 (seq i k) a).
Proof.
  induction k as [| k IH]; intros i a front back Ha Hlen Hback Hik Hs Hle.
  - cbn [seq fold_left]. subst a.
    rewrite length_app in Hlen.
    destruct front as [| x [| y front]]; cbn [length] in Hlen.
    + exact Hs.
    + cbn [app]. constructor; [exact Hs | ].
      apply Forall_forall. intros y Hy. apply Hle; [now left | exact Hy].
    + lia.
  - cbn [seq fold_left].
    assert (count - i - 1 < length front)%nat as Hn
      by (subst a; rewrite length_app in Hlen; lia).
    rewrite inner_loop_whole by (rewrite Hlen; lia).
    subst a. rewrite bubble_front by exact Hn.
    destruct (bubble_last (count - i - 1) front) as [l' [m [E Hm]]];
      [rewrite length_app in Hlen; lia | ].
    pose proof (bubble_perm (count - i - 1) front) as Hp. rewrite E in Hp.
    rewrite Forall_forall in Hm.
    apply (IH (S i) _ l' (m :: back)).
    + rewrite E, <- app_assoc. reflexivity.
    + rewrite length_app, bubble_length, <- length_app. exact Hlen.
    + cbn. lia.
    + lia.
    + constructor; [exact Hs | ].
      apply Forall_forall. intros y Hy. apply Hle; [ | exact Hy].
      apply (Permutation_in _ Hp). apply in_or_app. right. now left.
    + intros x y Hx [Hy | Hy].
      * subst y. apply Hm. apply (Permutation_in _ Hp).
        apply in_or_app. now left.
      * apply Hle; [ | exact Hy]. apply (Permutation_in _ Hp).
        apply in_or_app. now left.
Qed.

(** Every pass keeps what holds of the records whatever their order. *)
Lemma outer_loop_keeps (P : list PlayerRecord -> Prop) count :
  (forall n l, P l -> P (bubble n l)) ->
  forall k i a,
    length a = count -> (i + k <= count - 1)%nat -> P a ->
    P (fold_left (fun records i =>
                    fold_left swap_if (seq 0 (count - i - 1)) records)
                 (seq i k) a).
Proof.
  intros HP. induction k as [| k IH]; intros i a Hlen Hik Ha; [exact Ha | ].
  cbn [seq fold_left].
  rewrite inner_loop_whole by (rewrite Hlen; lia).
  apply IH; [now rewrite bubble_length | lia | now apply HP].
Qed.

Lemma bubble_sort_sorted rs :
  StronglySorted (fun x y => wins y <= wins x) (bubble_sort rs).
Proof.
  unfold bubble_sort.
  apply (outer_loop_sorted (length rs) (length rs - 1) 0 rs rs []).
  - now rewrite app_nil_r.
  - reflexivity.
  - reflexivity.
  - lia.
  - constructor.
  - intros x y _ [].
Qed.

Lemma bubble_sort_perm rs : Permutation (bubble_sort rs) rs.
Proof.
  unfold bubble_sort.
  apply (outer_loop_keeps (fun l => Permutation l rs) (length rs)).
  - intros n l Hl. now rewrite bubble_perm.
  - reflexivity.
  - lia.
  - reflexivity.
Qed.

Lemma bubble_sort_stable w rs :
  filter (fun r => wins r =? w) (bubble_sort rs)
  = filter (fun r => wins r =? w) rs.
Proof.
  unfold bubble_sort.
  apply (outer_loop_keeps
           (fun l => filter (fun r => wins r =? w) l
                     = filter (fun r => wins r =? w) rs) (length rs)).
  - intros n l Hl. now rewrite bubble_stable.
  - reflexivity.
  - lia.
  - reflexivity.
Qed.

(** X17.  The table of [displayLeaderboard].  From a file of well-formed
    records the rows shown are the first hundred records of the file, in
    descending order of wins, and records with the same wins stand in
    the order of the file. *)
Theorem displayLeaderboard_sorted content rs :
  holds (Some content) rs ->
  Forall (fun r => well_formed r = true) rs ->
  exists rows,
    displayLeaderboard (Some content) = Some (Table rows) /\
    Permutation rows (firstn 100 rs) /\
    StronglySorted (fun x y => wins y <= wins x) rows /\
    forall w, filter (fun r => wins r =? w) rows
              = filter (fun r => wins r =? w) (firstn 100 rs).
Proof.
  intros Hf Hwf. cbn [holds] in Hf. subst content.
  exists (bubble_sort (firstn 100 rs)). unfold displayLeaderboard.
  rewrite (read_records_records rs) by
    (try assumption; now apply skip_ws_records).
  cbn [app]. split; [reflexivity | ].
  split; [apply bubble_sort_perm | ].
  split; [apply bubble_sort_sorted | ].
  intros w. apply bubble_sort_stable.
Qed.

Lemma displayLeaderboard_sorted_witness :
  exists rows,
    displayLeaderboard (Some (print_records [bob; ann; eve]))
      = Some (Table rows) /\
    Permutation rows (firstn 100 [bob; ann; eve]) /\
    StronglySorted (fun x y => wins y <= wins x) rows /\
    forall w, filter (fun r => wins r =? w) rows
              = filter (fun r => wins r =? w) (firstn 100 [bob; ann; eve]).
Proof.
  apply (displayLeaderboard_sorted (print_records [bob; ann; eve])
           [bob; ann; eve]).
  - reflexivity.
  - repeat constructor.
Defined.

(** ** A match and the leaderboard *)

(** X18.  Nobody gains a win against the engine of the highest tier.
    [playGame] ends with [updateLeaderboard(username, matchStats.winner)];
    after a match at [aiDifficulty] 2 or more, on a file of at most a
    hundred well-formed records and for a name that is a word, that call
    writes the file, and the wins [loadPlayerRecord] then reports for the
    player are the wins it reported before the match. *)
Theorem playGame_adds_no_win playerStarts aiVerbose aiDifficulty name
    garbage rnd inputs m stats m' file rs k old :
  2 <= aiDifficulty ->
  Play.playGame playerStarts aiVerbose aiDifficulty name garbage rnd
    inputs m = Some (Some stats, m') ->
  holds file rs -> Forall (fun r => well_formed r = true) rs ->
  is_word name = true -> (length rs <= 100)%nat ->
  loadPlayerRecord name file = Some (k, old) ->
  totalGames old < INT_MAX -> losses old < INT_MAX ->
  draws old < INT_MAX ->
  exists content k' new,
    updateLeaderboard name (Utils.winner stats) true file
      = Some (Written content) /\
    loadPlayerRecord name (Some content) = Some (k', new) /\
    wins new = wins old.
Proof.
  intros Hd Hrun Hf Hwf Hn Hlen Hload Ht Hl Hdr.
  assert (Utils.winner stats <> "X") as HnoX.
  { destruct (playGame_hard_result _ _ _ _ _ _ _ _ _ _ Hd Hrun)
      as [[E _] | [E _]]; rewrite E; discriminate. }
  destruct (loaded_record name file rs k old Hf Hwf Hn Hload)
    as [Hold [Hname [_ Hcase]]].
  pose proof (played_well_formed (Utils.winner stats) old Hold Ht
                (fun E => False_ind _ (HnoX E)) (fun _ => Hl)
                (fun _ _ => Hdr)) as Hnew.
  rewrite (updateLeaderboard_saves name (Utils.winner stats) true file k old
             Hload Ht (fun E => False_ind _ (HnoX E)) (fun _ => Hl)
             (fun _ _ => Hdr)).
  rewrite (savePlayerRecord_holds _ _ _ rs Hf Hwf).
  exists (print_records (put (played (Utils.winner stats) old) rs)).
  assert (Forall (fun r => well_formed r = true)
            (put (played (Utils.winner stats) old) rs)) as Hwf'
    by now apply put_Forall.
  rewrite (loadPlayerRecord_holds name
             (Some (print_records (put (played (Utils.winner stats) old) rs)))
             (put (played (Utils.winner stats) old) rs) eq_refl Hwf').
  assert (username (played (Utils.winner stats) old) = name) as Hname'
    by exact Hname.
  assert (wins (played (Utils.winner stats) old) = wins old) as Hwins.
  { unfold played. cbn [wins].
    destruct (Ascii.eqb_spec (Utils.winner stats) "X"); [contradiction | ].
    reflexivity. }
  destruct (Nat.ltb_spec (length rs) 100) as [Hroom | Hfull];
    [ | destruct Hcase as [[_ Hin] | [_ [Hout Hnewp]]]].
  - exists 1, (played (Utils.winner stats) old).
    pose proof (lookup_put_same (played (Utils.winner stats) old) rs
                  (or_introl Hroom)) as Hlk.
    rewrite Hname' in Hlk. rewrite Hlk.
    repeat split. exact Hwins.
  - exists 1, (played (Utils.winner stats) old).
    assert (lookup (username (played (Utils.winner stats) old))
              (firstn 100 rs) <> None) as Hthere
      by (rewrite Hname', firstn_all_s by exact Hlen; congruence).
    pose proof (lookup_put_same (played (Utils.winner stats) old) rs
                  (or_intror Hthere)) as Hlk.
    rewrite Hname' in Hlk. rewrite Hlk.
    repeat split. exact Hwins.
  - exists 0, (new_player name).
    rewrite put_full
      by (try lia; rewrite Hname', firstn_all_s by exact Hlen; exact Hout).
    rewrite firstn_all_s by exact Hlen. rewrite Hout.
    repeat split. now subst old.
Qed.

Lemma playGame_adds_no_win_witness :
  exists m' content k' new,
    Play.playGame 1 0 2 "ann" [] (fun _ => 0) sample_inputs (start Game_init)
      = Some (Some sample_stats, m') /\
    updateLeaderboard "ann" (Utils.winner sample_stats) true
      (Some (print_records [bob; ann])) = Some (Written content) /\
    loadPlayerRecord "ann" (Some content) = Some (k', new) /\
    wins new = wins ann.
Proof.
  destruct (run_with_board _ _ _ _ sample_game) as [m' [Hrun Hb]].
  exists m'.
  destruct (playGame_adds_no_win 1 0 2 "ann"%string [] (fun _ => 0)
              sample_inputs (start Game_init) sample_stats m'
              (Some (print_records [bob; ann])) [bob; ann] 1 ann
              ltac:(lia) Hrun eq_refl
              ltac:(repeat constructor) eq_refl ltac:(cbn; lia)
              ltac:(vm_compute; reflexivity)
              eq_refl eq_refl eq_refl)
    as [content [k' [new H]]].
  exists content, k', new. split; [exact Hrun | exact H].
Defined.
